(** * FloraAdam: Adam with a randomly projected first moment

    A shallow embedding of [pytorch_fob/optimizers/flora/optimizer.py]
    and the properties its specification states about it.

    Conventions of the embedding.
    - Python [int] is [Z]; a [torch.Size] is a [list Z].
    - Python [float] and tensor entries are idealised as real numbers
      ([R]): rounding, overflow, [inf] and [nan] are outside the model.
      The one float comparison that decides control flow, the
      [max/min <= 4] test of the compression policy, is carried out on
      exact rationals. Where a property depends on a float operation
      not raising, the inputs on which Python evaluates it are a
      hypothesis of that property.
    - A Python [dict] with a fixed set of keys is a record of options;
      [self.state], a [defaultdict] keyed by parameter, is a [gmap] from
      parameter handles to such records.
    - Statements run in a state-and-exception monad over one [store]; a
      raised exception keeps the mutations made before it, as in Python.
    - The parts of torch the code calls but does not define (random
      streams, broadcasting of unequal shapes, products of tensors that
      are not matrices) are fields of the class [Torch]. *)

From Stdlib Require Import ZArith QArith Reals Lra Lia List String.
From stdpp Require Import base option functions gmap list.
Import ListNotations.
Open Scope Z_scope.

(** ** Parameter groups and the compression policy *)

Abbreviation handle := positive.

Record group := mkGroup {
  g_params : list handle;
  g_lr : option R;
  g_betas : R * R;
  g_eps : R;
  g_rank : option Z;
  g_kappa : Z
}.

(** The parameters of all groups, in iteration order. *)
Definition all_params (gs : list group) : list handle := concat (map g_params gs).

(** Python's [min] and [max] on a tuple; [None] stands for the
    [ValueError] on an empty one. *)
Definition tuple_min (s : list Z) : option Z :=
  match s with
  | [] => None
  | x :: l => Some (fold_left Z.min l x)
  end.

Definition tuple_max (s : list Z) : option Z :=
  match s with
  | [] => None
  | x :: l => Some (fold_left Z.max l x)
  end.

(** [a / b] on two Python ints, as an exact rational. *)
Definition true_div (a b : Z) : Q := (inject_Z a / inject_Z b)%Q.

(** [FloraAdam._should_compress]. The conjunction short-circuits, so
    [min] and [max] are only reached for a 2-tuple and the division only
    for [min >= rank > 0]. *)
Definition _should_compress (param_group : group) (param_shape : list Z) : bool :=
  let factored := Nat.eqb (length param_shape) 2 in
  match g_rank param_group with
  | None => false
  | Some rank =>
      (0 <? rank) && factored &&
      match tuple_min param_shape, tuple_max param_shape with
      | Some mn, Some mx => (rank <=? mn) && Qle_bool (true_div mx mn) 4
      | _, _ => false
      end
  end.


(** ** Tensors

    A tensor carries its shape, its entries in row-major order, and the
    device and dtype it lives on. *)

Inductive device := cpu | cuda (index : nat).
Inductive dtype := float16 | bfloat16 | float32 | float64.

Record Tensor := mkTensor {
  t_shape : list Z;
  t_data : list R;
  t_device : device;
  t_dtype : dtype
}.

#[global] Instance device_eq_dec : EqDecision device.
Proof. solve_decision. Defined.
#[global] Instance dtype_eq_dec : EqDecision dtype.
Proof. solve_decision. Defined.

(** What the code takes from torch without defining it. A generator is
    its state; [manual_seed] is [torch.Generator(device).manual_seed],
    which rejects seeds outside [-2^63, 2^64) ([None]). A draw of [n]
    values is given entry by entry, together with the state the
    generator is left in. [broadcast_data s t] expands [t] to the shape
    [s] when the two shapes differ, and [matmul_general] multiplies
    operands that are not both matrices ([None]: torch raises). *)
Class Torch := {
  rng_state : Type;
  manual_seed : device -> Z -> option rng_state;
  randn_draw : rng_state -> dtype -> nat -> nat -> R;
  randn_next : rng_state -> dtype -> nat -> rng_state;
  randint_draw : rng_state -> Z -> Z -> nat -> nat -> Z;
  randint_next : rng_state -> Z -> Z -> nat -> rng_state;
  broadcast_data : list Z -> Tensor -> option (list R);
  matmul_general : Tensor -> Tensor -> option Tensor
}.

Module torch.

Definition numel (s : list Z) : nat := Z.to_nat (fold_right Z.mul 1 s).

Definition with_data (t : Tensor) (d : list R) : Tensor :=
  mkTensor (t_shape t) d (t_device t) (t_dtype t).

(** [torch.zeros(size)], on the default device and dtype. *)
Definition zeros (size : list Z) : Tensor :=
  mkTensor size (repeat 0%R (numel size)) cpu float32.

(** [x.to(other)]: [x] on the device and dtype of [other]. *)
Definition to (x other : Tensor) : Tensor :=
  mkTensor (t_shape x) (t_data x) (t_device other) (t_dtype other).

Definition zeros_like (t : Tensor) : Tensor :=
  mkTensor (t_shape t) (repeat 0%R (numel (t_shape t))) (t_device t) (t_dtype t).

(** [t * c], [t / c], [t + c] for a Python float [c], and [t.sqrt()]. *)
Definition mul_scalar (t : Tensor) (c : R) : Tensor :=
  with_data t (map (fun x => x * c)%R (t_data t)).

Definition div_scalar (t : Tensor) (c : R) : Tensor :=
  with_data t (map (fun x => x / c)%R (t_data t)).

Definition add_scalar (t : Tensor) (c : R) : Tensor :=
  with_data t (map (fun x => x + c)%R (t_data t)).

Definition sqrt (t : Tensor) : Tensor :=
  with_data t (map R_sqrt.sqrt (t_data t)).

Section ops.
Context `{Torch}.

(** The entries of [t] as seen by an in-place operation on a tensor
    of shape [s]. *)
Definition expand_to (s : list Z) (t : Tensor) : option (list R) :=
  if decide (t_shape t = s) then Some (t_data t) else broadcast_data s t.

(** [self.add_(other, alpha=alpha)]: [self + alpha * other]. *)
Definition add_ (self other : Tensor) (alpha : R) : option Tensor :=
  match expand_to (t_shape self) other with
  | Some d => Some (with_data self (zip_with (fun x y => x + alpha * y)%R (t_data self) d))
  | None => None
  end.

(** [self.addcmul_(t1, t2, value=value)]: [self + value * t1 * t2]. *)
Definition addcmul_ (self t1 t2 : Tensor) (value : R) : option Tensor :=
  match expand_to (t_shape self) t1, expand_to (t_shape self) t2 with
  | Some d1, Some d2 =>
      Some (with_data self
              (zip_with (fun x y => x + value * y)%R (t_data self)
                 (zip_with Rmult d1 d2)))
  | _, _ => None
  end.

(** [self.addcdiv_(t1, t2, value=value)]: [self + value * t1 / t2]. *)
Definition addcdiv_ (self t1 t2 : Tensor) (value : R) : option Tensor :=
  match expand_to (t_shape self) t1, expand_to (t_shape self) t2 with
  | Some d1, Some d2 =>
      Some (with_data self
              (zip_with (fun x y => x + value * y)%R (t_data self)
                 (zip_with Rdiv d1 d2)))
  | _, _ => None
  end.

(** [self.copy_(src)]. *)
Definition copy_ (self src : Tensor) : option Tensor :=
  match expand_to (t_shape self) src with
  | Some d => Some (with_data self d)
  | None => None
  end.

(** Entry [(i, j)] of a matrix with [cols] columns. *)
Definition mat_get (cols : nat) (d : list R) (i j : nat) : R :=
  nth (i * cols + j) d 0%R.

Definition mat_build (rows cols : nat) (f : nat -> nat -> R) : list R :=
  flat_map (fun i => map (f i) (seq 0 cols)) (seq 0 rows).

Definition dot (k : nat) (f g : nat -> R) : R :=
  fold_right Rplus 0%R (map (fun l => f l * g l)%R (seq 0 k)).

(** [a @ b]. *)
Definition matmul (a b : Tensor) : option Tensor :=
  match t_shape a, t_shape b with
  | [m; k], [k'; n] =>
      if decide (k = k') then
        Some (mkTensor [m; n]
                (mat_build (Z.to_nat m) (Z.to_nat n)
                   (fun i j =>
                      dot (Z.to_nat k)
                        (fun l => mat_get (Z.to_nat k) (t_data a) i l)
                        (fun l => mat_get (Z.to_nat n) (t_data b) l j)))
                (t_device a) (t_dtype a))
      else None
  | _, _ => matmul_general a b
  end.

(** [x.t()]: a matrix is transposed, a vector or scalar is returned
    as it is, anything else raises. *)
Definition t (x : Tensor) : option Tensor :=
  match t_shape x with
  | [] | [_] => Some x
  | [m; n] =>
      Some (mkTensor [n; m]
              (mat_build (Z.to_nat n) (Z.to_nat m)
                 (fun i j => mat_get (Z.to_nat n) (t_data x) j i))
              (t_device x) (t_dtype x))
  | _ => None
  end.

End ops.
End torch.

(** ** The store and the monad of statements *)

Inductive exn :=
| KeyError (key : string)
| IndexError
| TypeError
| ValueError
| ZeroDivisionError
| OverflowError
| RuntimeError.

(** A parameter: a tensor object with its [grad] and [requires_grad]. *)
Record param := mkParam {
  p_data : Tensor;
  p_grad : option Tensor;
  p_requires_grad : bool
}.

(** The per-parameter state dict, with its keys ['step'], ['seed'],
    ['exp_avg'] and ['exp_avg_sq']; [None] is an absent key. *)
Record pstate := mkPState {
  st_step : option Z;
  st_seed : option Z;
  st_exp_avg : option Tensor;
  st_exp_avg_sq : option Tensor
}.

Definition empty_dict : pstate := mkPState None None None None.

(** [bool(state)] is false exactly for the empty dict. *)
Definition dict_nonempty (st : pstate) : bool :=
  bool_decide (is_Some (st_step st)) || bool_decide (is_Some (st_seed st)) ||
  bool_decide (is_Some (st_exp_avg st)) || bool_decide (is_Some (st_exp_avg_sq st)).

Definition set_step (v : Z) (st : pstate) : pstate :=
  mkPState (Some v) (st_seed st) (st_exp_avg st) (st_exp_avg_sq st).
Definition set_seed (v : Z) (st : pstate) : pstate :=
  mkPState (st_step st) (Some v) (st_exp_avg st) (st_exp_avg_sq st).
Definition set_exp_avg (v : Tensor) (st : pstate) : pstate :=
  mkPState (st_step st) (st_seed st) (Some v) (st_exp_avg_sq st).
Definition set_exp_avg_sq (v : Tensor) (st : pstate) : pstate :=
  mkPState (st_step st) (st_seed st) (st_exp_avg st) (Some v).

Section FloraAdam.
Context `{Torch}.

(** Everything a statement can read or write: the parameter objects,
    the optimizer's [state] and [param_groups], and the state of
    torch's default (global) generator. *)
Record store := mkStore {
  heap : handle -> param;
  opt_state : gmap handle pstate;
  param_groups : list group;
  ambient_rng : rng_state
}.

Inductive outcome (A : Type) :=
| Ok (a : A) (s : store)
| Raise (e : exn) (s : store).
Arguments Ok {A} a s.
Arguments Raise {A} e s.

Definition final {A} (o : outcome A) : store :=
  match o with Ok _ s => s | Raise _ s => s end.

Definition M (A : Type) : Type := store -> outcome A.

Definition ret {A} (a : A) : M A := fun s => Ok a s.
Definition raise {A} (e : exn) : M A := fun s => Raise e s.
Definition bind {A B} (c : M A) (k : A -> M B) : M B :=
  fun s => match c s with
           | Ok a s' => k a s'
           | Raise e s' => Raise e s'
           end.

Notation "'let*' x ':=' c 'in' k" := (bind c (fun x => k))
  (at level 10, x pattern, c at level 100, k at level 200, only parsing).

(** An operation of torch that either returns or raises [e]. *)
Definition lift {A} (e : exn) (o : option A) : M A :=
  match o with Some a => ret a | None => raise e end.

Fixpoint for_each {A} (l : list A) (body : A -> M unit) : M unit :=
  match l with
  | [] => ret tt
  | x :: l' => let* _ := body x in for_each l' body
  end.

(** The state dict of [p] as the code sees it, and the store with that
    dict or the data of [p] replaced. *)
Definition pst (s : store) (p : handle) : pstate := default empty_dict (opt_state s !! p).

Definition with_state (p : handle) (st : pstate) (s : store) : store :=
  mkStore (heap s) (<[p := st]> (opt_state s)) (param_groups s) (ambient_rng s).

Definition with_param_data (p : handle) (v : Tensor) (s : store) : store :=
  mkStore (<[p := mkParam v (p_grad (heap s p)) (p_requires_grad (heap s p))]> (heap s))
    (opt_state s) (param_groups s) (ambient_rng s).

Definition get_param (p : handle) : M param := fun s => Ok (heap s p) s.

Definition set_data (p : handle) (v : Tensor) : M unit :=
  fun s =>
    let prm := heap s p in
    Ok tt (mkStore (<[p := mkParam v (p_grad prm) (p_requires_grad prm)]> (heap s))
             (opt_state s) (param_groups s) (ambient_rng s)).

(** [self.state[p]]: a [defaultdict] lookup, which inserts an empty
    dict for a parameter it has not seen. *)
Definition self_state (p : handle) : M pstate :=
  fun s =>
    match opt_state s !! p with
    | Some st => Ok st s
    | None =>
        Ok empty_dict
          (mkStore (heap s) (<[p := empty_dict]> (opt_state s)) (param_groups s)
             (ambient_rng s))
    end.

(** [state[key] = v] and [state[key]] on the dict of parameter [p]. *)
Definition state_set (p : handle) (upd : pstate -> pstate) : M unit :=
  let* st := self_state p in
  fun s =>
    Ok tt (mkStore (heap s) (<[p := upd st]> (opt_state s)) (param_groups s)
             (ambient_rng s)).

Definition state_get {A} (p : handle) (key : string) (field : pstate -> option A) : M A :=
  let* st := self_state p in lift (KeyError key) (field st).

(** [s[i]] on a tuple, with Python's negative indices. *)
Definition py_index (s : list Z) (i : Z) : M Z :=
  let n := Z.of_nat (length s) in
  let j := if i <? 0 then i + n else i in
  if (0 <=? j) && (j <? n) then lift IndexError (s !! Z.to_nat j) else raise IndexError.

(** ** Randomness *)

(** [torch.randn(shape, generator=g, device=dev, dtype=dt)]. With a
    generator the draw comes from it; without one it comes from the
    default generator, which is advanced. *)
Definition torch_randn (shape : list Z) (generator : option rng_state)
    (dev : device) (dt : dtype) : M Tensor :=
  if forallb (Z.leb 0) shape then
    let n := torch.numel shape in
    match generator with
    | Some g => ret (mkTensor shape (map (randn_draw g dt n) (seq 0 n)) dev dt)
    | None =>
        fun s =>
          Ok (mkTensor shape (map (randn_draw (ambient_rng s) dt n) (seq 0 n)) dev dt)
            (mkStore (heap s) (opt_state s) (param_groups s)
               (randn_next (ambient_rng s) dt n))
    end
  else raise RuntimeError.

(** [torch.randint(low, high, (n,), generator=g).tolist()]. *)
Definition torch_randint (low high : Z) (n : nat) (generator : option rng_state)
    : M (list Z) :=
  match generator with
  | Some g => ret (map (randint_draw g low high n) (seq 0 n))
  | None =>
      fun s =>
        Ok (map (randint_draw (ambient_rng s) low high n) (seq 0 n))
          (mkStore (heap s) (opt_state s) (param_groups s)
             (randint_next (ambient_rng s) low high n))
  end.

Definition int64_max : Z := 2 ^ 63 - 1.

Definition stable_randn (shape : list Z) (seed : Z) (dev : option device)
    (dt : dtype) : M Tensor :=
  let device := match dev with None => cpu | Some d => d end in
  let* generator := lift RuntimeError (manual_seed device seed) in
  let* rn := torch_randn shape (Some generator) device dt in
  ret rn.

Definition next_seed (seed : Z) (adv : nat) : M Z :=
  let* generator := lift RuntimeError (manual_seed cpu seed) in
  let* l := torch_randint 0 int64_max adv (Some generator) in
  lift IndexError (last l).

Definition split_seed (seed : Z) : M (list Z) :=
  let* generator := lift RuntimeError (manual_seed cpu seed) in
  torch_randint 0 int64_max 2 (Some generator).

(** [math.sqrt] of an int. *)
Definition math_sqrt (x : Z) : M R :=
  if x <? 0 then raise ValueError else ret (R_sqrt.sqrt (IZR x)).

(** ** Projections *)

(** [lseed, rseed = split_seed(seed)]. *)
Definition unpack2 (l : list Z) : M (Z * Z) :=
  match l with
  | [a; b] => ret (a, b)
  | _ => raise ValueError
  end.

Definition _down_proj (seed rank : Z) (tensor : Tensor) : M Tensor :=
  let* (lseed, rseed) := (let* l := split_seed seed in unpack2 l) in
  let* s0 := py_index (t_shape tensor) 0 in
  let* sl := py_index (t_shape tensor) (-1) in
  if s0 <? sl then
    let* rn := stable_randn [rank; s0] lseed (Some (t_device tensor)) (t_dtype tensor) in
    let* sq := math_sqrt rank in
    let left_projection := torch.div_scalar rn sq in
    lift RuntimeError (torch.matmul left_projection tensor)
  else
    let* rn := stable_randn [sl; rank] rseed (Some (t_device tensor)) (t_dtype tensor) in
    let* sq := math_sqrt rank in
    let right_projection := torch.div_scalar rn sq in
    lift RuntimeError (torch.matmul tensor right_projection).

Definition _up_proj (seed rank : Z) (shape : list Z) (ctensor : Tensor) : M Tensor :=
  let* (lseed, rseed) := (let* l := split_seed seed in unpack2 l) in
  let* s0 := py_index shape 0 in
  let* sl := py_index shape (-1) in
  if s0 <? sl then
    let* rn := stable_randn [rank; s0] lseed (Some (t_device ctensor)) (t_dtype ctensor) in
    let* sq := math_sqrt rank in
    let left_projection := torch.div_scalar rn sq in
    let* left_t := lift RuntimeError (torch.t left_projection) in
    lift RuntimeError (torch.matmul left_t ctensor)
  else
    let* rn := stable_randn [sl; rank] rseed (Some (t_device ctensor)) (t_dtype ctensor) in
    let* sq := math_sqrt rank in
    let right_projection := torch.div_scalar rn sq in
    let* right_t := lift RuntimeError (torch.t right_projection) in
    lift RuntimeError (torch.matmul ctensor right_t).

(** ** The update of one parameter

    The body of the inner loop of [FloraAdam.step], for parameter [p]
    of [group]. [lr], the betas and [eps] are read from the group dict
    once per group in the source; the reads have no effect, so they
    are made here. Each in-place tensor operation is written through
    to the state dict or the parameter it acts on. *)

Definition default_adv : nat := 15.

Definition torch_zeros (size : list Z) : M Tensor :=
  if forallb (Z.leb 0) size then ret (torch.zeros size) else raise RuntimeError.

Definition init_state (group : group) (p : handle) (grad : Tensor)
    (should_compress : bool) : M unit :=
  let grad_shape := t_shape grad in
  let* _ := state_set p (set_step 0) in
  let* prm := get_param p in
  if should_compress then
    let* s0 := py_index grad_shape 0 in
    let* sl := py_index grad_shape (-1) in
    let* rank := lift TypeError (g_rank group) in
    let cshape := if s0 <? sl then [rank; sl] else [s0; rank] in
    let* z := torch_zeros cshape in
    let* _ := state_set p (set_exp_avg (torch.to z grad)) in
    state_set p (set_exp_avg_sq (torch.zeros_like (p_data prm)))
  else
    let* _ := state_set p (set_exp_avg (torch.zeros_like (p_data prm))) in
    state_set p (set_exp_avg_sq (torch.zeros_like (p_data prm))).

(** [exp_avg.mul_(beta1).add_(g, alpha=1 - beta1)] on the state of
    [p]; returns the updated tensor. *)
Definition update_exp_avg (p : handle) (exp_avg g : Tensor) (beta1 : R) : M Tensor :=
  let scaled := torch.mul_scalar exp_avg beta1 in
  let* _ := state_set p (set_exp_avg scaled) in
  let* r := lift RuntimeError (torch.add_ scaled g (1 - beta1)) in
  let* _ := state_set p (set_exp_avg r) in
  ret r.

(** [exp_avg_sq.mul_(beta2).addcmul_(grad, grad, value=1 - beta2)]. *)
Definition update_exp_avg_sq (p : handle) (exp_avg_sq grad : Tensor) (beta2 : R)
    : M Tensor :=
  let scaled := torch.mul_scalar exp_avg_sq beta2 in
  let* _ := state_set p (set_exp_avg_sq scaled) in
  let* r := lift RuntimeError (torch.addcmul_ scaled grad grad (1 - beta2)) in
  let* _ := state_set p (set_exp_avg_sq r) in
  ret r.

(** [p.addcdiv_(num, denom, value=-lr)]; [-lr] is evaluated after
    the other two arguments. *)
Definition param_addcdiv (p : handle) (num denom : Tensor) (lr : option R) : M unit :=
  let* neg_lr := lift TypeError (option_map Ropp lr) in
  let* prm := get_param p in
  let* r := lift RuntimeError (torch.addcdiv_ (p_data prm) num denom neg_lr) in
  set_data p r.

(** "Time for a new seed". *)
Definition rotate (group : group) (p : handle) (grad_shape : list Z)
    (rank _current_seed : Z) : M unit :=
  let* step := state_get p "step" st_step in
  if g_kappa group =? 0 then raise ZeroDivisionError
  else if step mod g_kappa group =? 0 then
    let* seed := state_get p "seed" st_seed in
    let* _next_seed := next_seed seed default_adv in
    let* target := state_get p "exp_avg" st_exp_avg in
    let* ctensor := state_get p "exp_avg" st_exp_avg in
    let* full := _up_proj _current_seed rank grad_shape ctensor in
    let* down := _down_proj _next_seed rank full in
    let* r := lift RuntimeError (torch.copy_ target down) in
    let* _ := state_set p (set_exp_avg r) in
    state_set p (set_seed _next_seed)
  else ret tt.

Definition compressed_update (group : group) (p : handle) (grad exp_avg exp_avg_sq : Tensor)
    (t : Z) : M unit :=
  let lr := g_lr group in
  let beta1 := fst (g_betas group) in
  let beta2 := snd (g_betas group) in
  let eps := g_eps group in
  let grad_shape := t_shape grad in
  let* _current_seed := state_get p "seed" st_seed in
  let* rank := lift TypeError (g_rank group) in
  let* cgrad := _down_proj _current_seed rank grad in
  let* exp_avg := update_exp_avg p exp_avg cgrad beta1 in
  let* exp_avg_sq := update_exp_avg_sq p exp_avg_sq grad beta2 in
  let bias_correction1 := (1 - powerRZ beta1 t)%R in
  let bias_correction2 := (1 - powerRZ beta2 t)%R in
  let corrected_avg := torch.div_scalar exp_avg bias_correction1 in
  let corrected_avg_sq := torch.div_scalar exp_avg_sq bias_correction2 in
  let denom := torch.add_scalar (torch.sqrt corrected_avg_sq) eps in
  let* update := _up_proj _current_seed rank grad_shape corrected_avg in
  let* _ := param_addcdiv p update denom lr in
  rotate group p grad_shape rank _current_seed.

Definition full_update (group : group) (p : handle) (grad exp_avg exp_avg_sq : Tensor)
    (t : Z) : M unit :=
  let lr := g_lr group in
  let beta1 := fst (g_betas group) in
  let beta2 := snd (g_betas group) in
  let eps := g_eps group in
  let* exp_avg := update_exp_avg p exp_avg grad beta1 in
  let* exp_avg_sq := update_exp_avg_sq p exp_avg_sq grad beta2 in
  let bias_correction1 := (1 - powerRZ beta1 t)%R in
  let bias_correction2 := (1 - powerRZ beta2 t)%R in
  let corrected_avg := torch.div_scalar exp_avg bias_correction1 in
  let corrected_avg_sq := torch.div_scalar exp_avg_sq bias_correction2 in
  let denom := torch.add_scalar (torch.sqrt corrected_avg_sq) eps in
  param_addcdiv p corrected_avg denom lr.

(** The statements from [state = self.state[p]] to the end of the loop
    body, as a function of the local variable [should_compress]. *)
Definition update_param (should_compress : bool) (group : group) (p : handle)
    (grad : Tensor) : M unit :=
  let* state := self_state p in
  let* _ :=
    (if (dict_nonempty state && negb (bool_decide (is_Some (st_step state))))
        || negb (dict_nonempty state)
     then init_state group p grad should_compress
     else ret tt) in
  let* exp_avg := state_get p "exp_avg" st_exp_avg in
  let* exp_avg_sq := state_get p "exp_avg_sq" st_exp_avg_sq in
  let* step := state_get p "step" st_step in
  let* _ := state_set p (set_step (step + 1)) in
  let* t := state_get p "step" st_step in
  if should_compress
  then compressed_update group p grad exp_avg exp_avg_sq t
  else full_update group p grad exp_avg exp_avg_sq t.

Definition step_param (group : group) (p : handle) : M unit :=
  let* prm := get_param p in
  match p_grad prm with
  | None => ret tt
  | Some grad =>
      let grad_shape := t_shape grad in
      let should_compress := _should_compress group grad_shape in
      update_param should_compress group p grad
  end.

Definition get_param_groups : M (list group) := fun s => Ok (param_groups s) s.

(** [FloraAdam.step]. The closure, when given, runs first and its
    result is the value returned. *)
Definition step (closure : option (M R)) : M (option R) :=
  let* loss :=
    match closure with
    | None => ret None
    | Some c => let* l := c in ret (Some l)
    end in
  let* groups := get_param_groups in
  let* _ := for_each groups (fun group => for_each (g_params group) (step_param group)) in
  ret loss.

(** ** Construction *)

(** A parameter group as passed to the constructor: its parameters and
    the options it overrides. *)
Record group_input := mkGroupInput {
  gi_params : list handle;
  gi_lr : option (option R);
  gi_betas : option (R * R);
  gi_eps : option R;
  gi_rank : option (option Z);
  gi_kappa : option Z
}.

Inductive params_arg :=
| Tensors (l : list handle)
| Groups (l : list group_input).

(** [param_group.setdefault(name, default)] for each default. *)
Definition with_defaults (defaults : group) (gi : group_input) : group :=
  mkGroup (gi_params gi)
    (default (g_lr defaults) (gi_lr gi))
    (default (g_betas defaults) (gi_betas gi))
    (default (g_eps defaults) (gi_eps gi))
    (default (g_rank defaults) (gi_rank gi))
    (default (g_kappa defaults) (gi_kappa gi)).

(** [Optimizer.add_param_group]: a parameter already held by another
    group is refused. *)
Definition add_param_group (defaults : group) (gi : group_input) : M unit :=
  fun s =>
    let param_set := all_params (param_groups s) in
    if existsb (fun p => bool_decide (p ∈ param_set)) (gi_params gi)
    then Raise ValueError s
    else Ok tt (mkStore (heap s) (opt_state s)
                  (param_groups s ++ [with_defaults defaults gi]) (ambient_rng s)).

(** [torch.optim.Optimizer.__init__(params, defaults)], as torch
    documents it: it starts from an empty state and no groups, refuses
    an empty parameter list, and adds the groups one by one. *)
Definition Optimizer_init (params : params_arg) (defaults : group) : M unit :=
  let* _ := (fun s => Ok tt (mkStore (heap s) ∅ [] (ambient_rng s))) in
  let* gis :=
    match params with
    | Tensors [] | Groups [] => raise ValueError
    | Tensors l => ret [mkGroupInput l None None None None None]
    | Groups l => ret l
    end in
  for_each gis (add_param_group defaults).

(** The two loops that hand out the seeds; [params_idx] is threaded
    through them. *)
Fixpoint seed_params (ps : list handle) (params_idx : Z) : M Z :=
  match ps with
  | [] => ret params_idx
  | p :: ps' =>
      let params_idx := params_idx + 1 in
      let* prm := get_param p in
      let* _ := (if p_requires_grad prm then state_set p (set_seed params_idx) else ret tt) in
      seed_params ps' params_idx
  end.

Fixpoint seed_groups (gs : list group) (params_idx : Z) : M Z :=
  match gs with
  | [] => ret params_idx
  | g :: gs' =>
      let* params_idx := seed_params (g_params g) params_idx in
      seed_groups gs' params_idx
  end.

(** [FloraAdam.__init__]. *)
Definition FloraAdam_init (params : params_arg) (lr : option R) (betas : R * R)
    (eps : R) (rank : option Z) (kappa : Z) (seed : Z) : M unit :=
  let defaults := mkGroup [] lr betas eps rank kappa in
  let* _ := Optimizer_init params defaults in
  let params_idx := seed in
  let* groups := get_param_groups in
  let* _ := seed_groups groups params_idx in
  ret tt.

(** ** Notions the properties are stated with *)

(** *** Statements *)

(** [wp c Q E s]: run from [s], the statement [c] either returns a
    value and a store that satisfy [Q] or raises an exception with a
    store that satisfy [E]. *)
Definition wp {A} (c : M A) (Q : A -> store -> Prop) (E : exn -> store -> Prop)
    (s : store) : Prop :=
  match c s with
  | Ok a s' => Q a s'
  | Raise e s' => E e s'
  end.

(** A statement that neither reads nor writes the store. *)
Definition stateless {A} (c : M A) : Prop :=
  exists r : exn + A, forall s, c s = match r with inl e => Raise e s | inr a => Ok a s end.

(** A statement whose every outcome is related to the store it started
    from. *)
Definition keeps (R : store -> store -> Prop) {A} (c : M A) : Prop :=
  forall s, R s (final (c s)).

(** A statement that never raises [KeyError('seed')]. *)
Definition raises_other {A} (c : M A) : Prop :=
  forall s e s', c s = Raise e s' -> e <> KeyError "seed".

Definition is_ok {A} (o : outcome A) : bool :=
  match o with Ok _ _ => true | Raise _ _ => false end.

(** *** Relations between stores *)

(** Outside parameter [p] nothing changes, and of [p] only the data and
    the state dict may. *)
Record frame (p : handle) (s s' : store) : Prop := mkFrame {
  frame_heap : forall q, q <> p -> heap s' q = heap s q;
  frame_state : forall q, q <> p -> opt_state s' !! q = opt_state s !! q;
  frame_grad : p_grad (heap s' p) = p_grad (heap s p);
  frame_requires_grad : p_requires_grad (heap s' p) = p_requires_grad (heap s p);
  frame_groups : param_groups s' = param_groups s;
  frame_rng : ambient_rng s' = ambient_rng s
}.

(** Gradients stay as they are, and a parameter without one is left
    alone entirely. *)
Record skips (s s' : store) : Prop := mkSkips {
  skips_grad : forall q, p_grad (heap s' q) = p_grad (heap s q);
  skips_null : forall q, p_grad (heap s q) = None ->
    heap s' q = heap s q /\ opt_state s' !! q = opt_state s !! q;
  skips_groups : param_groups s' = param_groups s
}.

(** A relation between the state dict of [p] before and after. *)
Definition on_state (P : pstate -> pstate -> Prop) (p : handle) (s s' : store) : Prop :=
  P (pst s p) (pst s' p).

(** The parts of the state dict a statement may leave alone: the step
    counter, the seed, both, or the shape of the first moment. *)
Definition same_step (a b : pstate) : Prop := st_step b = st_step a.
Definition same_seed (a b : pstate) : Prop := st_seed b = st_seed a.

Definition same_step_seed (a b : pstate) : Prop :=
  st_step b = st_step a /\ st_seed b = st_seed a.

Definition same_exp_avg_shape (a b : pstate) : Prop :=
  t_shape <$> st_exp_avg b = t_shape <$> st_exp_avg a.

(** *** The step and its updates *)

(** The step counter of [p]; a state without ['step'] counts as 0. *)
Definition step_count (s : store) (p : handle) : Z := default 0 (st_step (pst s p)).

(** What [step] has when its loops start: the store the closure left
    and the loss it returned. *)
Definition closure_result (closure : option (M R)) (s : store) : outcome (option R) :=
  match closure with
  | None => Ok None s
  | Some c => match c s with Ok l s1 => Ok (Some l) s1 | Raise e s1 => Raise e s1 end
  end.

(** The two loops of [step]. *)
Definition update_loop (gs : list group) : M unit :=
  for_each gs (fun group => for_each (g_params group) (step_param group)).

(** The branch an update takes once its state is prepared. *)
Definition branch (m : bool) (g : group) (p : handle) (grad ea eas : Tensor) (t : Z)
    : M unit :=
  if m then compressed_update g p grad ea eas t else full_update g p grad ea eas t.

(** [p.grad = grad], as the backward pass does between two calls. *)
Definition set_grad (p : handle) (grad : Tensor) : M unit :=
  fun s =>
    Ok tt (mkStore
             (<[p := mkParam (p_data (heap s p)) (Some grad) (p_requires_grad (heap s p))]>
                (heap s))
             (opt_state s) (param_groups s) (ambient_rng s)).

(** A sequence of updates of [p], one for each gradient of the list. *)
Fixpoint run_updates (g : group) (p : handle) (grads : list Tensor) : M unit :=
  match grads with
  | [] => ret tt
  | grad :: rest =>
      bind (set_grad p grad) (fun _ => bind (step_param g p) (fun _ => run_updates g p rest))
  end.

(** [rotations n a b]: [b] is [next_seed] applied [n] times to [a]. *)
Inductive rotations : nat -> Z -> Z -> Prop :=
| rotations_0 a : rotations 0 a a
| rotations_S n a b c :
    (forall s, next_seed a default_adv s = Ok b s) -> rotations n b c ->
    rotations (S n) a c.

(** *** Construction *)

Definition group_inputs (params : params_arg) : list group_input :=
  match params with
  | Tensors l => [mkGroupInput l None None None None None]
  | Groups l => l
  end.

(** No group names a parameter that an earlier group (or [seen])
    holds. *)
Fixpoint groups_disjoint (seen : list handle) (gis : list group_input) : bool :=
  match gis with
  | [] => true
  | gi :: rest =>
      negb (existsb (fun p => bool_decide (p ∈ seen)) (gi_params gi))
      && groups_disjoint (seen ++ gi_params gi) rest
  end.

(** The parameter lists the base class accepts. *)
Definition params_accepted (params : params_arg) : bool :=
  match params with
  | Tensors [] | Groups [] => false
  | _ => groups_disjoint [] (group_inputs params)
  end.

(** What the seeding loops leave behind. *)
Record seeded (ps : list handle) (idx : Z) (s s' : store) : Prop := mkSeeded {
  seeded_heap : heap s' = heap s;
  seeded_groups : param_groups s' = param_groups s;
  seeded_rng : ambient_rng s' = ambient_rng s;
  seeded_other : forall p, p ∉ ps \/ p_requires_grad (heap s p) = false ->
    opt_state s' !! p = opt_state s !! p;
  seeded_last : forall i p, ps !! i = Some p -> p ∉ drop (S i) ps ->
    p_requires_grad (heap s p) = true ->
    st_seed (pst s' p) = Some (idx + Z.of_nat i + 1)
}.

(** The configurations the specification wants refused: a rank that is
    set and not positive, a kappa that is not positive, no [lr] or one
    that is not positive, a beta outside [0, 1). *)
Definition invalid_config (lr : option R) (betas : R * R) (rank : option Z) (kappa : Z)
    : Prop :=
  (exists r, rank = Some r /\ r <= 0) \/ kappa <= 0 \/
  lr = None \/ (exists l, lr = Some l /\ (l <= 0)%R) \/
  ~ (0 <= fst betas < 1)%R \/ ~ (0 <= snd betas < 1)%R.

(** *** Standard Adam *)

(** Standard Adam on one entry: the moving averages, and the parameter
    after the bias-corrected step. *)
Definition adam_exp_avg (beta1 m g : R) : R := (beta1 * m + (1 - beta1) * g)%R.

Definition adam_exp_avg_sq (beta2 v g : R) : R := (beta2 * v + (1 - beta2) * (g * g))%R.

Definition adam_param (lr beta1 beta2 eps : R) (t : Z) (x m v : R) : R :=
  let corrected_avg := (m / (1 - powerRZ beta1 t))%R in
  let corrected_avg_sq := (v / (1 - powerRZ beta2 t))%R in
  (x - lr * corrected_avg / (R_sqrt.sqrt corrected_avg_sq + eps))%R.

(** Standard Adam on the entries of a parameter [x] with moments [m]
    and [v] and gradient [g], at step [t]: the new parameter and the
    new moments. *)
Definition adam_step (lr beta1 beta2 eps : R) (t : Z) (x m v g : list R)
    : list R * list R * list R :=
  let m' := zip_with (adam_exp_avg beta1) m g in
  let v' := zip_with (adam_exp_avg_sq beta2) v g in
  (zip_with (fun x mv => adam_param lr beta1 beta2 eps t x (fst mv) (snd mv)) x (zip m' v'),
   m', v').

(** The moments an update starts from: zero at step 0 for a state not
    yet initialised. *)
Definition moments (s : store) (p : handle) : option (Z * Tensor * Tensor) :=
  match st_step (pst s p) with
  | None =>
      let z := torch.zeros_like (p_data (heap s p)) in Some (0, z, z)
  | Some n =>
      match st_exp_avg (pst s p), st_exp_avg_sq (pst s p) with
      | Some m, Some v => Some (n, m, v)
      | _, _ => None
      end
  end.

(** *** Projections and compressed parameters *)

(** The matrix of a projection: [rows * cols] standard normal draws of
    the generator [g], each divided by [sqrt(rank)]. *)
Definition projection_matrix (g : rng_state) (rows cols rank : Z) (dev : device)
    (dt : dtype) : Tensor :=
  let n := torch.numel [rows; cols] in
  mkTensor [rows; cols]
    (map (fun k => randn_draw g dt n k / R_sqrt.sqrt (IZR rank))%R (seq 0 n)) dev dt.

(** The shape of the compressed first moment for a gradient of shape
    [(a, b)]. *)
Definition cshape (rank a b : Z) : list Z := if a <? b then [rank; b] else [a; rank].

(** A seed that [manual_seed] takes. *)
Definition seed_ok (seed : Z) : Prop := - 2 ^ 63 <= seed < 2 ^ 64.

(** What torch guarantees of its generators: a seed within
    [-2^63, 2^64) is accepted, and [randint] draws within
    [low, high). *)
Record torch_laws : Prop := mkTorchLaws {
  manual_seed_accepts : forall dev seed, seed_ok seed -> is_Some (manual_seed dev seed);
  randint_in_range : forall g low high n k,
    low < high -> low <= randint_draw g low high n k < high
}.

(** A parameter of shape [(a, b)] on which a compressed update of
    group [g] can run: the policy accepts the shape, [lr] is set and
    [kappa] is not 0, the parameter has a seed a generator accepts, and
    its state is either not initialised or holds moments of the
    compressed and of the full shape. *)
Record ready (g : group) (p : handle) (a b rank : Z) (s : store) : Prop := mkReady {
  ready_rank : g_rank g = Some rank;
  ready_policy : _should_compress g [a; b] = true;
  ready_lr : is_Some (g_lr g);
  ready_kappa : g_kappa g <> 0;
  ready_data : t_shape (p_data (heap s p)) = [a; b];
  ready_seed : exists sd, st_seed (pst s p) = Some sd /\ seed_ok sd;
  ready_moments :
    st_step (pst s p) = None \/
    exists n ea eas,
      st_step (pst s p) = Some n /\
      st_exp_avg (pst s p) = Some ea /\ t_shape ea = cshape rank a b /\
      st_exp_avg_sq (pst s p) = Some eas /\ t_shape eas = [a; b]
}.

(** *** The policy, operation by operation *)

(** Python's [min], [max] and [/] as the policy calls them, with the
    exceptions they raise: [ValueError] on an empty tuple,
    [ZeroDivisionError] on a zero divisor, [OverflowError] when the
    quotient of the two ints is too large for a float. *)
Definition py_min (s : list Z) : M Z := lift ValueError (tuple_min s).

Definition py_max (s : list Z) : M Z := lift ValueError (tuple_max s).

(** The least magnitude that does not round to a double: the midpoint
    of the largest double, [2^1024 - 2^971], and [2^1024]. *)
Definition float_limit : Z := 2 ^ 1024 - 2 ^ 970.

(** [a / b] is too large for a float: [|a / b| >= float_limit]. *)
Definition float_overflow (a b : Z) : bool := float_limit * Z.abs b <=? Z.abs a.

Definition py_true_div (a b : Z) : M Q :=
  if b =? 0 then raise ZeroDivisionError
  else if float_overflow a b then raise OverflowError
  else ret (true_div a b).

(** A shape a tensor can have: no dimension is negative, and the
    dimensions and the number of entries fit a signed 64-bit
    integer. *)
Definition tensor_size (shape : list Z) : Prop :=
  Forall (fun d => 0 <= d < 2 ^ 63) shape /\ fold_right Z.mul 1 shape < 2 ^ 63.

(** [FloraAdam._should_compress] with its [and] chain evaluated from
    left to right, each operand only when those before it are true. *)
Definition should_compress_eval (param_group : group) (param_shape : list Z) : M bool :=
  let factored := Nat.eqb (length param_shape) 2 in
  match g_rank param_group with
  | None => ret false
  | Some rank =>
      if negb (0 <? rank) then ret false
      else if negb factored then ret false
      else
        let* mn := py_min param_shape in
        if negb (rank <=? mn) then ret false
        else
          let* mx := py_max param_shape in
          let* mn := py_min param_shape in
          let* q := py_true_div mx mn in
          ret (Qle_bool q 4)
  end.

(** *** What a step leaves alone *)

(** The default generator, the parameter groups, and of every
    parameter its gradient, its [requires_grad] flag and the shape,
    device and dtype of its data. *)
Record untouched (s s' : store) : Prop := mkUntouched {
  untouched_rng : ambient_rng s' = ambient_rng s;
  untouched_groups : param_groups s' = param_groups s;
  untouched_grad : forall q, p_grad (heap s' q) = p_grad (heap s q);
  untouched_requires_grad :
    forall q, p_requires_grad (heap s' q) = p_requires_grad (heap s q);
  untouched_shape : forall q, t_shape (p_data (heap s' q)) = t_shape (p_data (heap s q));
  untouched_device : forall q, t_device (p_data (heap s' q)) = t_device (p_data (heap s q));
  untouched_dtype : forall q, t_dtype (p_data (heap s' q)) = t_dtype (p_data (heap s q))
}.

(** *** Updates that cannot complete *)

(** A statement that returns from no store. *)
Definition never_returns {A} (c : M A) : Prop := forall s a s', c s <> Ok a s'.

(** [group] with another [kappa]. *)
Definition with_kappa (kappa : Z) (g : group) : group :=
  mkGroup (g_params g) (g_lr g) (g_betas g) (g_eps g) (g_rank g) kappa.

(** The parameter objects are as they were: data, gradient and flag. *)
Definition same_heap (s s' : store) : Prop := heap s' = heap s.

(** *** The compressed step *)

(** The entry [x] of a parameter after a compressed step: it moves
    against [u], the entry of the up-projected, bias-corrected first
    moment, divided as in Adam by the root of the bias-corrected second
    moment [v] plus [eps]. *)
Definition flora_param (lr beta2 eps : R) (t : Z) (x u v : R) : R :=
  (x - lr * u / (R_sqrt.sqrt (v / (1 - powerRZ beta2 t)) + eps))%R.

(** The moments a compressed update of a gradient of shape [(a, b)]
    starts from: for a state not yet initialised, zeros of the
    compressed shape on the device of the gradient and zeros like the
    parameter, at step 0. *)
Definition compressed_moments (s : store) (p : handle) (rank a b : Z) (grad : Tensor)
    : option (Z * Tensor * Tensor) :=
  match st_step (pst s p) with
  | None =>
      Some (0, torch.to (torch.zeros (cshape rank a b)) grad,
            torch.zeros_like (p_data (heap s p)))
  | Some n =>
      match st_exp_avg (pst s p), st_exp_avg_sq (pst s p) with
      | Some m, Some v => Some (n, m, v)
      | _, _ => None
      end
  end.

(** The moving averages of the two moments, entry by entry. *)
Definition ema_exp_avg (beta1 : R) (ea g : Tensor) : Tensor :=
  torch.with_data ea (zip_with (adam_exp_avg beta1) (t_data ea) (t_data g)).

Definition ema_exp_avg_sq (beta2 : R) (eas g : Tensor) : Tensor :=
  torch.with_data eas (zip_with (adam_exp_avg_sq beta2) (t_data eas) (t_data g)).

(** The store a compressed update leaves when it does not rotate, from
    moments [ea] and [eas] at step [n], with [cgrad] the projected
    gradient and [update] the up-projected corrected first moment. *)
Definition compressed_result (g : group) (p : handle) (grad ea eas cgrad update : Tensor)
    (lr : R) (n sd : Z) (s : store) : store :=
  let ea1 := ema_exp_avg (fst (g_betas g)) ea cgrad in
  let eas1 := ema_exp_avg_sq (snd (g_betas g)) eas grad in
  with_param_data p
    (torch.with_data (p_data (heap s p))
       (zip_with
          (fun x uv => flora_param lr (snd (g_betas g)) (g_eps g) (n + 1) x (fst uv) (snd uv))
          (t_data (p_data (heap s p))) (zip (t_data update) (t_data eas1))))
    (with_state p (mkPState (Some (n + 1)) (Some sd) (Some ea1) (Some eas1)) s).

(** *** The state after construction *)

(** Every state dict of [m] holds a seed in [(lo, hi]] and nothing
    else. *)
Definition only_seeds (lo hi : Z) (m : gmap handle pstate) : Prop :=
  forall p st, m !! p = Some st -> exists k, st = set_seed k empty_dict /\ lo < k <= hi.

(** *** Parameters a step can update *)

(** A parameter on which an update of group [g] on the full path can
    run for the gradient [grad]: the policy refuses the shape, [lr] is
    set, the parameter has the shape of the gradient, and its state is
    either not initialised or holds moments of that shape. *)
Record full_ready (g : group) (p : handle) (grad : Tensor) (s : store) : Prop :=
  mkFullReady {
  full_ready_policy : _should_compress g (t_shape grad) = false;
  full_ready_lr : is_Some (g_lr g);
  full_ready_data : t_shape (p_data (heap s p)) = t_shape grad;
  full_ready_moments :
    st_step (pst s p) = None \/
    exists n ea eas,
      st_step (pst s p) = Some n /\
      st_exp_avg (pst s p) = Some ea /\ t_shape ea = t_shape grad /\
      st_exp_avg_sq (pst s p) = Some eas /\ t_shape eas = t_shape grad
}.

(** A parameter that [step] can handle: it has no gradient, or it is
    ready for the path its gradient takes. *)
Definition updatable (g : group) (p : handle) (s : store) : Prop :=
  match p_grad (heap s p) with
  | None => True
  | Some grad =>
      full_ready g p grad s \/
      exists a b rank, t_shape grad = [a; b] /\ ready g p a b rank s
  end.

(** The pairs of a group and one of its parameters, in the order in
    which [step] visits them. *)
Definition visits (gs : list group) : list (group * handle) :=
  flat_map (fun g => map (pair g) (g_params g)) gs.

(** *** The exceptions of an update *)

(** A statement that raises only exceptions that satisfy [P]. *)
Definition raises_only (P : exn -> Prop) {A} (c : M A) : Prop :=
  forall s e s', c s = Raise e s' -> P e.

(** The errors of torch's own operations. *)
Definition torch_error (e : exn) : Prop := e = RuntimeError \/ e = IndexError.

(** The exceptions an update of group [g] can raise, on the compressed
    path ([m] true) or on the full one: [KeyError] for a moment the
    state lacks or, on the compressed path, for the seed; [TypeError]
    when [lr] is unset; on the compressed path [ZeroDivisionError] when
    [kappa] is 0 and [IndexError]; torch's [RuntimeError]. *)
Definition update_error (m : bool) (g : group) (e : exn) : Prop :=
  match e with
  | KeyError key =>
      (key = "seed"%string /\ m = true) \/ key = "exp_avg"%string \/
      key = "exp_avg_sq"%string
  | TypeError => g_lr g = None
  | ZeroDivisionError => g_kappa g = 0 /\ m = true
  | IndexError => m = true
  | RuntimeError => True
  | ValueError | OverflowError => False
  end.

(** The powers [beta ** t] of a float and an int that Python evaluates
    without raising: the exponent converts to a float and is not
    negative, and the base is at most 1 in magnitude, so that the
    result cannot overflow. Outside these, [OverflowError] (as for
    [2.0 ** 1024]) and [ZeroDivisionError] (as for [0.0 ** -1]) are
    raised, which the total [powerRZ] of the model does not show. *)
Definition float_pow_defined (beta : R) (t : Z) : Prop :=
  (-1 <= beta <= 1)%R /\ 0 <= t < float_limit.

(** The state and the gradient of [p] are such that, in an update by
    group [g], no float operation raises and no generator refuses its
    seed: both powers of the bias corrections are defined at the
    incremented step, the seed of [p], if any, is one a generator
    accepts, and the gradient has the shape of a tensor. *)
Record within_floats (g : group) (p : handle) (s : store) : Prop := mkWithinFloats {
  within_beta1 : float_pow_defined (fst (g_betas g)) (step_count s p + 1);
  within_beta2 : float_pow_defined (snd (g_betas g)) (step_count s p + 1);
  within_seed : forall sd, st_seed (pst s p) = Some sd -> seed_ok sd;
  within_grad : forall grad, p_grad (heap s p) = Some grad -> tensor_size (t_shape grad)
}.

(** *** The first moment in full space *)

(** The first moment Adam holds after the gradients [grads]: the
    moving average started at [z]. *)
Definition first_moment (beta1 : R) (z : Tensor) (grads : list Tensor) : Tensor :=
  fold_left (ema_exp_avg beta1) grads z.

(** A matrix of shape [(a, b)] on device [d] with dtype [dt], holding
    as many entries as its shape says. *)
Definition matrix_like (a b : Z) (d : device) (dt : dtype) (x : Tensor) : Prop :=
  t_shape x = [a; b] /\ t_device x = d /\ t_dtype x = dt /\
  length (t_data x) = torch.numel [a; b].

End FloraAdam.

Arguments Ok {_ _} a s.
Arguments Raise {_ _} e s.

(** ** A small backend

    A concrete [Torch] on which the definitions above run: generators
    are integers stepped by a linear congruence, unequal shapes do not
    broadcast and only matrices multiply. It stands in for torch's
    generators wherever a statement is evaluated on an example. *)

Definition lcg (x : Z) : Z := (x * 6364136223846793005 + 1442695040888963407) mod 2 ^ 64.

Definition lcg_at (g : Z) (k : nat) : Z := Nat.iter (S k) lcg g.

#[global] Instance toy_torch : Torch := {|
  rng_state := Z;
  manual_seed := fun _ seed =>
    if (- 2 ^ 63 <=? seed) && (seed <? 2 ^ 64) then Some (seed mod 2 ^ 64) else None;
  randn_draw := fun g _ _ k => IZR (lcg_at g k mod 7 - 3);
  randn_next := fun g _ n => Nat.iter n lcg g;
  randint_draw := fun g low high _ k => low + lcg_at g k mod (high - low);
  randint_next := fun g _ _ n => Nat.iter n lcg g;
  broadcast_data := fun _ _ => None;
  matmul_general := fun _ _ => None
|}.

(** ** Example data

    Two parameters of shape (4, 2) on the small backend: parameter 1
    has a gradient, parameter 2 has none; both were given a seed. *)

Definition ex_ones (shape : list Z) : Tensor :=
  mkTensor shape (repeat 1%R (torch.numel shape)) cpu float32.

Definition ex_group (rank : option Z) (kappa : Z) : group :=
  mkGroup [1%positive; 2%positive] (Some 1%R) ((1 / 2)%R, (1 / 2)%R) 1%R rank kappa.

Definition ex_heap (p : handle) : param :=
  if decide (p = 1%positive)
  then mkParam (ex_ones [4; 2]) (Some (ex_ones [4; 2])) true
  else mkParam (ex_ones [4; 2]) None (bool_decide (p = 2%positive)).

Definition ex_store : store :=
  mkStore ex_heap
    {[1%positive := set_seed 7 empty_dict; 2%positive := set_seed 8 empty_dict]}
    [ex_group (Some 2) 4] (0 : @rng_state toy_torch).

(** The same store before any seed was handed out. *)
Definition ex_store_unseeded : store :=
  mkStore ex_heap ∅ [ex_group (Some 2) 4] (0 : @rng_state toy_torch).

(** The group of the example with [lr] left unset and no rank. *)
Definition ex_group_no_lr : group :=
  mkGroup [1%positive; 2%positive] None ((1 / 2)%R, (1 / 2)%R) 1%R None 4.

(** The store the constructor leaves for the two parameters, with
    base seed 100. *)
Definition ex_constructed : store :=
  final (FloraAdam_init (Tensors [1%positive; 2%positive]) (Some 1%R)
           ((1 / 2)%R, (1 / 2)%R) 1%R (Some 2) 4 100 ex_store).

(** * Properties *)

(** ** The compression policy *)

Lemma true_div_le_4 (a b : Z) : 0 < b -> Qle_bool (true_div a b) 4 = true <-> a <= 4 * b.
Proof.
  intros Hb. unfold true_div. rewrite Qle_bool_iff.
  unfold Qle, Qdiv, Qmult, Qinv, inject_Z. simpl.
  destruct b as [|p|p]; try lia. simpl. lia.
Qed.

Lemma should_compress_iff (g : group) (shape : list Z) :
  _should_compress g shape = true <->
  exists rank a b, g_rank g = Some rank /\ 0 < rank /\ shape = [a; b] /\
    rank <= Z.min a b /\ (true_div (Z.max a b) (Z.min a b) <= 4)%Q.
Proof.
  unfold _should_compress. split.
  - destruct (g_rank g) as [rank|]; [|discriminate].
    intros H. apply andb_prop in H as [H H3]. apply andb_prop in H as [H1 H2].
    apply Z.ltb_lt in H1. apply Nat.eqb_eq in H2.
    destruct shape as [|a [|b [|c l]]]; try discriminate. simpl in H3.
    apply andb_prop in H3 as [H3 H4]. apply Z.leb_le in H3.
    apply Qle_bool_iff in H4. exists rank, a, b. auto.
  - intros (rank & a & b & -> & H1 & -> & H3 & H4). simpl.
    apply Z.ltb_lt in H1. apply Z.leb_le in H3. apply Qle_bool_iff in H4.
    rewrite H1, H3, H4. reflexivity.
Qed.

(** C1. The policy answers true exactly when the group has a positive
    rank, the shape has two dimensions, the smaller one is at least the
    rank and the quotient of the larger by the smaller is at most 4
    (the larger is at most four times the smaller); for rank 8 it
    refuses (4096, 128), of ratio 32, and accepts (256, 64), of
    ratio 4. *)
Theorem should_compress_policy (g : group) (shape : list Z) :
  (_should_compress g shape = true <->
   exists rank a b,
     g_rank g = Some rank /\ 0 < rank /\ shape = [a; b] /\
     tuple_min shape = Some (Z.min a b) /\ tuple_max shape = Some (Z.max a b) /\
     rank <= Z.min a b /\ (inject_Z (Z.max a b) / inject_Z (Z.min a b) <= 4)%Q /\
     Z.max a b <= 4 * Z.min a b) /\
  (forall ps lr betas eps kappa,
     _should_compress (mkGroup ps lr betas eps (Some 8) kappa) [4096; 128] = false /\
     (true_div 4096 128 == 32)%Q /\
     _should_compress (mkGroup ps lr betas eps (Some 8) kappa) [256; 64] = true /\
     (true_div 256 64 == 4)%Q).
Proof.
  split.
  - rewrite should_compress_iff. split.
    + intros (rank & a & b & Hr & H0 & -> & Hmin & Hq).
      exists rank, a, b. repeat split; try done.
      apply true_div_le_4; [lia|]. by apply Qle_bool_iff.
    + intros (rank & a & b & Hr & H0 & -> & _ & _ & Hmin & Hq & _).
      by exists rank, a, b.
  - intros ps lr betas eps kappa. repeat split.
Qed.

Section Properties.
Context `{Torch}.

Lemma store_eq (s1 s2 : store) :
  heap s1 = heap s2 -> opt_state s1 = opt_state s2 -> param_groups s1 = param_groups s2 ->
  ambient_rng s1 = ambient_rng s2 -> s1 = s2.
Proof. destruct s1, s2; simpl; intros; subst; reflexivity. Qed.

Lemma self_state_eq p s : self_state p s = Ok (pst s p) (with_state p (pst s p) s).
Proof.
  unfold self_state, pst, with_state.
  destruct (opt_state s !! p) as [st|] eqn:E; simpl; [|reflexivity].
  f_equal. apply store_eq; simpl; auto. symmetry. by apply insert_id.
Qed.

Lemma with_state_twice p a b s : with_state p a (with_state p b s) = with_state p a s.
Proof. unfold with_state; simpl. f_equal. apply insert_insert_eq. Qed.

Lemma pst_with_state p st s : pst (with_state p st s) p = st.
Proof. unfold pst, with_state; simpl. by rewrite lookup_insert_eq. Qed.

Lemma pst_with_state_ne p q st s : p <> q -> pst (with_state p st s) q = pst s q.
Proof. intros. unfold pst, with_state; simpl. by rewrite lookup_insert_ne. Qed.

Lemma pst_with_param_data p q v s : pst (with_param_data p v s) q = pst s q.
Proof. reflexivity. Qed.

Lemma state_set_eq p upd s : state_set p upd s = Ok tt (with_state p (upd (pst s p)) s).
Proof.
  unfold state_set, bind. rewrite self_state_eq.
  unfold with_state; simpl. f_equal. f_equal. apply insert_insert_eq.
Qed.

Lemma state_get_eq {A} p key (field : pstate -> option A) s :
  state_get p key field s =
  match field (pst s p) with
  | Some v => Ok v (with_state p (pst s p) s)
  | None => Raise (KeyError key) (with_state p (pst s p) s)
  end.
Proof.
  unfold state_get, bind. rewrite self_state_eq.
  destruct (field (pst s p)); reflexivity.
Qed.

Lemma set_data_eq p v s : set_data p v s = Ok tt (with_param_data p v s).
Proof. reflexivity. Qed.

(** *** Rules for [wp] *)

Lemma wp_ret {A} (a : A) Q E s : Q a s -> wp (ret a) Q E s.
Proof. auto. Qed.

Lemma wp_raise {A} e (Q : A -> store -> Prop) E s : E e s -> wp (raise e) Q E s.
Proof. auto. Qed.

Lemma wp_bind {A B} (c : M A) (k : A -> M B) Q E s :
  wp c (fun a s' => wp (k a) Q E s') E s -> wp (bind c k) Q E s.
Proof. unfold wp, bind. destruct (c s); auto. Qed.

Lemma wp_bind_inv {A B} (c : M A) (k : A -> M B) Q E s :
  wp (bind c k) Q E s -> wp c (fun a s' => wp (k a) Q E s') E s.
Proof. unfold wp, bind. destruct (c s); auto. Qed.

Lemma wp_mono {A} (c : M A) (Q Q' : A -> store -> Prop) (E E' : exn -> store -> Prop) s :
  wp c Q E s -> (forall a s', Q a s' -> Q' a s') -> (forall e s', E e s' -> E' e s') ->
  wp c Q' E' s.
Proof. unfold wp. destruct (c s); auto. Qed.

Lemma wp_lift {A} e (o : option A) Q E s :
  match o with Some a => Q a s | None => E e s end -> wp (lift e o) Q E s.
Proof. destruct o; auto. Qed.

Lemma wp_self_state p Q E s :
  Q (pst s p) (with_state p (pst s p) s) -> wp (self_state p) Q E s.
Proof. unfold wp. by rewrite self_state_eq. Qed.

Lemma wp_state_set p upd Q E s :
  Q tt (with_state p (upd (pst s p)) s) -> wp (state_set p upd) Q E s.
Proof. unfold wp. by rewrite state_set_eq. Qed.

Lemma wp_state_get {A} p key (field : pstate -> option A) Q E s :
  match field (pst s p) with
  | Some v => Q v (with_state p (pst s p) s)
  | None => E (KeyError key) (with_state p (pst s p) s)
  end -> wp (state_get p key field) Q E s.
Proof. unfold wp. rewrite state_get_eq. destruct (field (pst s p)); auto. Qed.

Lemma wp_get_param p Q E s : Q (heap s p) s -> wp (get_param p) Q E s.
Proof. auto. Qed.

Lemma wp_set_data p v Q E s : Q tt (with_param_data p v s) -> wp (set_data p v) Q E s.
Proof. auto. Qed.

Lemma wp_stateless {A} (c : M A) Q E s :
  stateless c -> (forall a, c s = Ok a s -> Q a s) -> (forall e, c s = Raise e s -> E e s) ->
  wp c Q E s.
Proof.
  intros [r Hr] HQ HE. unfold wp. specialize (Hr s).
  destruct r; rewrite Hr in *; auto.
Qed.

Lemma wp_final {A} (c : M A) (P : store -> Prop) s :
  wp c (fun _ => P) (fun _ => P) s <-> P (final (c s)).
Proof. unfold wp. destruct (c s); reflexivity. Qed.

(** *** Statements that leave the store alone *)

Lemma stateless_ret {A} (a : A) : stateless (ret a).
Proof. by exists (inr a). Qed.

Lemma stateless_raise {A} e : stateless (raise e : M A).
Proof. by exists (inl e). Qed.

Lemma stateless_lift {A} e (o : option A) : stateless (lift e o).
Proof. destruct o; [apply stateless_ret | apply stateless_raise]. Qed.

Lemma stateless_bind {A B} (c : M A) (k : A -> M B) :
  stateless c -> (forall a, stateless (k a)) -> stateless (bind c k).
Proof.
  intros [[e|a] Hc] Hk.
  - exists (inl e). intros s. unfold bind. by rewrite Hc.
  - destruct (Hk a) as [r Hr]. exists r. intros s. unfold bind. by rewrite Hc.
Qed.

Lemma stateless_final {A} (c : M A) s : stateless c -> final (c s) = s.
Proof. intros [r Hr]. rewrite Hr. by destruct r. Qed.

Lemma stateless_indep {A} (c : M A) s1 s2 :
  stateless c ->
  match c s1, c s2 with
  | Ok a1 _, Ok a2 _ => a1 = a2
  | Raise e1 _, Raise e2 _ => e1 = e2
  | _, _ => False
  end.
Proof. intros [r Hr]. rewrite !Hr. by destruct r. Qed.

Lemma stateless_ok {A} (c : M A) a s s' s2 : stateless c -> c s = Ok a s' -> c s2 = Ok a s2.
Proof.
  intros [r Hr] Hc. rewrite Hr in *. destruct r; congruence.
Qed.

Create HintDb stateless.
#[local] Hint Resolve stateless_ret stateless_raise stateless_lift : stateless.

Ltac stateless_tac :=
  repeat first
    [ solve [auto 1 with stateless nocore]
    | match goal with
      | |- stateless (if ?b then _ else _) => destruct b
      | |- stateless (match ?x with _ => _ end) => destruct x
      end
    | apply stateless_bind; [|intros] ].

Lemma stateless_py_index l i : stateless (py_index l i).
Proof. unfold py_index. stateless_tac. Qed.

Lemma stateless_math_sqrt x : stateless (math_sqrt x).
Proof. unfold math_sqrt. stateless_tac. Qed.

Lemma stateless_unpack2 l : stateless (unpack2 l).
Proof. unfold unpack2. stateless_tac. Qed.

Lemma stateless_torch_zeros size : stateless (torch_zeros size).
Proof. unfold torch_zeros. stateless_tac. Qed.

Lemma stateless_torch_randn shape g dev dt : stateless (torch_randn shape (Some g) dev dt).
Proof. unfold torch_randn. stateless_tac. Qed.

Lemma stateless_torch_randint low high n g : stateless (torch_randint low high n (Some g)).
Proof. unfold torch_randint. stateless_tac. Qed.

#[local] Hint Resolve stateless_py_index stateless_math_sqrt stateless_unpack2
  stateless_torch_zeros stateless_torch_randn stateless_torch_randint : stateless.

Lemma stateless_stable_randn shape seed dev dt : stateless (stable_randn shape seed dev dt).
Proof. unfold stable_randn. stateless_tac. Qed.

Lemma stateless_next_seed seed adv : stateless (next_seed seed adv).
Proof. unfold next_seed. stateless_tac. Qed.

Lemma stateless_split_seed seed : stateless (split_seed seed).
Proof. unfold split_seed. stateless_tac. Qed.

#[local] Hint Resolve stateless_stable_randn stateless_next_seed stateless_split_seed
  : stateless.

Lemma stateless_down_proj seed rank x : stateless (_down_proj seed rank x).
Proof. unfold _down_proj. stateless_tac. Qed.

Lemma stateless_up_proj seed rank shape x : stateless (_up_proj seed rank shape x).
Proof. unfold _up_proj. stateless_tac. Qed.

#[local] Hint Resolve stateless_down_proj stateless_up_proj : stateless.

(** *** Relations every outcome of a statement maintains *)

Lemma keeps_ret R {A} (a : A) : Reflexive R -> keeps R (ret a).
Proof. intros HR s. apply HR. Qed.

Lemma keeps_raise R {A} e : Reflexive R -> keeps R (raise e : M A).
Proof. intros HR s. apply HR. Qed.

Lemma keeps_stateless R {A} (c : M A) : Reflexive R -> stateless c -> keeps R c.
Proof. intros HR Hc s. rewrite stateless_final by done. apply HR. Qed.

Lemma keeps_bind R {A B} (c : M A) (k : A -> M B) :
  Transitive R -> keeps R c -> (forall a, keeps R (k a)) -> keeps R (bind c k).
Proof.
  intros HR Hc Hk s. specialize (Hc s). unfold bind.
  destruct (c s) as [a s'|e s']; simpl in *; [|done].
  etrans; [exact Hc | apply Hk].
Qed.

Lemma keeps_get_param R p : Reflexive R -> keeps R (get_param p).
Proof. intros HR s. apply HR. Qed.

Lemma keeps_wp R {A} (c : M A) s :
  keeps R c -> wp c (fun _ s' => R s s') (fun _ s' => R s s') s.
Proof. intros Hc. apply wp_final, Hc. Qed.

#[local] Instance frame_refl p : Reflexive (frame p).
Proof. intros s. by split. Qed.

#[local] Instance frame_trans p : Transitive (frame p).
Proof.
  intros s1 s2 s3 H1 H2. split; intros.
  - rewrite (frame_heap _ _ _ H2) by done. by apply H1.
  - rewrite (frame_state _ _ _ H2) by done. by apply H1.
  - rewrite (frame_grad _ _ _ H2). apply H1.
  - rewrite (frame_requires_grad _ _ _ H2). apply H1.
  - rewrite (frame_groups _ _ _ H2). apply H1.
  - rewrite (frame_rng _ _ _ H2). apply H1.
Qed.

Lemma frame_with_state p st s : frame p s (with_state p st s).
Proof.
  split; simpl; auto. intros q Hq. by rewrite lookup_insert_ne.
Qed.

Lemma frame_with_param_data p v s : frame p s (with_param_data p v s).
Proof.
  split; simpl; auto.
  - intros q Hq. by rewrite fn_lookup_insert_ne.
  - by rewrite fn_lookup_insert.
  - by rewrite fn_lookup_insert.
Qed.

Lemma keeps_frame_self_state p : keeps (frame p) (self_state p).
Proof. intros s. rewrite self_state_eq. apply frame_with_state. Qed.

Lemma keeps_frame_state_set p upd : keeps (frame p) (state_set p upd).
Proof. intros s. rewrite state_set_eq. apply frame_with_state. Qed.

Lemma keeps_frame_state_get {A} p key (field : pstate -> option A) :
  keeps (frame p) (state_get p key field).
Proof.
  intros s. rewrite state_get_eq. destruct (field (pst s p)); apply frame_with_state.
Qed.

Lemma keeps_frame_set_data p v : keeps (frame p) (set_data p v).
Proof. intros s. apply frame_with_param_data. Qed.

Create HintDb keeps.
#[local] Hint Resolve keeps_ret keeps_raise keeps_get_param keeps_frame_self_state
  keeps_frame_state_set keeps_frame_state_get keeps_frame_set_data : keeps.
#[local] Hint Extern 1 (Reflexive _) => typeclasses eauto : keeps.
#[local] Hint Extern 1 (Transitive _) => typeclasses eauto : keeps.
#[local] Hint Extern 2 (keeps _ _) =>
  apply keeps_stateless; [typeclasses eauto | solve [stateless_tac]] : keeps.

Ltac keeps_tac :=
  repeat first
    [ solve [auto 2 with keeps nocore]
    | match goal with
      | |- keeps _ (if ?b then _ else _) => destruct b
      | |- keeps _ (match ?x with _ => _ end) => destruct x
      end
    | apply keeps_bind; [typeclasses eauto | | intros] ].

Lemma keeps_frame_init_state g p grad m : keeps (frame p) (init_state g p grad m).
Proof. unfold init_state. keeps_tac. Qed.

Lemma keeps_frame_update_exp_avg p a b c : keeps (frame p) (update_exp_avg p a b c).
Proof. unfold update_exp_avg. keeps_tac. Qed.

Lemma keeps_frame_update_exp_avg_sq p a b c : keeps (frame p) (update_exp_avg_sq p a b c).
Proof. unfold update_exp_avg_sq. keeps_tac. Qed.

Lemma keeps_frame_param_addcdiv p a b c : keeps (frame p) (param_addcdiv p a b c).
Proof. unfold param_addcdiv. keeps_tac. Qed.

Lemma keeps_frame_rotate g p sh r sd : keeps (frame p) (rotate g p sh r sd).
Proof. unfold rotate. keeps_tac. Qed.

#[local] Hint Resolve keeps_frame_init_state keeps_frame_update_exp_avg
  keeps_frame_update_exp_avg_sq keeps_frame_param_addcdiv keeps_frame_rotate : keeps.

Lemma keeps_frame_compressed_update g p grad a b t :
  keeps (frame p) (compressed_update g p grad a b t).
Proof. unfold compressed_update. keeps_tac. Qed.

Lemma keeps_frame_full_update g p grad a b t : keeps (frame p) (full_update g p grad a b t).
Proof. unfold full_update. keeps_tac. Qed.

#[local] Hint Resolve keeps_frame_compressed_update keeps_frame_full_update : keeps.

Lemma keeps_frame_update_param m g p grad : keeps (frame p) (update_param m g p grad).
Proof. unfold update_param. keeps_tac. Qed.

#[local] Hint Resolve keeps_frame_update_param : keeps.

Lemma keeps_frame_step_param g p : keeps (frame p) (step_param g p).
Proof. unfold step_param. keeps_tac. Qed.

#[local] Instance on_state_refl P p : Reflexive P -> Reflexive (on_state P p).
Proof. intros HP s. apply HP. Qed.

#[local] Instance on_state_trans P p : Transitive P -> Transitive (on_state P p).
Proof. intros HP s1 s2 s3. unfold on_state. apply HP. Qed.

Lemma keeps_on_state_self_state P p : Reflexive P -> keeps (on_state P p) (self_state p).
Proof. intros HP s. rewrite self_state_eq. unfold on_state; simpl. by rewrite pst_with_state. Qed.

Lemma keeps_on_state_get {A} P p key (field : pstate -> option A) :
  Reflexive P -> keeps (on_state P p) (state_get p key field).
Proof.
  intros HP s. rewrite state_get_eq. unfold on_state.
  destruct (field (pst s p)); simpl; by rewrite pst_with_state.
Qed.

Lemma keeps_on_state_set P p upd :
  (forall st, P st (upd st)) -> keeps (on_state P p) (state_set p upd).
Proof. intros HP s. rewrite state_set_eq. unfold on_state; simpl. by rewrite pst_with_state. Qed.

Lemma keeps_on_state_set_data P p q v : Reflexive P -> keeps (on_state P p) (set_data q v).
Proof. intros HP s. apply HP. Qed.

#[local] Hint Resolve keeps_on_state_self_state keeps_on_state_get keeps_on_state_set_data
  : keeps.
#[local] Hint Extern 1 (keeps (on_state _ _) (state_set _ _)) =>
  apply keeps_on_state_set; intros []; solve [repeat split] : keeps.

#[local] Instance same_step_refl : Reflexive same_step.
Proof. by intros a. Qed.
#[local] Instance same_step_trans : Transitive same_step.
Proof. unfold same_step. intros a b c ? ?. congruence. Qed.
#[local] Instance same_seed_refl : Reflexive same_seed.
Proof. by intros a. Qed.
#[local] Instance same_seed_trans : Transitive same_seed.
Proof. unfold same_seed. intros a b c ? ?. congruence. Qed.

Lemma keeps_step_update_exp_avg p a b c :
  keeps (on_state same_step p) (update_exp_avg p a b c).
Proof. unfold update_exp_avg. keeps_tac. Qed.

Lemma keeps_step_update_exp_avg_sq p a b c :
  keeps (on_state same_step p) (update_exp_avg_sq p a b c).
Proof. unfold update_exp_avg_sq. keeps_tac. Qed.

Lemma keeps_step_param_addcdiv p a b c : keeps (on_state same_step p) (param_addcdiv p a b c).
Proof. unfold param_addcdiv. keeps_tac. Qed.

Lemma keeps_step_rotate g p sh r sd : keeps (on_state same_step p) (rotate g p sh r sd).
Proof. unfold rotate. keeps_tac. Qed.

#[local] Hint Resolve keeps_step_update_exp_avg keeps_step_update_exp_avg_sq
  keeps_step_param_addcdiv keeps_step_rotate : keeps.

Lemma keeps_step_compressed_update g p grad a b t :
  keeps (on_state same_step p) (compressed_update g p grad a b t).
Proof. unfold compressed_update. keeps_tac. Qed.

Lemma keeps_step_full_update g p grad a b t :
  keeps (on_state same_step p) (full_update g p grad a b t).
Proof. unfold full_update. keeps_tac. Qed.

Lemma keeps_seed_update_exp_avg p a b c :
  keeps (on_state same_seed p) (update_exp_avg p a b c).
Proof. unfold update_exp_avg. keeps_tac. Qed.

Lemma keeps_seed_update_exp_avg_sq p a b c :
  keeps (on_state same_seed p) (update_exp_avg_sq p a b c).
Proof. unfold update_exp_avg_sq. keeps_tac. Qed.

Lemma keeps_seed_param_addcdiv p a b c : keeps (on_state same_seed p) (param_addcdiv p a b c).
Proof. unfold param_addcdiv. keeps_tac. Qed.

Lemma keeps_seed_init_state g p grad m : keeps (on_state same_seed p) (init_state g p grad m).
Proof. unfold init_state. keeps_tac. Qed.

#[local] Hint Resolve keeps_seed_update_exp_avg keeps_seed_update_exp_avg_sq
  keeps_seed_param_addcdiv keeps_seed_init_state : keeps.

Lemma keeps_seed_full_update g p grad a b t :
  keeps (on_state same_seed p) (full_update g p grad a b t).
Proof. unfold full_update. keeps_tac. Qed.

Create Rewrite HintDb store.
#[local] Hint Rewrite pst_with_state with_state_twice pst_with_param_data : store.

Ltac wp_step :=
  lazymatch goal with
  | |- wp (bind _ _) _ _ _ => apply wp_bind
  | |- wp (ret _) _ _ _ => apply wp_ret
  | |- wp (raise _) _ _ _ => apply wp_raise
  | |- wp (lift _ _) _ _ _ => apply wp_lift
  | |- wp (self_state _) _ _ _ => apply wp_self_state
  | |- wp (state_set _ _) _ _ _ => apply wp_state_set
  | |- wp (state_get _ _ _) _ _ _ => apply wp_state_get
  | |- wp (get_param _) _ _ _ => apply wp_get_param
  | |- wp (set_data _ _) _ _ _ => apply wp_set_data
  end; autorewrite with store.

(** *** The step counter *)

(** The test that guards state initialisation asks whether ['step'] is
    missing. *)
Lemma init_test (state : pstate) :
  (dict_nonempty state && negb (bool_decide (is_Some (st_step state))))
    || negb (dict_nonempty state) = true <-> st_step state = None.
Proof.
  destruct state as [[?|] [?|] [?|] [?|]]; unfold dict_nonempty; simpl; split; congruence.
Qed.

Lemma init_state_step g p grad m s :
  wp (init_state g p grad m) (fun _ s' => st_step (pst s' p) = Some 0) (fun _ _ => True) s.
Proof.
  unfold init_state. wp_step. wp_step.
  match goal with |- wp ?c _ _ ?s1 =>
    assert (Hk : keeps (on_state same_step p) c) by keeps_tac;
    specialize (Hk s1); unfold wp; destruct (c s1); simpl in *; auto
  end.
  unfold on_state, same_step in Hk. by rewrite Hk, pst_with_state.
Qed.

Lemma update_param_step m g p grad s a s' :
  update_param m g p grad s = Ok a s' -> step_count s' p = step_count s p + 1.
Proof.
  intros Hrun.
  enough (Hwp : wp (update_param m g p grad)
                  (fun _ s' => step_count s' p = step_count s p + 1) (fun _ _ => True) s).
  { unfold wp in Hwp. by rewrite Hrun in Hwp. }
  clear Hrun. unfold update_param. wp_step. wp_step. wp_step.
  apply wp_mono with
    (Q := fun _ s1 => st_step (pst s1 p) = Some (step_count s p)) (E := fun _ _ => True).
  { destruct (_ || _) eqn:Htest.
    - apply init_test in Htest. eapply wp_mono; [apply init_state_step| |done].
      intros _ s1 ->. unfold step_count. by rewrite Htest.
    - wp_step. unfold step_count.
      apply not_true_iff_false in Htest. rewrite init_test in Htest.
      by destruct (st_step (pst s p)). }
  2: done.
  intros _ s1 Hs1. repeat wp_step.
  destruct (st_exp_avg (pst s1 p)); [|done]. repeat wp_step.
  destruct (st_exp_avg_sq (pst s1 p)); [|done]. repeat wp_step.
  rewrite Hs1. repeat wp_step. simpl. repeat wp_step.
  match goal with |- wp ?c _ _ ?s2 =>
    assert (Hk : keeps (on_state same_step p) c)
      by (destruct m; [apply keeps_step_compressed_update | apply keeps_step_full_update]);
    specialize (Hk s2); unfold wp; destruct (c s2); simpl in *; auto
  end.
  unfold on_state, same_step in Hk. unfold step_count. rewrite Hk.
  by autorewrite with store.
Qed.

(** *** Parameters without a gradient *)

Lemma step_eq closure s :
  step closure s =
  match closure_result closure s with
  | Ok l s1 =>
      match update_loop (param_groups s1) s1 with
      | Ok _ s' => Ok l s'
      | Raise e s' => Raise e s'
      end
  | Raise e s1 => Raise e s1
  end.
Proof.
  unfold step, closure_result, bind, update_loop, get_param_groups.
  destruct closure as [c|]; simpl.
  - destruct (c s) as [l s1|e s1]; simpl; [|done].
    by destruct (for_each _ _ s1).
  - by destruct (for_each _ _ s).
Qed.

Lemma keeps_for_each R {A} (l : list A) (body : A -> M unit) :
  Reflexive R -> Transitive R -> (forall x, keeps R (body x)) -> keeps R (for_each l body).
Proof.
  intros HR HT Hb. induction l as [|x l IH]; simpl.
  - by apply keeps_ret.
  - apply keeps_bind; auto.
Qed.

#[local] Instance skips_refl : Reflexive skips.
Proof. intros s. by split. Qed.

#[local] Instance skips_trans : Transitive skips.
Proof.
  intros s1 s2 s3 H1 H2. split.
  - intros q. rewrite (skips_grad _ _ H2). apply H1.
  - intros q Hq. destruct (skips_null _ _ H1 q Hq) as [Ha Hb].
    destruct (skips_null _ _ H2 q) as [Hc Hd].
    { rewrite (skips_grad _ _ H1). done. }
    split; congruence.
  - rewrite (skips_groups _ _ H2). apply H1.
Qed.

Lemma frame_skips p s s' : is_Some (p_grad (heap s p)) -> frame p s s' -> skips s s'.
Proof.
  intros [grad Hg] Hf. split.
  - intros q. destruct (decide (q = p)) as [->|Hq].
    + apply Hf.
    + by rewrite (frame_heap _ _ _ Hf).
  - intros q Hq. assert (q <> p) by congruence.
    split; [by apply (frame_heap _ _ _ Hf) | by apply (frame_state _ _ _ Hf)].
  - apply Hf.
Qed.

Lemma keeps_skips_step_param g p : keeps skips (step_param g p).
Proof.
  intros s. destruct (p_grad (heap s p)) as [grad|] eqn:Hg.
  - eapply frame_skips; [by rewrite Hg | apply keeps_frame_step_param].
  - unfold step_param, bind, get_param. rewrite Hg. simpl. reflexivity.
Qed.

Lemma keeps_skips_update_loop gs : keeps skips (update_loop gs).
Proof.
  unfold update_loop. apply keeps_for_each; try typeclasses eauto.
  intros g. apply keeps_for_each; try typeclasses eauto.
  intros p. apply keeps_skips_step_param.
Qed.

Lemma for_each_ok_cons {A} (x : A) l body s a s' :
  for_each (x :: l) body s = Ok a s' ->
  exists s1, body x s = Ok tt s1 /\ for_each l body s1 = Ok a s'.
Proof.
  simpl. unfold bind. destruct (body x s) as [[] s1|]; [|done]. eauto.
Qed.

Lemma for_each_ok_app {A} (l1 l2 : list A) body s a s' :
  for_each (l1 ++ l2) body s = Ok a s' ->
  exists s1, for_each l1 body s = Ok tt s1 /\ for_each l2 body s1 = Ok a s'.
Proof.
  revert s. induction l1 as [|x l1 IH]; intros s Hrun.
  - exists s. auto.
  - rewrite <- app_comm_cons in Hrun.
    apply for_each_ok_cons in Hrun as (s1 & Hx & Hrest).
    apply IH in Hrest as (s2 & H1 & H2). exists s2. split; [|done].
    simpl. unfold bind. by rewrite Hx.
Qed.

(** A parameter that a list of updates does not name keeps its data and
    its state. *)
Lemma frame_other p q s s' : q <> p -> frame q s s' -> pst s' p = pst s p /\ heap s' p = heap s p.
Proof.
  intros Hq Hf. unfold pst. rewrite (frame_state _ _ _ Hf), (frame_heap _ _ _ Hf); auto.
Qed.

Lemma inner_loop_other g ps p s :
  p ∉ ps ->
  let s' := final (for_each ps (step_param g) s) in
  pst s' p = pst s p /\ heap s' p = heap s p.
Proof.
  revert s. induction ps as [|q ps IH]; intros s Hp; simpl; [done|].
  apply not_elem_of_cons in Hp as [Hq Hp].
  pose proof (keeps_frame_step_param g q s) as Hf.
  apply (frame_other p) in Hf; [|done].
  unfold bind. destruct (step_param g q s) as [a s1|e s1]; simpl in *; [|done].
  destruct (IH s1 Hp) as [-> ->]. done.
Qed.

Lemma update_loop_other gs p s :
  p ∉ all_params gs ->
  let s' := final (update_loop gs s) in
  pst s' p = pst s p /\ heap s' p = heap s p.
Proof.
  unfold update_loop, all_params.
  revert s. induction gs as [|g gs IH]; intros s Hp; simpl; [done|].
  simpl in Hp. apply not_elem_of_app in Hp as [Hg Hp].
  pose proof (inner_loop_other g (g_params g) p s Hg) as Hin. simpl in Hin.
  unfold bind. destruct (for_each (g_params g) _ s) as [a s1|e s1]; simpl in *; [|done].
  destruct (IH s1 Hp) as [-> ->]. done.
Qed.

Lemma step_param_count g p grad s a s' :
  p_grad (heap s p) = Some grad -> step_param g p s = Ok a s' ->
  step_count s' p = step_count s p + 1.
Proof.
  unfold step_param, bind, get_param. intros ->. apply update_param_step.
Qed.

Lemma inner_loop_once g ps p grad s a s' :
  NoDup ps -> p ∈ ps -> p_grad (heap s p) = Some grad ->
  for_each ps (step_param g) s = Ok a s' ->
  step_count s' p = step_count s p + 1.
Proof.
  revert s. induction ps as [|q ps IH]; intros s Hnd Hin Hg Hrun.
  - by apply elem_of_nil in Hin.
  - apply NoDup_cons in Hnd as [Hq Hnd].
    apply for_each_ok_cons in Hrun as (s1 & Hx & Hrest).
    destruct (decide (p = q)) as [->|Hne].
    + rewrite <- (step_param_count _ _ _ _ _ _ Hg Hx).
      pose proof (inner_loop_other g ps q s1 Hq) as Ho. simpl in Ho.
      rewrite Hrest in Ho. simpl in Ho. unfold step_count. by rewrite (proj1 Ho).
    + apply elem_of_cons in Hin as [?|Hin]; [done|].
      pose proof (keeps_frame_step_param g q s) as Hf. rewrite Hx in Hf. simpl in Hf.
      destruct (frame_other p q _ _ (not_eq_sym Hne) Hf) as [Hst Hhp].
      rewrite (IH s1); auto; [|by rewrite Hhp].
      unfold step_count. by rewrite Hst.
Qed.

Lemma update_loop_once gs p grad s a s' :
  NoDup (all_params gs) -> p ∈ all_params gs -> p_grad (heap s p) = Some grad ->
  update_loop gs s = Ok a s' ->
  step_count s' p = step_count s p + 1.
Proof.
  unfold update_loop, all_params.
  revert s. induction gs as [|g gs IH]; intros s Hnd Hin Hg Hrun; simpl in *.
  - by apply elem_of_nil in Hin.
  - apply NoDup_app in Hnd as (Hnd1 & Hdisj & Hnd2).
    unfold bind in Hrun.
    destruct (for_each (g_params g) _ s) as [[] s1|] eqn:Hinner; [|done].
    apply elem_of_app in Hin as [Hin|Hin].
    + rewrite <- (inner_loop_once _ _ _ _ _ _ _ Hnd1 Hin Hg Hinner).
      pose proof (update_loop_other gs p s1 (Hdisj _ Hin)) as Ho.
      unfold update_loop in Ho. simpl in Ho. rewrite Hrun in Ho. simpl in Ho.
      unfold step_count. by rewrite (proj1 Ho).
    + assert (Hp : p ∉ g_params g) by (intros Hp; by apply (Hdisj _ Hp)).
      pose proof (inner_loop_other g _ p s Hp) as Ho. simpl in Ho.
      rewrite Hinner in Ho. simpl in Ho. destruct Ho as [Hst Hhp].
      rewrite (IH s1); auto; [|by rewrite Hhp].
      unfold step_count. by rewrite Hst.
Qed.

(** C7. A parameter whose gradient is null is skipped by [step]: the
    parameter and its state (step counter, seed, both moments) are left
    as they were, whatever the outcome; a parameter whose gradient is
    not null has its step counter increased by exactly 1 by its update,
    and so by an invocation of [step] that completes. *)
Theorem null_gradient_skipped (closure : option (M R)) (s s1 : store) (l : option R) :
  closure_result closure s = Ok l s1 ->
  (forall p, p_grad (heap s1 p) = None ->
     heap (final (step closure s)) p = heap s1 p /\
     opt_state (final (step closure s)) !! p = opt_state s1 !! p) /\
  (forall g p grad s2 s', p_grad (heap s2 p) = Some grad ->
     step_param g p s2 = Ok tt s' -> step_count s' p = step_count s2 p + 1) /\
  (forall p grad r s', p_grad (heap s1 p) = Some grad ->
     NoDup (all_params (param_groups s1)) -> p ∈ all_params (param_groups s1) ->
     step closure s = Ok r s' -> step_count s' p = step_count s1 p + 1).
Proof.
  intros Hc. rewrite step_eq, Hc. split; [|split].
  - intros p Hp.
    pose proof (keeps_skips_update_loop (param_groups s1) s1) as Hk.
    destruct (update_loop _ s1); simpl in *; by apply (skips_null _ _ Hk).
  - intros g p grad s2 s' Hg Hrun. by eapply step_param_count.
  - intros p grad r s' Hg Hnd Hin Hrun.
    destruct (update_loop _ s1) as [a s2|] eqn:Hloop; [|done].
    injection Hrun as <- <-. by eapply update_loop_once.
Qed.

(** *** Statements that never raise [KeyError('seed')] *)

Lemma raises_other_ret {A} (a : A) : raises_other (ret a).
Proof. by intros s e s'. Qed.

Lemma raises_other_raise {A} e : e <> KeyError "seed" -> raises_other (raise e : M A).
Proof. intros He s e' s'. unfold raise. congruence. Qed.

Lemma raises_other_lift {A} e (o : option A) : e <> KeyError "seed" -> raises_other (lift e o).
Proof. intros He. destruct o; [apply raises_other_ret | by apply raises_other_raise]. Qed.

Lemma raises_other_bind {A B} (c : M A) (k : A -> M B) :
  raises_other c -> (forall a, raises_other (k a)) -> raises_other (bind c k).
Proof.
  intros Hc Hk s e s'. unfold bind. destruct (c s) as [a s1|e1 s1] eqn:E.
  - apply Hk.
  - intros [= <- <-]. by eapply Hc.
Qed.

Lemma raises_other_self_state p : raises_other (self_state p).
Proof. intros s e s'. by rewrite self_state_eq. Qed.

Lemma raises_other_state_set p upd : raises_other (state_set p upd).
Proof. intros s e s'. by rewrite state_set_eq. Qed.

Lemma raises_other_state_get {A} p key (field : pstate -> option A) :
  key <> "seed"%string -> raises_other (state_get p key field).
Proof.
  intros Hk s e s'. rewrite state_get_eq. destruct (field (pst s p)); [done|].
  intros [= <- <-]. congruence.
Qed.

Lemma raises_other_get_param p : raises_other (get_param p).
Proof. by intros s e s'. Qed.

Lemma raises_other_set_data p v : raises_other (set_data p v).
Proof. by intros s e s'. Qed.

Create HintDb raises.
#[local] Hint Resolve raises_other_ret raises_other_self_state raises_other_state_set
  raises_other_get_param raises_other_set_data : raises.
#[local] Hint Extern 1 (raises_other (raise _)) =>
  apply raises_other_raise; discriminate : raises.
#[local] Hint Extern 1 (raises_other (lift _ _)) =>
  apply raises_other_lift; discriminate : raises.
#[local] Hint Extern 1 (raises_other (state_get _ _ _)) =>
  apply raises_other_state_get; discriminate : raises.

Ltac raises_tac :=
  repeat first
    [ solve [auto 1 with raises nocore]
    | match goal with
      | |- raises_other (if ?b then _ else _) => destruct b
      | |- raises_other (match ?x with _ => _ end) => destruct x
      end
    | apply raises_other_bind; [|intros] ].

Lemma raises_other_py_index l i : raises_other (py_index l i).
Proof. unfold py_index. raises_tac. Qed.

Lemma raises_other_math_sqrt x : raises_other (math_sqrt x).
Proof. unfold math_sqrt. raises_tac. Qed.

Lemma raises_other_unpack2 l : raises_other (unpack2 l).
Proof. unfold unpack2. raises_tac. Qed.

Lemma raises_other_torch_zeros size : raises_other (torch_zeros size).
Proof. unfold torch_zeros. raises_tac. Qed.

Lemma raises_other_torch_randn shape g dev dt :
  raises_other (torch_randn shape (Some g) dev dt).
Proof. unfold torch_randn. raises_tac. Qed.

Lemma raises_other_torch_randint low high n g :
  raises_other (torch_randint low high n (Some g)).
Proof. unfold torch_randint. raises_tac. Qed.

#[local] Hint Resolve raises_other_py_index raises_other_math_sqrt raises_other_unpack2
  raises_other_torch_zeros raises_other_torch_randn raises_other_torch_randint : raises.

Lemma raises_other_stable_randn shape seed dev dt :
  raises_other (stable_randn shape seed dev dt).
Proof. unfold stable_randn. raises_tac. Qed.

Lemma raises_other_next_seed seed adv : raises_other (next_seed seed adv).
Proof. unfold next_seed. raises_tac. Qed.

Lemma raises_other_split_seed seed : raises_other (split_seed seed).
Proof. unfold split_seed. raises_tac. Qed.

#[local] Hint Resolve raises_other_stable_randn raises_other_next_seed
  raises_other_split_seed : raises.

Lemma raises_other_down_proj seed rank x : raises_other (_down_proj seed rank x).
Proof. unfold _down_proj. raises_tac. Qed.

Lemma raises_other_up_proj seed rank shape x : raises_other (_up_proj seed rank shape x).
Proof. unfold _up_proj. raises_tac. Qed.

Lemma raises_other_init_state g p grad m : raises_other (init_state g p grad m).
Proof. unfold init_state. raises_tac. Qed.

Lemma raises_other_update_exp_avg p a b c : raises_other (update_exp_avg p a b c).
Proof. unfold update_exp_avg. raises_tac. Qed.

Lemma raises_other_update_exp_avg_sq p a b c : raises_other (update_exp_avg_sq p a b c).
Proof. unfold update_exp_avg_sq. raises_tac. Qed.

Lemma raises_other_param_addcdiv p a b c : raises_other (param_addcdiv p a b c).
Proof. unfold param_addcdiv. raises_tac. Qed.

#[local] Hint Resolve raises_other_down_proj raises_other_up_proj raises_other_init_state
  raises_other_update_exp_avg raises_other_update_exp_avg_sq raises_other_param_addcdiv
  : raises.

Lemma raises_other_full_update g p grad a b t : raises_other (full_update g p grad a b t).
Proof. unfold full_update. raises_tac. Qed.

Lemma wp_sub R {A} (c : M A) (Q : A -> store -> Prop) (E : exn -> store -> Prop) s :
  keeps R c -> raises_other c ->
  (forall a s', R s s' -> Q a s') ->
  (forall e s', e <> KeyError "seed" -> R s s' -> E e s') ->
  wp c Q E s.
Proof.
  intros Hk Hr HQ HE. specialize (Hk s). specialize (Hr s). unfold wp.
  destruct (c s) as [a s'|e s']; simpl in *; [auto|].
  apply HE; [by eapply Hr|done].
Qed.

Lemma wp_pure {A} (c : M A) (Q : A -> store -> Prop) (E : exn -> store -> Prop) s :
  stateless c -> raises_other c ->
  (forall a, c s = Ok a s -> Q a s) -> (forall e, e <> KeyError "seed" -> E e s) ->
  wp c Q E s.
Proof.
  intros Hs Hr HQ HE. apply wp_stateless; [done|done|].
  intros e He. apply HE. by eapply Hr.
Qed.

(** *** The seed *)

#[local] Instance same_step_seed_refl : Reflexive same_step_seed.
Proof. by intros a. Qed.
#[local] Instance same_step_seed_trans : Transitive same_step_seed.
Proof. unfold same_step_seed. intros a b c [] []. split; congruence. Qed.

Lemma keeps_both_update_exp_avg p a b c :
  keeps (on_state same_step_seed p) (update_exp_avg p a b c).
Proof. unfold update_exp_avg. keeps_tac. Qed.

Lemma keeps_both_update_exp_avg_sq p a b c :
  keeps (on_state same_step_seed p) (update_exp_avg_sq p a b c).
Proof. unfold update_exp_avg_sq. keeps_tac. Qed.

Lemma keeps_both_param_addcdiv p a b c :
  keeps (on_state same_step_seed p) (param_addcdiv p a b c).
Proof. unfold param_addcdiv. keeps_tac. Qed.

Lemma wp_keeps R {A} (c : M A) (Q : A -> store -> Prop) (E : exn -> store -> Prop) s :
  keeps R c -> (forall a s', R s s' -> Q a s') -> (forall e s', R s s' -> E e s') ->
  wp c Q E s.
Proof.
  intros Hk HQ HE. specialize (Hk s). unfold wp. destruct (c s); simpl in *; auto.
Qed.

(** The rotation, from a state whose step counter is [t] and whose seed
    is [cur]: when it completes and [t] is a multiple of [kappa] the
    seed is [next_seed cur]; in every other case the seed is [cur]. *)
Lemma rotate_seed g p sh r sd t cur s :
  st_step (pst s p) = Some t -> st_seed (pst s p) = Some cur ->
  wp (rotate g p sh r sd)
    (fun _ s' =>
       if t mod g_kappa g =? 0
       then g_kappa g <> 0 /\
            exists nxt, next_seed cur default_adv s = Ok nxt s /\
                        st_seed (pst s' p) = Some nxt
       else st_seed (pst s' p) = Some cur)
    (fun e s' => st_seed (pst s' p) = Some cur /\ e <> KeyError "seed") s.
Proof.
  intros Ht Hcur. unfold rotate. wp_step. wp_step. rewrite Ht.
  destruct (g_kappa g =? 0) eqn:Hk; [by wp_step|].
  apply Z.eqb_neq in Hk.
  destruct (t mod g_kappa g =? 0) eqn:Hmod; [|by wp_step].
  wp_step. wp_step. rewrite Hcur. wp_step.
  apply wp_pure; [apply stateless_next_seed|apply raises_other_next_seed| |
                  by intros; autorewrite with store].
  intros nxt Hnxt. wp_step. wp_step.
  destruct (st_exp_avg (pst s p)) as [ea|] eqn:Hea; [|by autorewrite with store].
  wp_step. wp_step. rewrite Hea. wp_step.
  apply wp_pure; [apply stateless_up_proj|apply raises_other_up_proj| |
                  by intros; autorewrite with store].
  intros full _. wp_step.
  apply wp_pure; [apply stateless_down_proj|apply raises_other_down_proj| |
                  by intros; autorewrite with store].
  intros down _. wp_step. wp_step.
  destruct (torch.copy_ _ _); [|by autorewrite with store].
  wp_step. wp_step. wp_step. simpl. split; [done|]. exists nxt. split; [|done].
  eapply stateless_ok; [apply stateless_next_seed|done].
Qed.

Lemma compressed_update_seed g p grad ea eas t t' cur s :
  st_step (pst s p) = Some t' -> st_seed (pst s p) = Some cur ->
  wp (compressed_update g p grad ea eas t)
    (fun _ s' =>
       if t' mod g_kappa g =? 0
       then g_kappa g <> 0 /\
            exists nxt, next_seed cur default_adv s = Ok nxt s /\
                        st_seed (pst s' p) = Some nxt
       else st_seed (pst s' p) = Some cur)
    (fun e s' => st_seed (pst s' p) = Some cur /\ e <> KeyError "seed") s.
Proof.
  intros Ht Hcur. unfold compressed_update. wp_step. wp_step. rewrite Hcur.
  wp_step. wp_step. destruct (g_rank g) as [rank|]; [|by autorewrite with store].
  wp_step.
  apply wp_pure; [apply stateless_down_proj|apply raises_other_down_proj| |
                  by intros; autorewrite with store].
  intros cgrad _. wp_step.
  set (s0 := with_state p (pst s p) s).
  assert (H0 : on_state same_step_seed p s s0).
  { unfold on_state, s0. by rewrite pst_with_state. }
  assert (Hfail : forall s', on_state same_step_seed p s s' -> st_seed (pst s' p) = Some cur).
  { intros s' [_ Hs]. congruence. }
  eapply (wp_sub (on_state same_step_seed p));
    [apply keeps_both_update_exp_avg | apply raises_other_update_exp_avg | |].
  2: { intros e s1 He H1. split; [|done]. apply Hfail. by etrans. }
  intros ea1 s1 H1. wp_step. pose proof (transitivity H0 H1) as H01.
  eapply (wp_sub (on_state same_step_seed p));
    [apply keeps_both_update_exp_avg_sq | apply raises_other_update_exp_avg_sq | |].
  2: { intros e s2 He H2. split; [|done]. apply Hfail. by etrans. }
  intros eas1 s2 H2. wp_step. pose proof (transitivity H01 H2) as H02.
  apply wp_pure; [apply stateless_up_proj|apply raises_other_up_proj| |
                  by intros; split; [apply Hfail|]].
  intros update _. wp_step.
  eapply (wp_sub (on_state same_step_seed p));
    [apply keeps_both_param_addcdiv | apply raises_other_param_addcdiv | |].
  2: { intros e s3 He H3. split; [|done]. apply Hfail. by etrans. }
  intros [] s3 H3. pose proof (transitivity H02 H3) as Hall.
  destruct Hall as [Hst Hsd].
  eapply wp_mono; [apply (rotate_seed g p _ _ _ t' cur); congruence | |done].
  intros [] s4. simpl. destruct (t' mod g_kappa g =? 0); [|done].
  intros [Hk (nxt & Hn & Hs)]. split; [done|]. exists nxt. split; [|done].
  eapply stateless_ok; [apply stateless_next_seed|exact Hn].
Qed.

Lemma compressed_update_no_seed g p grad ea eas t s :
  st_seed (pst s p) = None ->
  compressed_update g p grad ea eas t s =
  Raise (KeyError "seed") (with_state p (pst s p) s).
Proof.
  intros Hs. unfold compressed_update, bind. by rewrite state_get_eq, Hs.
Qed.

Lemma init_state_step_seed g p grad m s :
  wp (init_state g p grad m)
    (fun _ s' => st_step (pst s' p) = Some 0 /\ st_seed (pst s' p) = st_seed (pst s p))
    (fun e s' => st_seed (pst s' p) = st_seed (pst s p) /\ e <> KeyError "seed") s.
Proof.
  unfold init_state. wp_step. wp_step.
  eapply (wp_sub (on_state same_step_seed p)); [keeps_tac|raises_tac| |].
  - intros ? s' [Hst Hsd]. rewrite Hst, Hsd, pst_with_state. by destruct (pst s p).
  - intros ? s' ? [Hst Hsd]. rewrite Hsd, pst_with_state. by destruct (pst s p).
Qed.

(** What one update does to the seed of its parameter. *)
Lemma update_param_seed m g p grad s :
  wp (update_param m g p grad)
    (fun _ s' =>
       if m && ((step_count s p + 1) mod g_kappa g =? 0)
       then g_kappa g <> 0 /\
            exists cur nxt, st_seed (pst s p) = Some cur /\
                            next_seed cur default_adv s = Ok nxt s /\
                            st_seed (pst s' p) = Some nxt
       else st_seed (pst s' p) = st_seed (pst s p))
    (fun e s' => st_seed (pst s' p) = st_seed (pst s p) /\
                 (is_Some (st_seed (pst s p)) -> e <> KeyError "seed")) s.
Proof.
  unfold update_param. wp_step. wp_step. wp_step.
  apply wp_mono with
    (Q := fun _ s1 => st_step (pst s1 p) = Some (step_count s p) /\
                      st_seed (pst s1 p) = st_seed (pst s p))
    (E := fun e s1 => st_seed (pst s1 p) = st_seed (pst s p) /\ e <> KeyError "seed").
  { destruct (_ || _) eqn:Htest.
    - apply init_test in Htest.
      eapply wp_mono; [apply init_state_step_seed| |].
      + intros [] s1. rewrite pst_with_state. unfold step_count. by rewrite Htest.
      + intros e s1. by rewrite pst_with_state.
    - wp_step. apply not_true_iff_false in Htest. rewrite init_test in Htest.
      unfold step_count. by destruct (st_step (pst s p)). }
  2: { by intros e s1 []. }
  intros [] s1 [Hstep Hseed]. wp_step. wp_step.
  destruct (st_exp_avg (pst s1 p)) as [ea|]; [|by autorewrite with store].
  wp_step. wp_step.
  destruct (st_exp_avg_sq (pst s1 p)) as [eas|]; [|by autorewrite with store].
  wp_step. wp_step. rewrite Hstep. wp_step. wp_step. wp_step. simpl. wp_step.
  set (tk := step_count s p + 1).
  set (s2 := with_state p _ s1).
  assert (Hst2 : st_step (pst s2 p) = Some tk) by (unfold s2; by rewrite pst_with_state).
  assert (Hsd2 : st_seed (pst s2 p) = st_seed (pst s p))
    by (unfold s2; by rewrite pst_with_state).
  destruct m; simpl.
  - destruct (st_seed (pst s p)) as [cur|] eqn:Hcur.
    + eapply wp_mono;
        [apply (compressed_update_seed g p grad ea eas tk tk cur); done| |by intros ? ? []].
      intros [] s3. simpl. destruct (tk mod g_kappa g =? 0); [|done].
      intros [Hk (nxt & Hn & Hs)]. split; [done|]. exists cur, nxt. repeat split; [|done].
      eapply stateless_ok; [apply stateless_next_seed|exact Hn].
    + unfold wp. rewrite compressed_update_no_seed by done.
      rewrite pst_with_state. split; [done|]. by intros [].
  - eapply (wp_sub (on_state same_seed p));
      [apply keeps_seed_full_update|apply raises_other_full_update| |].
    + intros ? s3 Hs. unfold on_state, same_seed in Hs. congruence.
    + intros ? s3 ? Hs. unfold on_state, same_seed in Hs. split; [congruence|done].
Qed.

Lemma next_seed_fun a b b' s s' :
  next_seed a default_adv s = Ok b s -> next_seed a default_adv s' = Ok b' s' -> b = b'.
Proof.
  intros H1 H2.
  pose proof (stateless_indep _ s s' (stateless_next_seed a default_adv)) as Hi.
  by rewrite H1, H2 in Hi.
Qed.

Lemma next_seed_all a b s :
  next_seed a default_adv s = Ok b s -> forall s', next_seed a default_adv s' = Ok b s'.
Proof. intros Hn s'. eapply stateless_ok; [apply stateless_next_seed|exact Hn]. Qed.

Lemma step_param_seed g p grad s :
  p_grad (heap s p) = Some grad ->
  wp (step_param g p)
    (fun _ s' =>
       if _should_compress g (t_shape grad) && ((step_count s p + 1) mod g_kappa g =? 0)
       then g_kappa g <> 0 /\
            exists cur nxt, st_seed (pst s p) = Some cur /\
                            next_seed cur default_adv s = Ok nxt s /\
                            st_seed (pst s' p) = Some nxt
       else st_seed (pst s' p) = st_seed (pst s p))
    (fun e s' => st_seed (pst s' p) = st_seed (pst s p) /\
                 (is_Some (st_seed (pst s p)) -> e <> KeyError "seed")) s.
Proof.
  intros Hg. unfold step_param. wp_step. wp_step. rewrite Hg. apply update_param_seed.
Qed.

Lemma div_succ (n k : Z) :
  0 < k -> (n + 1) / k = if (n + 1) mod k =? 0 then n / k + 1 else n / k.
Proof.
  intros Hk.
  pose proof (Z.div_mod n k ltac:(lia)) as Hn.
  pose proof (Z.mod_pos_bound n k Hk) as Hb.
  pose proof (Z.div_mod (n + 1) k ltac:(lia)) as Hn1.
  pose proof (Z.mod_pos_bound (n + 1) k Hk) as Hb1.
  destruct ((n + 1) mod k =? 0) eqn:E.
  - apply Z.eqb_eq in E. nia.
  - apply Z.eqb_neq in E. nia.
Qed.

Lemma run_updates_seed g p grads : forall s s' seed0,
  0 < g_kappa g ->
  Forall (fun grad => _should_compress g (t_shape grad) = true) grads ->
  st_seed (pst s p) = Some seed0 ->
  run_updates g p grads s = Ok tt s' ->
  exists sd,
    rotations
      (Z.to_nat ((step_count s p + Z.of_nat (length grads)) / g_kappa g
                 - step_count s p / g_kappa g)) seed0 sd /\
    st_seed (pst s' p) = Some sd /\
    step_count s' p = step_count s p + Z.of_nat (length grads).
Proof.
  induction grads as [|grad rest IH]; intros s s' seed0 Hk Hall Hseed Hrun.
  - injection Hrun as <-. exists seed0. simpl. rewrite Z.add_0_r, Z.sub_diag.
    split; [apply rotations_0 | split; [done | lia]].
  - apply Forall_cons in Hall as [Hc Hall].
    simpl in Hrun. unfold bind in Hrun. simpl in Hrun.
    set (s0 := mkStore _ _ _ _) in Hrun.
    assert (Hg : p_grad (heap s0 p) = Some grad) by (simpl; by rewrite fn_lookup_insert).
    assert (Hst : pst s0 p = pst s p) by reflexivity.
    pose proof (step_param_seed g p grad s0 Hg) as Hwp. unfold wp in Hwp.
    destruct (step_param g p s0) as [[] s1|] eqn:Hstep; [|done].
    rewrite Hc in Hwp. simpl in Hwp.
    pose proof (step_param_count _ _ _ _ _ _ Hg Hstep) as Hcnt.
    assert (Hsc : step_count s0 p = step_count s p) by reflexivity.
    rewrite Hsc in Hwp, Hcnt. rewrite Hst in Hwp.
    set (n := step_count s p) in *.
    pose proof (div_succ n (g_kappa g) Hk) as Hdiv.
    assert (Hmono : (n + 1) / g_kappa g <= (n + 1 + Z.of_nat (length rest)) / g_kappa g)
      by (apply Z.div_le_mono; lia).
    replace (n + Z.of_nat (length (grad :: rest)))
      with (n + 1 + Z.of_nat (length rest)) by (simpl length; lia).
    destruct ((n + 1) mod g_kappa g =? 0).
    + destruct Hwp as [_ (cur & nxt & Hcur & Hnext & Hs1)].
      rewrite Hseed in Hcur. injection Hcur as <-.
      destruct (IH s1 s' nxt Hk Hall Hs1 Hrun) as (sd & Hrot & Hsd & Hfin).
      rewrite Hcnt in Hrot, Hfin. exists sd. repeat split; [|done|done].
      replace (Z.to_nat _) with
        (S (Z.to_nat ((n + 1 + Z.of_nat (length rest)) / g_kappa g - (n + 1) / g_kappa g)))
        by lia.
      econstructor; [|exact Hrot]. by apply next_seed_all with s0.
    + rewrite Hseed in Hwp.
      destruct (IH s1 s' seed0 Hk Hall Hwp Hrun) as (sd & Hrot & Hsd & Hfin).
      rewrite Hcnt in Hrot, Hfin. exists sd. repeat split; [|done|done].
      by rewrite <- Hdiv.
Qed.

Lemma run_updates_prefix g p k grads : forall s s',
  run_updates g p grads s = Ok tt s' ->
  exists sk, run_updates g p (take k grads) s = Ok tt sk.
Proof.
  revert grads. induction k as [|k IH]; intros grads s s' Hrun.
  - exists s. by rewrite take_0.
  - destruct grads as [|grad rest]; [by exists s|].
    simpl in *. unfold bind in *. simpl in *.
    destruct (step_param g p _) as [[] s1|]; [|done].
    by apply IH with s'.
Qed.

Lemma Forall_take_compress g k (grads : list Tensor) :
  Forall (fun grad => _should_compress g (t_shape grad) = true) grads ->
  Forall (fun grad => _should_compress g (t_shape grad) = true) (take k grads).
Proof. apply Forall_take. Qed.

Lemma rotations_0_inv a b : rotations 0 a b -> b = a.
Proof. by inversion 1. Qed.

Lemma rotations_1_inv a b s : rotations 1 a b -> next_seed a default_adv s = Ok b s.
Proof.
  inversion 1 as [|n a' b' c Hn Hr]; subst. apply rotations_0_inv in Hr as ->. apply Hn.
Qed.

Lemma rotations_2_inv a c s :
  rotations 2 a c ->
  exists b, next_seed a default_adv s = Ok b s /\ next_seed b default_adv s = Ok c s.
Proof.
  inversion 1 as [|n a' b c' Hn Hr]; subst. exists b. split; [apply Hn|].
  by apply rotations_1_inv.
Qed.

(** *** Construction *)

Lemma all_params_snoc gs g : all_params (gs ++ [g]) = all_params gs ++ g_params g.
Proof. unfold all_params. rewrite map_app, concat_app. simpl. by rewrite app_nil_r. Qed.

Lemma add_groups_ok defaults gis : forall s,
  groups_disjoint (all_params (param_groups s)) gis = true ->
  for_each gis (add_param_group defaults) s =
  Ok tt (mkStore (heap s) (opt_state s)
           (param_groups s ++ map (with_defaults defaults) gis) (ambient_rng s)).
Proof.
  induction gis as [|gi rest IH]; intros s Hd; simpl in *.
  - rewrite app_nil_r. by destruct s.
  - apply andb_prop in Hd as [Hfresh Hd]. apply negb_true_iff in Hfresh.
    unfold bind, add_param_group at 1. fold (all_params (param_groups s)).
    rewrite Hfresh. rewrite IH; simpl.
    + by rewrite <- app_assoc.
    + by rewrite all_params_snoc.
Qed.

Lemma add_groups_fail defaults gis : forall s,
  groups_disjoint (all_params (param_groups s)) gis = false ->
  exists s', for_each gis (add_param_group defaults) s = Raise ValueError s'.
Proof.
  induction gis as [|gi rest IH]; intros s Hd; simpl in *; [done|].
  unfold bind, add_param_group at 1. fold (all_params (param_groups s)).
  destruct (existsb _ _) eqn:Hfresh; simpl in *; [by eexists|].
  apply IH. simpl. by rewrite all_params_snoc.
Qed.

Lemma Optimizer_init_ok params defaults s :
  params_accepted params = true ->
  Optimizer_init params defaults s =
  Ok tt (mkStore (heap s) ∅ (map (with_defaults defaults) (group_inputs params))
           (ambient_rng s)).
Proof.
  intros Hacc. unfold Optimizer_init, bind.
  destruct params as [[|p l]|[|gi l]]; try discriminate;
    unfold params_accepted in Hacc; lazy beta iota delta [ret];
    by rewrite add_groups_ok.
Qed.

Lemma Optimizer_init_fail params defaults s :
  params_accepted params = false ->
  exists s', Optimizer_init params defaults s = Raise ValueError s'.
Proof.
  intros Hacc. unfold Optimizer_init, bind.
  destruct params as [[|p l]|[|gi l]]; lazy beta iota delta [ret raise];
    try (by eexists); unfold params_accepted in Hacc;
    destruct (add_groups_fail defaults _ (mkStore (heap s) ∅ [] (ambient_rng s)) Hacc)
      as [s' Hs']; exists s'; exact Hs'.
Qed.

Lemma seed_params_spec ps : forall idx s,
  exists s', seed_params ps idx s = Ok (idx + Z.of_nat (length ps)) s' /\ seeded ps idx s s'.
Proof.
  induction ps as [|p0 ps IH]; intros idx s.
  - exists s. split; [simpl; unfold ret; f_equal; lia|]. split; auto.
    intros i p Hi. by rewrite lookup_nil in Hi.
  - simpl. unfold bind at 1. unfold get_param at 1. unfold bind at 1.
    destruct (p_requires_grad (heap s p0)) eqn:Hrg.
    + rewrite state_set_eq.
      set (s1 := with_state p0 _ s).
      destruct (IH (idx + 1) s1) as (s' & Hrun & Hs). exists s'. split.
      { rewrite Hrun. f_equal. lia. }
      destruct Hs as [H1 H2 H3 H4 H5]. split; auto.
      * intros p Hp. rewrite H4.
        -- unfold s1; simpl. rewrite lookup_insert_ne; [done|].
           intros ->. destruct Hp as [Hp|Hp]; [|congruence].
           apply Hp. by left.
        -- destruct Hp as [Hp|Hp]; [|by right].
           left. by apply not_elem_of_cons in Hp as [_ ?].
      * intros i p Hi Hlast Hp. destruct i as [|i]; simpl in *.
        -- injection Hi as ->. rewrite drop_0 in Hlast.
           unfold pst. rewrite H4 by (by left). unfold s1; simpl.
           rewrite lookup_insert_eq. simpl. f_equal. lia.
        -- rewrite (H5 i p); auto. f_equal. lia.
    + destruct (IH (idx + 1) s) as (s' & Hrun & Hs). exists s'. split.
      { unfold ret. rewrite Hrun. f_equal. lia. }
      destruct Hs as [H1 H2 H3 H4 H5]. split; auto.
      * intros p Hp. apply H4. destruct Hp as [Hp|Hp]; [|by right].
        left. by apply not_elem_of_cons in Hp as [_ ?].
      * intros i p Hi Hlast Hp. destruct i as [|i]; simpl in *.
        -- injection Hi as ->. congruence.
        -- rewrite (H5 i p); auto. f_equal. lia.
Qed.

Lemma seed_groups_spec gs : forall idx s,
  exists s' r, seed_groups gs idx s = Ok r s' /\ seeded (all_params gs) idx s s'.
Proof.
  induction gs as [|g gs IH]; intros idx s.
  - exists s, idx. split; [done|]. split; auto.
    intros i p Hi. change (all_params []) with (@nil handle) in Hi.
    by rewrite lookup_nil in Hi.
  - simpl. unfold bind.
    destruct (seed_params_spec (g_params g) idx s) as (s1 & Hrun1 & Hs1). rewrite Hrun1.
    destruct (IH (idx + Z.of_nat (length (g_params g))) s1) as (s' & r & Hrun & Hs).
    exists s', r. split; [done|].
    destruct Hs1 as [A1 A2 A3 A4 A5], Hs as [B1 B2 B3 B4 B5].
    change (all_params (g :: gs)) with (g_params g ++ all_params gs).
    split; try congruence.
    + intros p Hp. rewrite B4, A4; [done| |].
      * destruct Hp as [Hp|Hp]; [|by right]. left.
        by apply not_elem_of_app in Hp as [? _].
      * rewrite A1. destruct Hp as [Hp|Hp]; [|by right]. left.
        by apply not_elem_of_app in Hp as [_ ?].
    + intros i p Hi Hlast Hp. apply lookup_app_Some in Hi as [Hi|[Hlen Hi]].
      * assert (Hlt : (i < length (g_params g))%nat) by (by eapply lookup_lt_Some).
        rewrite drop_app_le in Hlast by lia.
        apply not_elem_of_app in Hlast as [Hl1 Hl2].
        unfold pst. rewrite B4 by (by left). by apply A5.
      * rewrite drop_app_ge in Hlast by lia.
        replace (S i - length (g_params g))%nat with (S (i - length (g_params g)))
          in Hlast by lia.
        rewrite (B5 _ p Hi Hlast) by (by rewrite A1). f_equal. lia.
Qed.

Lemma FloraAdam_init_ok params lr betas eps rank kappa seed s :
  params_accepted params = true ->
  exists s',
    FloraAdam_init params lr betas eps rank kappa seed s = Ok tt s' /\
    param_groups s' =
      map (with_defaults (mkGroup [] lr betas eps rank kappa)) (group_inputs params) /\
    seeded (all_params (param_groups s')) seed
      (mkStore (heap s) ∅ (param_groups s') (ambient_rng s)) s'.
Proof.
  intros Hacc. unfold FloraAdam_init, bind.
  rewrite Optimizer_init_ok by done. unfold get_param_groups.
  set (s1 := mkStore _ _ _ _). lazy beta iota.
  destruct (seed_groups_spec (param_groups s1) seed s1) as (s' & r & Hrun & Hs).
  rewrite Hrun. exists s'. split; [done|].
  rewrite (seeded_groups _ _ _ _ Hs). split; [done|]. exact Hs.
Qed.

Lemma FloraAdam_init_fail params lr betas eps rank kappa seed s :
  params_accepted params = false ->
  exists s', FloraAdam_init params lr betas eps rank kappa seed s = Raise ValueError s'.
Proof.
  intros Hacc. unfold FloraAdam_init, bind.
  destruct (Optimizer_init_fail params (mkGroup [] lr betas eps rank kappa) s Hacc)
    as [s' ->]. by eexists.
Qed.

Lemma last_occurrence (p : handle) (l : list handle) :
  p ∈ l -> exists i, l !! i = Some p /\ p ∉ drop (S i) l.
Proof.
  induction l as [|x l IH]; intros Hin; [by apply elem_of_nil in Hin|].
  destruct (decide (p ∈ l)) as [Hl|Hl].
  - destruct (IH Hl) as (i & Hi & Hd). by exists (S i).
  - apply elem_of_cons in Hin as [->|?]; [|done]. exists 0%nat. by split.
Qed.

Lemma all_params_with_defaults defaults gis :
  all_params (map (with_defaults defaults) gis) = concat (map gi_params gis).
Proof. unfold all_params. by rewrite map_map. Qed.

(** Which parameters hold a seed after construction. *)
Lemma seeded_iff ps idx s s' p :
  opt_state s = ∅ -> seeded ps idx s s' ->
  is_Some (st_seed (pst s' p)) <-> p ∈ ps /\ p_requires_grad (heap s p) = true.
Proof.
  intros Hempty Hs. split.
  - intros Hsome. destruct (decide (p ∈ ps)) as [Hin|Hin].
    + split; [done|]. destruct (p_requires_grad (heap s p)) eqn:Hrg; [done|].
      unfold pst in Hsome. rewrite (seeded_other _ _ _ _ Hs), Hempty, lookup_empty in Hsome
        by (by right).
      by destruct Hsome.
    + unfold pst in Hsome. rewrite (seeded_other _ _ _ _ Hs), Hempty, lookup_empty in Hsome
        by (by left).
      by destruct Hsome.
  - intros [Hin Hrg]. destruct (last_occurrence p ps Hin) as (i & Hi & Hd).
    by rewrite (seeded_last _ _ _ _ Hs i p).
Qed.

(** C4, as amended. Construction checks none of [rank], [kappa], [lr]
    and the betas: whether it succeeds depends on the parameter list
    alone (the base class refuses an empty list and a parameter held by
    two groups), and the values given are stored in the groups as they
    are. *)
Theorem construction_checks_no_option (params : params_arg) (lr : option R)
    (betas : R * R) (eps : R) (rank : option Z) (kappa seed : Z) (s : store) :
  ((exists s', FloraAdam_init params lr betas eps rank kappa seed s = Ok tt s') <->
   params_accepted params = true) /\
  (forall s', FloraAdam_init params lr betas eps rank kappa seed s = Ok tt s' ->
     param_groups s' =
     map (with_defaults (mkGroup [] lr betas eps rank kappa)) (group_inputs params)).
Proof.
  split; [split|].
  - intros [s' Hrun]. destruct (params_accepted params) eqn:Hacc; [done|].
    destruct (FloraAdam_init_fail params lr betas eps rank kappa seed s Hacc) as [s2 Hf].
    congruence.
  - intros Hacc.
    destruct (FloraAdam_init_ok params lr betas eps rank kappa seed s Hacc) as (s' & ? & _).
    by exists s'.
  - intros s' Hrun. destruct (params_accepted params) eqn:Hacc.
    + destruct (FloraAdam_init_ok params lr betas eps rank kappa seed s Hacc)
        as (s2 & Hrun2 & Hg & _). congruence.
    + destruct (FloraAdam_init_fail params lr betas eps rank kappa seed s Hacc) as [s2 Hf].
      congruence.
Qed.

(** C9. After construction, a trainable parameter holds the base seed
    plus its ordinal (counted from 1 over all parameters of all groups,
    in order; for a parameter listed twice, its last position), two
    trainable parameters hold different seeds, and a parameter whose
    position differs between two constructions gets different seeds. *)
Theorem initial_seeds (params : params_arg) (lr : option R) (betas : R * R) (eps : R)
    (rank : option Z) (kappa seed : Z) (s s' : store) :
  FloraAdam_init params lr betas eps rank kappa seed s = Ok tt s' ->
  let ps := concat (map gi_params (group_inputs params)) in
  all_params (param_groups s') = ps /\
  (forall i p, ps !! i = Some p -> p ∉ drop (S i) ps ->
     p_requires_grad (heap s p) = true ->
     st_seed (pst s' p) = Some (seed + Z.of_nat i + 1)) /\
  (forall p q, p ∈ ps -> q ∈ ps -> p <> q ->
     p_requires_grad (heap s p) = true -> p_requires_grad (heap s q) = true ->
     is_Some (st_seed (pst s' p)) /\ is_Some (st_seed (pst s' q)) /\
     st_seed (pst s' p) <> st_seed (pst s' q)) /\
  (forall params2 lr2 betas2 eps2 rank2 kappa2 s2 s2' i j p,
     FloraAdam_init params2 lr2 betas2 eps2 rank2 kappa2 seed s2 = Ok tt s2' ->
     let ps2 := concat (map gi_params (group_inputs params2)) in
     ps !! i = Some p -> p ∉ drop (S i) ps ->
     ps2 !! j = Some p -> p ∉ drop (S j) ps2 ->
     p_requires_grad (heap s p) = true -> p_requires_grad (heap s2 p) = true ->
     i <> j -> st_seed (pst s' p) <> st_seed (pst s2' p)).
Proof.
  intros Hrun ps.
  assert (Hspec : forall params lr betas eps rank kappa s s',
    FloraAdam_init params lr betas eps rank kappa seed s = Ok tt s' ->
    let ps := concat (map gi_params (group_inputs params)) in
    all_params (param_groups s') = ps /\
    forall i p, ps !! i = Some p -> p ∉ drop (S i) ps ->
      p_requires_grad (heap s p) = true ->
      st_seed (pst s' p) = Some (seed + Z.of_nat i + 1)).
  { clear. intros params lr betas eps rank kappa s s' Hrun ps.
    destruct (params_accepted params) eqn:Hacc.
    - destruct (FloraAdam_init_ok params lr betas eps rank kappa seed s Hacc)
        as (s2 & Hrun2 & Hg & Hs).
      assert (s2 = s') as -> by congruence.
      assert (Hps : all_params (param_groups s') = ps)
        by (by rewrite Hg, all_params_with_defaults).
      split; [done|]. rewrite Hps in Hs. intros i p Hi Hd Hrg.
      by apply (seeded_last _ _ _ _ Hs).
    - destruct (FloraAdam_init_fail params lr betas eps rank kappa seed s Hacc) as [s2 Hf].
      congruence. }
  destruct (Hspec _ _ _ _ _ _ _ _ Hrun) as [Hps Hlast].
  split; [done|]. split; [done|]. split.
  - intros p q Hp Hq Hne Hrp Hrq.
    destruct (last_occurrence p ps Hp) as (i & Hi & Hdi).
    destruct (last_occurrence q ps Hq) as (j & Hj & Hdj).
    rewrite (Hlast i p), (Hlast j q) by done.
    split; [done|]. split; [done|].
    intros Heq. assert (i = j) by (injection Heq; lia). congruence.
  - intros params2 lr2 betas2 eps2 rank2 kappa2 s2 s2' i j p Hrun2 ps2 Hi Hdi Hj Hdj Hrp Hrp2 Hne.
    destruct (Hspec _ _ _ _ _ _ _ _ Hrun2) as [_ Hlast2].
    rewrite (Hlast i p), (Hlast2 j p) by done.
    intros Heq. injection Heq. lia.
Qed.

(** *** The update, equation by equation *)

Lemma py_index_first a b : py_index [a; b] 0 = ret a.
Proof. reflexivity. Qed.

Lemma py_index_last a b : py_index [a; b] (-1) = ret b.
Proof. reflexivity. Qed.

Lemma init_state_compressed g p grad s rank a b :
  g_rank g = Some rank -> t_shape grad = [a; b] -> 0 <= rank -> 0 <= a -> 0 <= b ->
  init_state g p grad true s =
  Ok tt (with_state p
           (mkPState (Some 0) (st_seed (pst s p))
              (Some (torch.to (torch.zeros (cshape rank a b)) grad))
              (Some (torch.zeros_like (p_data (heap s p))))) s).
Proof.
  intros Hr Hsh H0 Ha Hb. unfold init_state, bind, get_param.
  rewrite state_set_eq, Hsh, py_index_first, py_index_last, Hr.
  unfold torch_zeros. cbv beta iota delta [ret lift].
  change (if a <? b then [rank; b] else [a; rank]) with (cshape rank a b).
  assert (Hpos : forallb (Z.leb 0) (cshape rank a b) = true).
  { unfold cshape. destruct (a <? b); simpl; rewrite !andb_true_r;
      apply andb_true_intro; split; by apply Z.leb_le. }
  rewrite Hpos. rewrite !state_set_eq. simpl.
  by rewrite !pst_with_state, !with_state_twice.
Qed.

Lemma init_state_full g p grad s :
  init_state g p grad false s =
  Ok tt (with_state p
           (mkPState (Some 0) (st_seed (pst s p))
              (Some (torch.zeros_like (p_data (heap s p))))
              (Some (torch.zeros_like (p_data (heap s p))))) s).
Proof.
  unfold init_state, bind, get_param. rewrite !state_set_eq. simpl.
  by rewrite !pst_with_state, !with_state_twice.
Qed.

Lemma update_param_initialised m g p grad s n ea eas :
  st_step (pst s p) = Some n -> st_exp_avg (pst s p) = Some ea ->
  st_exp_avg_sq (pst s p) = Some eas ->
  update_param m g p grad s =
  branch m g p grad ea eas (n + 1)
    (with_state p (mkPState (Some (n + 1)) (st_seed (pst s p)) (Some ea) (Some eas)) s).
Proof.
  intros Hn Hea Heas. unfold update_param, bind at 1. rewrite self_state_eq.
  assert (Htest : (dict_nonempty (pst s p) && negb (bool_decide (is_Some (st_step (pst s p)))))
                  || negb (dict_nonempty (pst s p)) = false).
  { apply not_true_iff_false. rewrite init_test. congruence. }
  unfold bind at 1. rewrite Htest. unfold ret.
  unfold bind. rewrite !state_get_eq, !pst_with_state, Hea.
  rewrite !state_get_eq, !pst_with_state, Heas.
  rewrite !state_get_eq, !pst_with_state, Hn.
  rewrite !state_set_eq, !pst_with_state. rewrite !state_get_eq, !pst_with_state. simpl.
  rewrite !with_state_twice. unfold set_step. rewrite Hea, Heas. simpl.
  by destruct m.
Qed.

Lemma update_param_fresh m g p grad s sd ea eas :
  st_step (pst s p) = None ->
  init_state g p grad m (with_state p (pst s p) s) =
    Ok tt (with_state p (mkPState (Some 0) sd (Some ea) (Some eas)) s) ->
  update_param m g p grad s =
  branch m g p grad ea eas 1
    (with_state p (mkPState (Some 1) sd (Some ea) (Some eas)) s).
Proof.
  intros Hn Hinit. unfold update_param, bind at 1. rewrite self_state_eq.
  assert (Htest : (dict_nonempty (pst s p) && negb (bool_decide (is_Some (st_step (pst s p)))))
                  || negb (dict_nonempty (pst s p)) = true) by (by apply init_test).
  unfold bind at 1. rewrite Htest, Hinit.
  unfold bind. rewrite !state_get_eq, !pst_with_state. simpl.
  rewrite !state_get_eq, !pst_with_state. simpl.
  rewrite !state_get_eq, !pst_with_state. simpl.
  rewrite !state_set_eq, !pst_with_state. rewrite !state_get_eq, !pst_with_state. simpl.
  rewrite !with_state_twice. by destruct m.
Qed.

Lemma update_param_needs_seed g p grad s :
  st_seed (pst s p) = None ->
  wp (update_param true g p grad) (fun _ _ => False) (fun _ _ => True) s.
Proof.
  intros Hseed. unfold update_param. wp_step. wp_step. wp_step.
  apply wp_mono with (Q := fun _ s1 => st_seed (pst s1 p) = None) (E := fun _ _ => True).
  { destruct (_ || _).
    - eapply (wp_keeps (on_state same_seed p)); [apply keeps_seed_init_state| |done].
      intros ? s1 Hs. unfold on_state, same_seed in Hs. by rewrite Hs, pst_with_state.
    - by wp_step. }
  2: done.
  intros [] s1 Hs1. wp_step. wp_step. destruct (st_exp_avg (pst s1 p)); [|done].
  wp_step. wp_step. destruct (st_exp_avg_sq (pst s1 p)); [|done].
  wp_step. wp_step. destruct (st_step (pst s1 p)); [|done].
  wp_step. wp_step. wp_step. wp_step. cbn [st_step set_step].
  unfold wp. rewrite compressed_update_no_seed; [done|]. by rewrite pst_with_state.
Qed.

(** C10. Construction gives a seed to exactly the parameters that
    require grad. An update on the compressed path of a parameter
    without a seed cannot complete: it raises [KeyError('seed')], after
    the state was initialised and the step counter incremented. With a
    seed present that error is never raised. *)
Theorem seed_required_by_compressed_path :
  (forall params lr betas eps rank kappa seed s s' p,
     FloraAdam_init params lr betas eps rank kappa seed s = Ok tt s' ->
     is_Some (st_seed (pst s' p)) <->
     p ∈ all_params (param_groups s') /\ p_requires_grad (heap s p) = true) /\
  (forall g p grad s,
     p_grad (heap s p) = Some grad -> _should_compress g (t_shape grad) = true ->
     st_seed (pst s p) = None ->
     (forall a s', step_param g p s <> Ok a s') /\
     (st_step (pst s p) = None \/
      (is_Some (st_exp_avg (pst s p)) /\ is_Some (st_exp_avg_sq (pst s p))) ->
      exists s', step_param g p s = Raise (KeyError "seed") s' /\
                 step_count s' p = step_count s p + 1)) /\
  (forall g p s e s',
     is_Some (st_seed (pst s p)) -> step_param g p s = Raise e s' -> e <> KeyError "seed").
Proof.
  split; [|split].
  - intros params lr betas eps rank kappa seed s s' p Hrun.
    destruct (params_accepted params) eqn:Hacc.
    + destruct (FloraAdam_init_ok params lr betas eps rank kappa seed s Hacc)
        as (s2 & Hrun2 & _ & Hs).
      assert (s2 = s') as -> by congruence.
      by apply (seeded_iff _ _ _ _ p) in Hs.
    + destruct (FloraAdam_init_fail params lr betas eps rank kappa seed s Hacc) as [s2 Hf].
      congruence.
  - intros g p grad s Hg Hc Hseed.
    assert (Hstep : step_param g p s = update_param true g p grad s).
    { unfold step_param, bind, get_param. by rewrite Hg, Hc. }
    rewrite Hstep. split.
    + intros a s' Hrun. pose proof (update_param_needs_seed g p grad s Hseed) as Hwp.
      unfold wp in Hwp. by rewrite Hrun in Hwp.
    + apply should_compress_iff in Hc as (rank & a & b & Hr & Hr0 & Hsh & Hmin & _).
      intros [Hfresh|[[ea Hea] [eas Heas]]].
      * erewrite update_param_fresh; [|done|].
        2: { rewrite (init_state_compressed g p grad _ rank a b); try done; try lia.
             by rewrite pst_with_state, with_state_twice. }
        unfold branch. rewrite compressed_update_no_seed by (by rewrite pst_with_state).
        eexists. split; [done|]. unfold step_count.
        by rewrite !pst_with_state, Hfresh.
      * destruct (st_step (pst s p)) as [n|] eqn:Hn.
        -- erewrite update_param_initialised by done.
           unfold branch. rewrite compressed_update_no_seed by (by rewrite pst_with_state).
           eexists. split; [done|]. unfold step_count.
           by rewrite !pst_with_state, Hn.
        -- erewrite update_param_fresh; [|done|].
           2: { rewrite (init_state_compressed g p grad _ rank a b); try done; try lia.
                by rewrite pst_with_state, with_state_twice. }
           unfold branch. rewrite compressed_update_no_seed by (by rewrite pst_with_state).
           eexists. split; [done|]. unfold step_count.
           by rewrite !pst_with_state, Hn.
  - intros g p s e s' Hsome Hrun.
    destruct (p_grad (heap s p)) as [grad|] eqn:Hg.
    + pose proof (step_param_seed g p grad s Hg) as Hwp. unfold wp in Hwp.
      rewrite Hrun in Hwp. by apply Hwp.
    + unfold step_param, bind, get_param in Hrun. by rewrite Hg in Hrun.
Qed.

(** *** The full path *)

Lemma zip_with_map_l {A A' B C} (f : A' -> B -> C) (h : A -> A') l k :
  zip_with f (map h l) k = zip_with (fun x y => f (h x) y) l k.
Proof. revert k. induction l as [|x l IH]; intros [|y k]; simpl; f_equal; auto. Qed.

Lemma zip_with_same_r {A B C} (f : A -> C -> C) (h : B -> B -> C) l k :
  zip_with f l (zip_with h k k) = zip_with (fun x y => f x (h y y)) l k.
Proof. revert k. induction l as [|x l IH]; intros [|y k]; simpl; f_equal; auto. Qed.

Lemma zip_with_pointwise {A B C} (f f' : A -> B -> C) l k :
  (forall x y, f x y = f' x y) -> zip_with f l k = zip_with f' l k.
Proof. intros Hf. revert k. induction l as [|x l IH]; intros [|y k]; simpl; f_equal; auto. Qed.

Lemma zip_with_zip_maps {A B B' C C' D E} (f : A -> D -> E) (h : B' -> C' -> D)
    (a : B -> B') (b : C -> C') xs ms vs :
  zip_with f xs (zip_with h (map a ms) (map b vs)) =
  zip_with (fun x mv => f x (h (a (fst mv)) (b (snd mv)))) xs (zip ms vs).
Proof.
  revert ms vs. induction xs as [|x xs IH]; intros [|m ms] [|v vs]; simpl; f_equal; auto.
Qed.

Lemma expand_to_same s t : t_shape t = s -> torch.expand_to s t = Some (t_data t).
Proof. intros Hs. unfold torch.expand_to. by rewrite decide_True. Qed.

(** The data the full path computes, in the form of [adam_step]. *)
Lemma full_path_data lr beta1 beta2 eps t (x m v g : list R) :
  let m' := zip_with (fun a b => a + (1 - beta1) * b)%R (map (fun a => a * beta1)%R m) g in
  let v' := zip_with (fun a b => a + (1 - beta2) * b)%R (map (fun a => a * beta2)%R v)
              (zip_with Rmult g g) in
  (zip_with (fun a b => a + - lr * b)%R x
     (zip_with Rdiv
        (map (fun a => a / (1 - powerRZ beta1 t))%R m')
        (map (fun a => a + eps)%R
           (map R_sqrt.sqrt (map (fun a => a / (1 - powerRZ beta2 t))%R v')))),
   m', v') = adam_step lr beta1 beta2 eps t x m v g.
Proof.
  intros m' v'. unfold adam_step.
  assert (Hm : m' = zip_with (adam_exp_avg beta1) m g).
  { unfold m'. rewrite zip_with_map_l. apply zip_with_pointwise.
    intros a b. unfold adam_exp_avg. ring. }
  assert (Hv : v' = zip_with (adam_exp_avg_sq beta2) v g).
  { unfold v'. rewrite zip_with_map_l, zip_with_same_r. apply zip_with_pointwise.
    intros a b. unfold adam_exp_avg_sq. ring. }
  rewrite <- Hm, <- Hv. f_equal. f_equal.
  rewrite !map_map, zip_with_zip_maps. apply zip_with_pointwise.
  intros a [b c]. unfold adam_param. simpl. unfold Rdiv. ring.
Qed.

Lemma heap_with_state p st s : heap (with_state p st s) = heap s.
Proof. reflexivity. Qed.

Lemma full_update_adam g p grad ea eas t s lr sd stp :
  g_lr g = Some lr ->
  pst s p = mkPState stp sd (Some ea) (Some eas) ->
  t_shape ea = t_shape grad -> t_shape eas = t_shape grad ->
  t_shape (p_data (heap s p)) = t_shape grad ->
  full_update g p grad ea eas t s =
  let '(x', m', v') :=
    adam_step lr (fst (g_betas g)) (snd (g_betas g)) (g_eps g) t
      (t_data (p_data (heap s p))) (t_data ea) (t_data eas) (t_data grad) in
  Ok tt (with_param_data p (torch.with_data (p_data (heap s p)) x')
           (with_state p
              (mkPState stp sd (Some (torch.with_data ea m')) (Some (torch.with_data eas v')))
              s)).
Proof.
  intros Hlr Hst Hea Heas Hp.
  rewrite <- full_path_data. cbv zeta.
  unfold full_update, update_exp_avg, update_exp_avg_sq, param_addcdiv, bind.
  rewrite !state_set_eq.
  unfold torch.add_. rewrite expand_to_same by (simpl; congruence).
  cbv beta iota delta [lift ret]. rewrite !state_set_eq.
  unfold torch.addcmul_. rewrite expand_to_same by (simpl; congruence).
  cbv beta iota delta [lift ret]. rewrite !state_set_eq.
  rewrite Hlr. cbv beta iota delta [lift ret option_map get_param].
  unfold torch.addcdiv_. rewrite !heap_with_state.
  rewrite !expand_to_same by (simpl; congruence).
  cbv beta iota delta [lift ret]. rewrite set_data_eq.
  rewrite !pst_with_state, !with_state_twice, Hst. reflexivity.
Qed.

(** C5, as amended. An update at which the policy answers false (as
    it always does when [rank] is unset) is standard Adam, whichever
    path initialised the state: both moments are the beta moving
    averages taken in full space, and the parameter is decremented by
    [lr * corrected_avg / (sqrt(corrected_avg_sq) + eps)] with the bias
    corrections [1 - beta ** t]; no projection is involved, and the
    seed is not touched. The path is that of the call, not of the
    state: a state initialised on the full path is updated with
    projection once the policy answers true. *)
Theorem full_path_is_adam (g : group) (p : handle) (grad : Tensor) (s : store) (lr : R)
    (n : Z) (m v : Tensor) :
  p_grad (heap s p) = Some grad ->
  g_rank g = None \/ _should_compress g (t_shape grad) = false ->
  g_lr g = Some lr ->
  moments s p = Some (n, m, v) ->
  t_shape m = t_shape grad -> t_shape v = t_shape grad ->
  t_shape (p_data (heap s p)) = t_shape grad ->
  let '(x', m', v') :=
    adam_step lr (fst (g_betas g)) (snd (g_betas g)) (g_eps g) (n + 1)
      (t_data (p_data (heap s p))) (t_data m) (t_data v) (t_data grad) in
  step_param g p s =
  Ok tt (with_param_data p (torch.with_data (p_data (heap s p)) x')
           (with_state p
              (mkPState (Some (n + 1)) (st_seed (pst s p))
                 (Some (torch.with_data m m')) (Some (torch.with_data v v')))
              s)).
Proof.
  intros Hg Hmode Hlr Hmom Hm Hv Hp.
  assert (Hc : _should_compress g (t_shape grad) = false).
  { destruct Hmode as [Hr|Hc]; [|done]. unfold _should_compress. by rewrite Hr. }
  assert (Hstep : step_param g p s = update_param false g p grad s).
  { unfold step_param, bind, get_param. by rewrite Hg, Hc. }
  rewrite Hstep. unfold moments in Hmom.
  destruct (st_step (pst s p)) as [n0|] eqn:Hn.
  - destruct (st_exp_avg (pst s p)) as [m0|] eqn:Hm0; [|done].
    destruct (st_exp_avg_sq (pst s p)) as [v0|] eqn:Hv0; [|done].
    injection Hmom as -> -> ->.
    rewrite (update_param_initialised false g p grad s n m v) by done.
    unfold branch.
    rewrite (full_update_adam g p grad m v (n + 1) _ lr (st_seed (pst s p)) (Some (n + 1)));
      try done; [|by rewrite pst_with_state].
    rewrite heap_with_state. destruct (adam_step _ _ _ _ _ _ _ _ _) as [[x' m'] v'].
    by rewrite with_state_twice.
  - injection Hmom as <- <- <-.
    rewrite (update_param_fresh false g p grad s (st_seed (pst s p))
               (torch.zeros_like (p_data (heap s p))) (torch.zeros_like (p_data (heap s p))));
      [|done|].
    2: { rewrite init_state_full. by rewrite pst_with_state, with_state_twice. }
    unfold branch.
    rewrite (full_update_adam g p grad _ _ 1 _ lr (st_seed (pst s p)) (Some 1));
      try done; [|by rewrite pst_with_state].
    rewrite heap_with_state. change (0 + 1) with 1.
    destruct (adam_step _ _ _ _ _ _ _ _ _) as [[x' m'] v'].
    by rewrite with_state_twice.
Qed.

(** *** Randomness and projections *)

(** C8. [stable_randn] is a function of its arguments: two calls with
    the same shape, seed, device and dtype return the same tensor (or
    raise the same error) whatever the store, the state of the default
    generator included; the call leaves the store, and with it the
    default generator, as it found it; and the entries are the draws of
    the generator made by [manual_seed] from the seed given. A draw
    without a generator, by contrast, reads and advances the default
    one. *)
Theorem stable_randn_private_stream (shape : list Z) (seed : Z) (dev : option device)
    (dt : dtype) :
  (forall s1 s2,
     match stable_randn shape seed dev dt s1, stable_randn shape seed dev dt s2 with
     | Ok a _, Ok b _ => a = b
     | Raise e1 _, Raise e2 _ => e1 = e2
     | _, _ => False
     end) /\
  (forall s, final (stable_randn shape seed dev dt s) = s) /\
  (forall s g,
     manual_seed (default cpu dev) seed = Some g -> forallb (Z.leb 0) shape = true ->
     stable_randn shape seed dev dt s =
     Ok (mkTensor shape
           (map (randn_draw g dt (torch.numel shape)) (seq 0 (torch.numel shape)))
           (default cpu dev) dt) s) /\
  (forall s,
     forallb (Z.leb 0) shape = true ->
     torch_randn shape None (default cpu dev) dt s =
     Ok (mkTensor shape
           (map (randn_draw (ambient_rng s) dt (torch.numel shape))
              (seq 0 (torch.numel shape)))
           (default cpu dev) dt)
        (mkStore (heap s) (opt_state s) (param_groups s)
           (randn_next (ambient_rng s) dt (torch.numel shape)))).
Proof.
  split; [|split; [|split]].
  - intros s1 s2. apply stateless_indep, stateless_stable_randn.
  - intros s. apply stateless_final, stateless_stable_randn.
  - intros s g Hg Hpos. unfold stable_randn, bind.
    replace (match dev with Some d => d | None => cpu end) with (default cpu dev)
      by (by destruct dev).
    rewrite Hg. unfold lift, ret, torch_randn. by rewrite Hpos.
  - intros s Hpos. unfold torch_randn. by rewrite Hpos.
Qed.

Lemma stable_randn_eq rows cols sd dev dt s :
  0 <= rows -> 0 <= cols ->
  stable_randn [rows; cols] sd (Some dev) dt s =
  match manual_seed dev sd with
  | Some g =>
      Ok (mkTensor [rows; cols]
            (map (randn_draw g dt (torch.numel [rows; cols]))
               (seq 0 (torch.numel [rows; cols]))) dev dt) s
  | None => Raise RuntimeError s
  end.
Proof.
  intros Hr Hc. unfold stable_randn, bind. destruct (manual_seed dev sd); [|done].
  unfold lift, ret, torch_randn.
  assert (Hpos : forallb (Z.leb 0) [rows; cols] = true).
  { simpl. rewrite andb_true_r. apply andb_true_intro. split; by apply Z.leb_le. }
  by rewrite Hpos.
Qed.

Lemma math_sqrt_eq rank s : 0 <= rank -> math_sqrt rank s = Ok (R_sqrt.sqrt (IZR rank)) s.
Proof. intros Hk. unfold math_sqrt. by rewrite (proj2 (Z.ltb_ge rank 0) Hk). Qed.

Lemma div_scalar_randn g rows cols rank dev dt :
  torch.div_scalar
    (mkTensor [rows; cols]
       (map (randn_draw g dt (torch.numel [rows; cols])) (seq 0 (torch.numel [rows; cols])))
       dev dt)
    (R_sqrt.sqrt (IZR rank)) =
  projection_matrix g rows cols rank dev dt.
Proof.
  unfold torch.div_scalar, torch.with_data, projection_matrix. simpl. by rewrite map_map.
Qed.

Lemma down_proj_eq seed rank lseed rseed a b x s :
  split_seed seed s = Ok [lseed; rseed] s -> 0 <= rank -> 0 <= a -> 0 <= b ->
  t_shape x = [a; b] ->
  _down_proj seed rank x s =
  if a <? b then
    match manual_seed (t_device x) lseed with
    | Some g =>
        lift RuntimeError
          (torch.matmul (projection_matrix g rank a rank (t_device x) (t_dtype x)) x) s
    | None => Raise RuntimeError s
    end
  else
    match manual_seed (t_device x) rseed with
    | Some g =>
        lift RuntimeError
          (torch.matmul x (projection_matrix g b rank rank (t_device x) (t_dtype x))) s
    | None => Raise RuntimeError s
    end.
Proof.
  intros Hsplit Hrank Ha Hb Hx.
  unfold _down_proj, bind. rewrite Hsplit. cbv beta iota delta [unpack2 ret].
  rewrite Hx, py_index_first, py_index_last. cbv beta iota delta [ret].
  destruct (a <? b); rewrite stable_randn_eq by done;
    (destruct (manual_seed _ _); [|done]);
    by rewrite math_sqrt_eq, div_scalar_randn.
Qed.

Lemma up_proj_eq seed rank lseed rseed a b c s :
  split_seed seed s = Ok [lseed; rseed] s -> 0 <= rank -> 0 <= a -> 0 <= b ->
  _up_proj seed rank [a; b] c s =
  if a <? b then
    match manual_seed (t_device c) lseed with
    | Some g =>
        match torch.t (projection_matrix g rank a rank (t_device c) (t_dtype c)) with
        | Some left_t => lift RuntimeError (torch.matmul left_t c) s
        | None => Raise RuntimeError s
        end
    | None => Raise RuntimeError s
    end
  else
    match manual_seed (t_device c) rseed with
    | Some g =>
        match torch.t (projection_matrix g b rank rank (t_device c) (t_dtype c)) with
        | Some right_t => lift RuntimeError (torch.matmul c right_t) s
        | None => Raise RuntimeError s
        end
    | None => Raise RuntimeError s
    end.
Proof.
  intros Hsplit Hrank Ha Hb.
  unfold _up_proj, bind. rewrite Hsplit. cbv beta iota delta [unpack2 ret].
  rewrite py_index_first, py_index_last. cbv beta iota delta [ret].
  destruct (a <? b); rewrite stable_randn_eq by done;
    (destruct (manual_seed _ _); [|done]);
    rewrite math_sqrt_eq, div_scalar_randn by done;
    by destruct (torch.t _).
Qed.

Lemma matmul_shape x y m k n :
  t_shape x = [m; k] -> t_shape y = [k; n] ->
  exists z, torch.matmul x y = Some z /\ t_shape z = [m; n] /\
            t_device z = t_device x /\ t_dtype z = t_dtype x.
Proof.
  intros Hx Hy. unfold torch.matmul. rewrite Hx, Hy, decide_True by done.
  by eexists.
Qed.

Lemma t_shape_matrix x m n :
  t_shape x = [m; n] ->
  exists z, torch.t x = Some z /\ t_shape z = [n; m] /\
            t_device z = t_device x /\ t_dtype z = t_dtype x.
Proof. intros Hx. unfold torch.t. rewrite Hx. by eexists. Qed.

Lemma split_seed_eq seed g s :
  manual_seed cpu seed = Some g ->
  split_seed seed s =
  Ok [randint_draw g 0 int64_max 2 0; randint_draw g 0 int64_max 2 1] s.
Proof. intros Hg. unfold split_seed, bind. by rewrite Hg. Qed.

(** C6. With [(lseed, rseed) = split_seed(seed)] and a tensor of shape
    [(a, b)]: when [a < b] both projections use the matrix [L] of shape
    [(rank, a)] drawn from the generator seeded with [lseed] and scaled
    by [1 / sqrt(rank)], [_down_proj] returns [L @ tensor] and
    [_up_proj] returns [L.t() @ ctensor]; otherwise they use [R] of
    shape [(b, rank)] drawn from the generator seeded with [rseed], and
    return [tensor @ R] and [ctensor @ R.t()]. *)
Theorem projection_operators (seed rank lseed rseed a b : Z) (x c : Tensor) (s : store) :
  split_seed seed s = Ok [lseed; rseed] s ->
  0 < rank -> 0 <= a -> 0 <= b ->
  t_shape x = [a; b] ->
  (a < b ->
     (forall g, manual_seed (t_device x) lseed = Some g ->
        let L := projection_matrix g rank a rank (t_device x) (t_dtype x) in
        t_shape L = [rank; a] /\
        exists y, torch.matmul L x = Some y /\ t_shape y = [rank; b] /\
                  _down_proj seed rank x s = Ok y s) /\
     (forall g, manual_seed (t_device c) lseed = Some g -> t_shape c = [rank; b] ->
        let L := projection_matrix g rank a rank (t_device c) (t_dtype c) in
        exists Lt y, torch.t L = Some Lt /\ torch.matmul Lt c = Some y /\
                     t_shape y = [a; b] /\ _up_proj seed rank [a; b] c s = Ok y s)) /\
  (b <= a ->
     (forall g, manual_seed (t_device x) rseed = Some g ->
        let R := projection_matrix g b rank rank (t_device x) (t_dtype x) in
        t_shape R = [b; rank] /\
        exists y, torch.matmul x R = Some y /\ t_shape y = [a; rank] /\
                  _down_proj seed rank x s = Ok y s) /\
     (forall g, manual_seed (t_device c) rseed = Some g -> t_shape c = [a; rank] ->
        let R := projection_matrix g b rank rank (t_device c) (t_dtype c) in
        exists Rt y, torch.t R = Some Rt /\ torch.matmul c Rt = Some y /\
                     t_shape y = [a; b] /\ _up_proj seed rank [a; b] c s = Ok y s)).
Proof.
  intros Hsplit Hrank Ha Hb Hx.
  assert (Hr0 : 0 <= rank) by lia.
  split; intros Hab; split.
  - intros g Hg L. split; [done|].
    destruct (matmul_shape L x rank a b) as (y & Hy & Hsh & _); [done|done|].
    exists y. split; [done|]. split; [done|].
    rewrite (down_proj_eq seed rank lseed rseed a b) by done.
    rewrite (proj2 (Z.ltb_lt a b) Hab), Hg. fold L. by rewrite Hy.
  - intros g Hg Hc L.
    destruct (t_shape_matrix L rank a) as (Lt & HLt & Hsh & _); [done|].
    destruct (matmul_shape Lt c a rank b) as (y & Hy & Hshy & _); [done|done|].
    exists Lt, y. split; [done|]. split; [done|]. split; [done|].
    rewrite (up_proj_eq seed rank lseed rseed a b) by done.
    rewrite (proj2 (Z.ltb_lt a b) Hab), Hg. fold L. by rewrite HLt, Hy.
  - intros g Hg R0. split; [done|].
    destruct (matmul_shape x R0 a b rank) as (y & Hy & Hsh & _); [done|done|].
    exists y. split; [done|]. split; [done|].
    rewrite (down_proj_eq seed rank lseed rseed a b) by done.
    rewrite (proj2 (Z.ltb_ge a b) Hab), Hg. fold R0. by rewrite Hy.
  - intros g Hg Hc R0.
    destruct (t_shape_matrix R0 b rank) as (Rt & HRt & Hsh & _); [done|].
    destruct (matmul_shape c Rt a rank b) as (y & Hy & Hshy & _); [done|done|].
    exists Rt, y. split; [done|]. split; [done|]. split; [done|].
    rewrite (up_proj_eq seed rank lseed rseed a b) by done.
    rewrite (proj2 (Z.ltb_ge a b) Hab), Hg. fold R0. by rewrite HRt, Hy.
Qed.

(** *** The mode of the first moment *)

Ltac store_done := try autorewrite with store; first [done | congruence].

#[local] Instance same_exp_avg_shape_refl : Reflexive same_exp_avg_shape.
Proof. by intros a. Qed.
#[local] Instance same_exp_avg_shape_trans : Transitive same_exp_avg_shape.
Proof. unfold same_exp_avg_shape. intros a b c ? ?. congruence. Qed.

Lemma keeps_shape_update_exp_avg_sq p a b c :
  keeps (on_state same_exp_avg_shape p) (update_exp_avg_sq p a b c).
Proof. unfold update_exp_avg_sq. keeps_tac. Qed.

Lemma keeps_shape_param_addcdiv p a b c :
  keeps (on_state same_exp_avg_shape p) (param_addcdiv p a b c).
Proof. unfold param_addcdiv. keeps_tac. Qed.

Lemma with_data_shape x d : t_shape (torch.with_data x d) = t_shape x.
Proof. reflexivity. Qed.

Lemma add__shape x y alpha r : torch.add_ x y alpha = Some r -> t_shape r = t_shape x.
Proof. unfold torch.add_. destruct (torch.expand_to _ _); [|done]. by intros [= <-]. Qed.

Lemma copy__shape x y r : torch.copy_ x y = Some r -> t_shape r = t_shape x.
Proof. unfold torch.copy_. destruct (torch.expand_to _ _); [|done]. by intros [= <-]. Qed.

Lemma update_exp_avg_shape p ea g beta1 s :
  t_shape <$> st_exp_avg (pst s p) = Some (t_shape ea) ->
  wp (update_exp_avg p ea g beta1)
    (fun r s' => t_shape r = t_shape ea /\ on_state same_exp_avg_shape p s s')
    (fun _ s' => on_state same_exp_avg_shape p s s') s.
Proof.
  intros Hsh. unfold update_exp_avg, on_state, same_exp_avg_shape.
  wp_step. wp_step. wp_step. wp_step.
  destruct (torch.add_ _ _ _) as [r|] eqn:Hadd.
  - apply add__shape in Hadd. wp_step. wp_step. wp_step. simpl in *.
    rewrite Hsh. split; congruence.
  - by rewrite Hsh.
Qed.

Lemma rotate_shape g p sh r sd s :
  wp (rotate g p sh r sd)
    (fun _ s' => on_state same_exp_avg_shape p s s')
    (fun _ s' => on_state same_exp_avg_shape p s s') s.
Proof.
  unfold rotate, on_state, same_exp_avg_shape. wp_step. wp_step.
  destruct (st_step (pst s p)); [|store_done].
  destruct (g_kappa g =? 0); [wp_step; store_done|].
  destruct (_ =? 0); [|wp_step; store_done].
  wp_step. wp_step. destruct (st_seed (pst s p)); [|store_done].
  wp_step.
  apply wp_stateless; [apply stateless_next_seed| |intros; store_done].
  intros nxt _. wp_step. wp_step.
  destruct (st_exp_avg (pst s p)) as [ea|] eqn:Hea; [|store_done].
  wp_step. wp_step. rewrite Hea. wp_step.
  apply wp_stateless; [apply stateless_up_proj| |intros; store_done].
  intros full _. wp_step.
  apply wp_stateless; [apply stateless_down_proj| |intros; store_done].
  intros down _. wp_step. wp_step.
  destruct (torch.copy_ _ _) as [c|] eqn:Hc; [|store_done].
  apply copy__shape in Hc. wp_step. wp_step. wp_step. simpl. rewrite ?Hea. simpl.
  by rewrite Hc.
Qed.

Lemma branch_shape m g p grad ea eas t s :
  t_shape <$> st_exp_avg (pst s p) = Some (t_shape ea) ->
  wp (branch m g p grad ea eas t)
    (fun _ s' => on_state same_exp_avg_shape p s s')
    (fun _ s' => on_state same_exp_avg_shape p s s') s.
Proof.
  intros Hsh.
  assert (Hnext : forall A (c : M A) s1,
    on_state same_exp_avg_shape p s s1 -> keeps (on_state same_exp_avg_shape p) c ->
    wp c (fun _ s' => on_state same_exp_avg_shape p s s')
      (fun _ s' => on_state same_exp_avg_shape p s s') s1).
  { intros A c s1 H1 Hk. eapply wp_keeps; [exact Hk| |]; intros; by etrans. }
  destruct m; unfold branch.
  - unfold compressed_update. wp_step. wp_step.
    destruct (st_seed (pst s p)); [|unfold on_state; store_done].
    wp_step. wp_step. destruct (g_rank g); [|unfold on_state; store_done].
    wp_step.
    apply wp_stateless; [apply stateless_down_proj| |
                         intros; unfold on_state; store_done].
    intros cgrad _. wp_step.
    set (s0 := with_state p (pst s p) s).
    assert (H0 : on_state same_exp_avg_shape p s s0)
      by (unfold on_state, s0; by rewrite pst_with_state).
    eapply wp_mono; [apply update_exp_avg_shape; unfold s0; by rewrite pst_with_state| |].
    2: { intros e s1 H1. by etrans. }
    intros ea1 s1 [Hea1 H1]. pose proof (transitivity H0 H1) as H01. wp_step.
    eapply (wp_keeps (on_state same_exp_avg_shape p)); [apply keeps_shape_update_exp_avg_sq| |].
    2: { intros e s2 H2. by etrans. }
    intros eas1 s2 H2. pose proof (transitivity H01 H2) as H02. wp_step.
    apply wp_stateless; [apply stateless_up_proj| |done].
    intros update _. wp_step.
    eapply (wp_keeps (on_state same_exp_avg_shape p)); [apply keeps_shape_param_addcdiv| |].
    2: { intros e s3 H3. by etrans. }
    intros [] s3 H3. pose proof (transitivity H02 H3) as H03.
    eapply wp_mono; [apply rotate_shape| |]; intros; by etrans.
  - unfold full_update. wp_step.
    eapply wp_mono; [by apply update_exp_avg_shape| |done].
    intros ea1 s1 [Hea1 H1]. wp_step.
    eapply (wp_keeps (on_state same_exp_avg_shape p)); [apply keeps_shape_update_exp_avg_sq| |].
    2: { intros e s2 H2. by etrans. }
    intros eas1 s2 H2. pose proof (transitivity H1 H2) as H02.
    apply Hnext; [done|apply keeps_shape_param_addcdiv].
Qed.

Lemma should_compress_ext g1 g2 shape :
  g_rank g1 = g_rank g2 -> _should_compress g1 shape = _should_compress g2 shape.
Proof. intros Hr. unfold _should_compress. by rewrite Hr. Qed.

(** C2, as amended. The policy is evaluated at every update, against
    the rank of the group and the shape of the gradient of that call,
    and the update takes the branch of that evaluation; the answer
    depends on nothing else, so updates with the same rank and the same
    gradient shape take the same branch. What is fixed at state
    initialisation is the shape of the first moment: no later update,
    however it ends, changes it. *)
Theorem policy_evaluated_at_every_update (g : group) (p : handle) (grad : Tensor)
    (s : store) :
  p_grad (heap s p) = Some grad ->
  step_param g p s = update_param (_should_compress g (t_shape grad)) g p grad s /\
  (forall g' grad',
     g_rank g' = g_rank g -> t_shape grad' = t_shape grad ->
     _should_compress g' (t_shape grad') = _should_compress g (t_shape grad)) /\
  (forall n ea eas,
     st_step (pst s p) = Some n -> st_exp_avg (pst s p) = Some ea ->
     st_exp_avg_sq (pst s p) = Some eas ->
     exists ea', st_exp_avg (pst (final (step_param g p s)) p) = Some ea' /\
                 t_shape ea' = t_shape ea).
Proof.
  intros Hg.
  assert (Hstep : step_param g p s =
                  update_param (_should_compress g (t_shape grad)) g p grad s).
  { unfold step_param, bind, get_param. by rewrite Hg. }
  split; [done|]. split.
  - intros g' grad' Hr ->. by apply should_compress_ext.
  - intros n ea eas Hn Hea Heas. rewrite Hstep.
    rewrite (update_param_initialised _ g p grad s n ea eas) by done.
    set (s1 := with_state p _ s).
    pose proof (branch_shape (_should_compress g (t_shape grad)) g p grad ea eas (n + 1) s1)
      as Hwp.
    apply wp_final in Hwp; [|unfold s1; by rewrite pst_with_state].
    unfold on_state, same_exp_avg_shape in Hwp. unfold s1 at 2 in Hwp.
    rewrite pst_with_state in Hwp. simpl in Hwp.
    destruct (st_exp_avg (pst (final _) p)) as [ea'|]; [|done].
    exists ea'. split; [done|]. by injection Hwp.
Qed.

(** *** Updates that complete *)

Lemma drawn_seed_ok x : 0 <= x < int64_max -> seed_ok x.
Proof. unfold seed_ok, int64_max. lia. Qed.

Lemma split_seed_ok seed :
  torch_laws -> seed_ok seed ->
  exists lseed rseed,
    (forall s, split_seed seed s = Ok [lseed; rseed] s) /\ seed_ok lseed /\ seed_ok rseed.
Proof.
  intros Hlaws Hseed.
  destruct (manual_seed_accepts Hlaws cpu seed Hseed) as [g Hg].
  exists (randint_draw g 0 int64_max 2 0), (randint_draw g 0 int64_max 2 1).
  split; [intros s; by apply split_seed_eq|].
  split; apply drawn_seed_ok, (randint_in_range Hlaws); by vm_compute.
Qed.

Lemma next_seed_ok seed :
  torch_laws -> seed_ok seed ->
  exists nxt, (forall s, next_seed seed default_adv s = Ok nxt s) /\ seed_ok nxt.
Proof.
  intros Hlaws Hseed.
  destruct (manual_seed_accepts Hlaws cpu seed Hseed) as [g Hg].
  exists (randint_draw g 0 int64_max default_adv 14). split.
  - intros s. unfold next_seed, bind. by rewrite Hg.
  - apply drawn_seed_ok, (randint_in_range Hlaws). by vm_compute.
Qed.

Lemma down_proj_ok seed rank a b x :
  torch_laws -> seed_ok seed -> 0 <= rank -> 0 <= a -> 0 <= b -> t_shape x = [a; b] ->
  exists y, (forall s, _down_proj seed rank x s = Ok y s) /\ t_shape y = cshape rank a b.
Proof.
  intros Hlaws Hseed Hr Ha Hb Hx.
  destruct (split_seed_ok seed Hlaws Hseed) as (l & r & Hsplit & Hl & Hrs).
  unfold cshape. destruct (a <? b) eqn:Hab.
  - destruct (manual_seed_accepts Hlaws (t_device x) l Hl) as [g Hg].
    destruct (matmul_shape (projection_matrix g rank a rank (t_device x) (t_dtype x)) x
                rank a b) as (y & Hy & Hsh & _); [done|done|].
    exists y. split; [|done]. intros s.
    rewrite (down_proj_eq seed rank l r a b) by done. by rewrite Hab, Hg, Hy.
  - destruct (manual_seed_accepts Hlaws (t_device x) r Hrs) as [g Hg].
    destruct (matmul_shape x (projection_matrix g b rank rank (t_device x) (t_dtype x))
                a b rank) as (y & Hy & Hsh & _); [done|done|].
    exists y. split; [|done]. intros s.
    rewrite (down_proj_eq seed rank l r a b) by done. by rewrite Hab, Hg, Hy.
Qed.

Lemma up_proj_ok seed rank a b c :
  torch_laws -> seed_ok seed -> 0 <= rank -> 0 <= a -> 0 <= b ->
  t_shape c = cshape rank a b ->
  exists y, (forall s, _up_proj seed rank [a; b] c s = Ok y s) /\ t_shape y = [a; b].
Proof.
  intros Hlaws Hseed Hr Ha Hb Hc.
  destruct (split_seed_ok seed Hlaws Hseed) as (l & r & Hsplit & Hl & Hrs).
  unfold cshape in Hc. destruct (a <? b) eqn:Hab.
  - destruct (manual_seed_accepts Hlaws (t_device c) l Hl) as [g Hg].
    destruct (t_shape_matrix (projection_matrix g rank a rank (t_device c) (t_dtype c))
                rank a) as (Lt & HLt & Hsh & _); [done|].
    destruct (matmul_shape Lt c a rank b) as (y & Hy & Hshy & _); [done|done|].
    exists y. split; [|done]. intros s.
    rewrite (up_proj_eq seed rank l r a b) by done. by rewrite Hab, Hg, HLt, Hy.
  - destruct (manual_seed_accepts Hlaws (t_device c) r Hrs) as [g Hg].
    destruct (t_shape_matrix (projection_matrix g b rank rank (t_device c) (t_dtype c))
                b rank) as (Rt & HRt & Hsh & _); [done|].
    destruct (matmul_shape c Rt a rank b) as (y & Hy & Hshy & _); [done|done|].
    exists y. split; [|done]. intros s.
    rewrite (up_proj_eq seed rank l r a b) by done. by rewrite Hab, Hg, HRt, Hy.
Qed.

Lemma wp_ok {A} (c : M A) (Q : A -> store -> Prop) (E : exn -> store -> Prop) s a :
  (forall s0, c s0 = Ok a s0) -> Q a s -> wp c Q E s.
Proof. intros Hc HQ. unfold wp. by rewrite Hc. Qed.

Lemma add__ok x y alpha :
  t_shape y = t_shape x ->
  torch.add_ x y alpha =
  Some (torch.with_data x (zip_with (fun a b => a + alpha * b)%R (t_data x) (t_data y))).
Proof. intros Hy. unfold torch.add_. by rewrite expand_to_same. Qed.

Lemma addcmul__ok x y z value :
  t_shape y = t_shape x -> t_shape z = t_shape x ->
  is_Some (torch.addcmul_ x y z value).
Proof. intros Hy Hz. unfold torch.addcmul_. by rewrite !expand_to_same. Qed.

Lemma addcdiv__ok x y z value :
  t_shape y = t_shape x -> t_shape z = t_shape x ->
  exists r, torch.addcdiv_ x y z value = Some r /\ t_shape r = t_shape x.
Proof. intros Hy Hz. unfold torch.addcdiv_. rewrite !expand_to_same by done. by eexists. Qed.

Lemma addcmul__shape x y z value r : torch.addcmul_ x y z value = Some r -> t_shape r = t_shape x.
Proof.
  unfold torch.addcmul_.
  destruct (torch.expand_to (t_shape x) y), (torch.expand_to (t_shape x) z); try done.
  by intros [= <-].
Qed.

Lemma copy__ok x y : t_shape y = t_shape x -> is_Some (torch.copy_ x y).
Proof. intros Hy. unfold torch.copy_. by rewrite expand_to_same. Qed.

Lemma policy_dims g a b rank :
  g_rank g = Some rank -> _should_compress g [a; b] = true ->
  0 < rank /\ 0 < a /\ 0 < b.
Proof.
  intros Hr Hc. apply should_compress_iff in Hc as (r & a' & b' & Hr' & H0 & [= <- <-] & Hmin & _).
  assert (r = rank) as -> by congruence. lia.
Qed.

Lemma rotate_ready g p a b rank sd n ea eas s :
  torch_laws -> g_rank g = Some rank -> _should_compress g [a; b] = true ->
  is_Some (g_lr g) -> g_kappa g <> 0 ->
  t_shape (p_data (heap s p)) = [a; b] ->
  pst s p = mkPState (Some n) (Some sd) (Some ea) (Some eas) -> seed_ok sd ->
  t_shape ea = cshape rank a b -> t_shape eas = [a; b] ->
  wp (rotate g p [a; b] rank sd)
    (fun _ s' => ready g p a b rank s') (fun _ _ => False) s.
Proof.
  intros Hlaws Hrank Hpol Hlr Hkappa Hdata Hpst Hsd Hea Heas.
  destruct (policy_dims g a b rank Hrank Hpol) as (Hr0 & Ha0 & Hb0).
  assert (Hready : forall s' sd' ea',
    heap s' = heap s -> seed_ok sd' -> t_shape ea' = cshape rank a b ->
    pst s' p = mkPState (Some n) (Some sd') (Some ea') (Some eas) ->
    ready g p a b rank s').
  { intros s' sd' ea' Hh Hsd' Hea' Hp. split; try done.
    - by rewrite Hh.
    - exists sd'. by rewrite Hp.
    - right. exists n, ea', eas. by rewrite Hp. }
  unfold rotate. wp_step. wp_step. rewrite Hpst. cbn [st_step].
  rewrite (proj2 (Z.eqb_neq _ _) Hkappa).
  destruct (n mod g_kappa g =? 0).
  2: { wp_step. apply (Hready _ sd ea); try done. by rewrite pst_with_state. }
  wp_step. wp_step. cbn [st_seed]. wp_step.
  destruct (next_seed_ok sd Hlaws Hsd) as (nxt & Hnext & Hnxt).
  eapply wp_ok; [exact Hnext|]. wp_step. wp_step. cbn [st_exp_avg].
  wp_step. wp_step. cbn [st_exp_avg]. wp_step.
  destruct (up_proj_ok sd rank a b ea) as (full & Hup & Hfull); try done; try lia.
  eapply wp_ok; [exact Hup|]. wp_step.
  destruct (down_proj_ok nxt rank a b full) as (down & Hdown & Hd); try done; try lia.
  eapply wp_ok; [exact Hdown|]. wp_step. wp_step.
  destruct (copy__ok ea down) as [r Hr]; [congruence|]. rewrite Hr.
  apply copy__shape in Hr. wp_step. wp_step. wp_step.
  apply (Hready _ nxt r); try done; [congruence|]. by rewrite pst_with_state.
Qed.

Lemma compressed_update_ready g p a b rank grad ea eas t n sd s :
  torch_laws -> g_rank g = Some rank -> _should_compress g [a; b] = true ->
  is_Some (g_lr g) -> g_kappa g <> 0 ->
  t_shape grad = [a; b] -> t_shape (p_data (heap s p)) = [a; b] ->
  pst s p = mkPState (Some n) (Some sd) (Some ea) (Some eas) -> seed_ok sd ->
  t_shape ea = cshape rank a b -> t_shape eas = [a; b] ->
  wp (compressed_update g p grad ea eas t)
    (fun _ s' => ready g p a b rank s') (fun _ _ => False) s.
Proof.
  intros Hlaws Hrank Hpol Hlr Hkappa Hgrad Hdata Hpst Hsd Hea Heas.
  destruct (policy_dims g a b rank Hrank Hpol) as (Hr0 & Ha0 & Hb0).
  unfold compressed_update. wp_step. wp_step. rewrite Hpst. cbn [st_seed].
  wp_step. wp_step. rewrite Hrank. wp_step.
  destruct (down_proj_ok sd rank a b grad) as (cgrad & Hdown & Hcg); try done; try lia.
  eapply wp_ok; [exact Hdown|]. wp_step.
  unfold update_exp_avg. wp_step. wp_step. wp_step. wp_step.
  rewrite add__ok by (simpl; congruence).
  set (ea1 := torch.with_data _ _).
  assert (Hea1 : t_shape ea1 = cshape rank a b) by done.
  wp_step. wp_step. wp_step. wp_step.
  unfold update_exp_avg_sq. wp_step. wp_step. wp_step. wp_step.
  destruct (addcmul__ok (torch.mul_scalar eas (snd (g_betas g))) grad grad
              (1 - snd (g_betas g))) as [eas1 Heas1]; [simpl; congruence..|].
  rewrite Heas1. apply addcmul__shape in Heas1. simpl in Heas1.
  wp_step. wp_step. wp_step. wp_step.
  rewrite Hgrad.
  destruct (up_proj_ok sd rank a b (torch.div_scalar ea1 (1 - powerRZ (fst (g_betas g)) t)))
    as (update & Hup & Hupd); try done; try lia.
  eapply wp_ok; [exact Hup|]. wp_step.
  unfold param_addcdiv. wp_step. wp_step. destruct Hlr as [lr Hlr]. rewrite Hlr.
  cbn [option_map]. wp_step. wp_step. wp_step. wp_step.
  match goal with
  | |- context [torch.addcdiv_ ?x ?y ?z ?v] =>
      destruct (addcdiv__ok x y z v) as (r & Hr & Hrs); [simpl; congruence..|]; rewrite Hr
  end.
  wp_step.
  apply (rotate_ready g p a b rank sd n ea1 eas1); try done.
  - simpl. rewrite fn_lookup_insert. simpl. simpl in Hrs. congruence.
  - rewrite pst_with_param_data, pst_with_state. reflexivity.
  - congruence.
Qed.

(** A compressed update of a ready parameter completes and leaves the
    parameter ready. *)
Lemma step_param_ready g p a b rank grad s :
  torch_laws -> ready g p a b rank s ->
  p_grad (heap s p) = Some grad -> t_shape grad = [a; b] ->
  exists s', step_param g p s = Ok tt s' /\ ready g p a b rank s'.
Proof.
  intros Hlaws [Hrank Hpol Hlr Hkappa Hdata (sd & Hseed & Hsd) Hmom] Hg Hgrad.
  destruct (policy_dims g a b rank Hrank Hpol) as (Hr0 & Ha0 & Hb0).
  assert (Hstep : step_param g p s = update_param true g p grad s).
  { unfold step_param, bind, get_param. by rewrite Hg, Hgrad, Hpol. }
  rewrite Hstep.
  assert (Hwp : wp (update_param true g p grad)
                  (fun _ s' => ready g p a b rank s') (fun _ _ => False) s).
  { unfold wp. destruct Hmom as [Hfresh|(n & ea & eas & Hn & Hea & Hsea & Heas & Hseas)].
    - erewrite update_param_fresh; [|done|].
      2: { rewrite (init_state_compressed g p grad _ rank a b); try done; try lia.
           by rewrite pst_with_state, with_state_twice. }
      apply (compressed_update_ready g p a b rank grad _ _ 1 1 sd); try done.
      + by rewrite pst_with_state, Hseed.
    - erewrite update_param_initialised by done.
      apply (compressed_update_ready g p a b rank grad ea eas (n + 1) (n + 1) sd); try done.
      by rewrite pst_with_state, Hseed. }
  unfold wp in Hwp. destruct (update_param true g p grad s) as [[] s'|]; [|done].
  by exists s'.
Qed.

Lemma ready_set_grad g p a b rank grad s :
  ready g p a b rank s -> ready g p a b rank (final (set_grad p grad s)).
Proof.
  intros [Hrank Hpol Hlr Hkappa Hdata Hseed Hmom]. split; try done.
  simpl. by rewrite fn_lookup_insert.
Qed.

(** So does any sequence of them. *)
Lemma run_updates_ready g p a b rank grads : forall s,
  torch_laws -> ready g p a b rank s ->
  Forall (fun grad => t_shape grad = [a; b]) grads ->
  exists s', run_updates g p grads s = Ok tt s' /\ ready g p a b rank s'.
Proof.
  induction grads as [|grad rest IH]; intros s Hlaws Hready Hall.
  - by exists s.
  - apply Forall_cons in Hall as [Hgrad Hall].
    pose proof (ready_set_grad g p a b rank grad s Hready) as Hready0.
    simpl. unfold bind. simpl in *.
    set (s0 := mkStore _ _ _ _) in *.
    destruct (step_param_ready g p a b rank grad s0 Hlaws Hready0) as (s1 & Hs1 & Hready1);
      [simpl; by rewrite fn_lookup_insert|done|].
    rewrite Hs1. by apply IH.
Qed.

(** *** The cadence of rotations *)

(** C3. The seed of a parameter changes only in an update that runs the
    compressed path and whose incremented step counter is a multiple of
    kappa, and it is then replaced by [next_seed] of the current seed;
    such an update, when it completes, does replace it. With kappa = 4,
    ten updates of a compressed parameter leave the seed alone except
    after the fourth and the eighth. The updates of a parameter that
    is ready for the compressed path do complete, on any backend that
    keeps torch's two promises about generators. *)
Theorem seed_rotation_cadence (g : group) (p : handle) :
  (forall s,
     let s' := final (step_param g p s) in
     (forall q, q <> p -> opt_state s' !! q = opt_state s !! q) /\
     (st_seed (pst s' p) = st_seed (pst s p) \/
      exists grad cur nxt,
        p_grad (heap s p) = Some grad /\ _should_compress g (t_shape grad) = true /\
        g_kappa g <> 0 /\ (step_count s p + 1) mod g_kappa g = 0 /\
        st_seed (pst s p) = Some cur /\ next_seed cur default_adv s = Ok nxt s /\
        st_seed (pst s' p) = Some nxt)) /\
  (forall s s' grad,
     p_grad (heap s p) = Some grad -> _should_compress g (t_shape grad) = true ->
     (step_count s p + 1) mod g_kappa g = 0 -> step_param g p s = Ok tt s' ->
     exists cur nxt,
       st_seed (pst s p) = Some cur /\ next_seed cur default_adv s = Ok nxt s /\
       st_seed (pst s' p) = Some nxt) /\
  (forall s s' grads seed0,
     g_kappa g = 4 -> length grads = 10%nat ->
     Forall (fun grad => _should_compress g (t_shape grad) = true) grads ->
     st_step (pst s p) = None -> st_seed (pst s p) = Some seed0 ->
     run_updates g p grads s = Ok tt s' ->
     exists seed1 seed2,
       next_seed seed0 default_adv s = Ok seed1 s /\
       next_seed seed1 default_adv s = Ok seed2 s /\
       forall k, (k <= 10)%nat ->
         exists sk, run_updates g p (take k grads) s = Ok tt sk /\
           st_seed (pst sk p) =
           Some (if (k <? 4)%nat then seed0 else if (k <? 8)%nat then seed1 else seed2)) /\
  (forall a b rank s grads,
     torch_laws -> ready g p a b rank s ->
     Forall (fun grad => t_shape grad = [a; b]) grads ->
     exists s', run_updates g p grads s = Ok tt s' /\ ready g p a b rank s').
Proof.
  split; [|split; [|split]]; [| | |by intros; apply run_updates_ready].
  - intros s s'. split.
    { intros q Hq. by apply (frame_state _ _ _ (keeps_frame_step_param g p s)). }
    destruct (p_grad (heap s p)) as [grad|] eqn:Hg.
    + pose proof (step_param_seed g p grad s Hg) as Hwp. unfold wp in Hwp. subst s'.
      destruct (step_param g p s) as [[] s1|e s1]; simpl; [|left; apply Hwp].
      destruct (_should_compress g (t_shape grad)) eqn:Hc; simpl in Hwp; [|by left].
      destruct (_ =? 0) eqn:Hmod; [|by left].
      destruct Hwp as [Hk (cur & nxt & H1 & H2 & H3)]. apply Z.eqb_eq in Hmod.
      right. exists grad, cur, nxt. done.
    + left. subst s'. unfold step_param, bind, get_param. by rewrite Hg.
  - intros s s' grad Hg Hc Hmod Hrun.
    pose proof (step_param_seed g p grad s Hg) as Hwp. unfold wp in Hwp.
    rewrite Hrun, Hc in Hwp. apply Z.eqb_eq in Hmod. rewrite Hmod in Hwp. simpl in Hwp.
    destruct Hwp as [_ (cur & nxt & ?)]. by exists cur, nxt.
  - intros s s' grads seed0 Hk Hlen Hall Hfresh Hseed Hrun.
    assert (Hk0 : 0 < g_kappa g) by lia.
    assert (Hn0 : step_count s p = 0) by (unfold step_count; by rewrite Hfresh).
    assert (Hat : forall k, (k <= 10)%nat ->
      exists sk sd, run_updates g p (take k grads) s = Ok tt sk /\
        rotations (Z.to_nat (Z.of_nat k / 4)) seed0 sd /\ st_seed (pst sk p) = Some sd).
    { intros k Hle.
      destruct (run_updates_prefix g p k grads s s' Hrun) as [sk Hsk].
      destruct (run_updates_seed g p (take k grads) s sk seed0 Hk0
                  (Forall_take_compress g k grads Hall) Hseed Hsk) as (sd & Hrot & Hsd & _).
      rewrite Hn0, Hk, length_take, Hlen in Hrot.
      replace (k `min` 10)%nat with k in Hrot by lia.
      rewrite Z.add_0_l in Hrot. change (0 / 4) with 0 in Hrot. rewrite Z.sub_0_r in Hrot.
      by exists sk, sd. }
    destruct (Hat 8%nat ltac:(lia)) as (s8 & seed2 & _ & Hrot8 & _).
    change (Z.to_nat (Z.of_nat 8 / 4)) with 2%nat in Hrot8.
    apply (rotations_2_inv _ _ s) in Hrot8 as (seed1 & Hn1 & Hn2).
    exists seed1, seed2. split; [done|]. split; [done|].
    intros k Hle. destruct (Hat k Hle) as (sk & sd & Hsk & Hrot & Hsd).
    exists sk. split; [done|]. rewrite Hsd. f_equal.
    do 11 (destruct k as [|k]; [
      first [ apply rotations_0_inv in Hrot; exact Hrot
            | apply (rotations_1_inv _ _ s) in Hrot; exact (next_seed_fun _ _ _ _ _ Hn1 Hrot)
                                                     || exact (eq_sym (next_seed_fun _ _ _ _ _ Hn1 Hrot))
            | apply (rotations_2_inv _ _ s) in Hrot as (b & Hb1 & Hb2);
              pose proof (next_seed_fun _ _ _ _ _ Hn1 Hb1) as ->;
              exact (next_seed_fun _ _ _ _ _ Hb2 Hn2) ] |]).
    lia.
Qed.

(** ** Further properties of the code *)

(** *** The policy *)

Lemma float_limit_int64 : 2 ^ 63 < float_limit.
Proof. by vm_compute. Qed.

Lemma should_compress_eval_cases (g : group) (shape : list Z) (s : store) :
  should_compress_eval g shape s = Ok (_should_compress g shape) s \/
  should_compress_eval g shape s = Raise OverflowError s /\
  exists rank a b,
    g_rank g = Some rank /\ shape = [a; b] /\ 0 < rank <= Z.min a b /\
    float_limit * Z.min a b <= Z.max a b.
Proof.
  unfold should_compress_eval, _should_compress.
  destruct (g_rank g) as [rank|]; [|by left].
  destruct (0 <? rank) eqn:H0; simpl; [|by left].
  destruct shape as [|a [|b [|c l]]]; try by left.
  unfold bind, py_min, py_max, py_true_div. simpl.
  destruct (rank <=? Z.min a b) eqn:Hr; simpl; [|by left].
  apply Z.ltb_lt in H0. apply Z.leb_le in Hr.
  destruct (Z.min a b =? 0) eqn:Hz; [apply Z.eqb_eq in Hz; lia|].
  unfold float_overflow. destruct (_ <=? _) eqn:Ho; [|by left].
  right. split; [done|]. exists rank, a, b. apply Z.leb_le in Ho.
  rewrite !Z.abs_eq in Ho by lia. by repeat split; try lia.
Qed.


(** X2. The policy gives a shape and its transpose the same answer, and
    a shape accepted at some rank is accepted at every smaller positive
    rank. *)
Theorem should_compress_invariances (g g' : group) (shape : list Z) :
  _should_compress g (rev shape) = _should_compress g shape /\
  (forall r r', g_rank g = Some r -> g_rank g' = Some r' -> 0 < r' <= r ->
     _should_compress g shape = true -> _should_compress g' shape = true).
Proof.
  split.
  - destruct shape as [|a [|b [|c l]]]; try done.
    + unfold _should_compress. simpl. by rewrite Z.min_comm, Z.max_comm.
    + unfold _should_compress. rewrite length_rev. simpl.
      destruct (g_rank g); [|done]. by rewrite !andb_false_r.
  - intros r r' Hr Hr' Hle Hc.
    apply should_compress_iff in Hc as (r0 & a & b & Hr0 & Hpos & -> & Hmin & Hq).
    apply should_compress_iff. exists r', a, b.
    assert (r0 = r) as -> by congruence. repeat split; try done; lia.
Qed.

(** X3. When the policy accepts a gradient of shape [(a, b)], state
    initialisation completes; the first moment it creates has the
    compressed shape and [rank * max(a, b)] entries, never more than the
    [a * b] of the gradient and fewer when the rank is below both
    dimensions; the second moment keeps the shape of the parameter. *)
Theorem compressed_moment_size (g : group) (p : handle) (grad : Tensor) (s : store)
    (rank a b : Z) :
  g_rank g = Some rank -> t_shape grad = [a; b] -> _should_compress g [a; b] = true ->
  exists ea eas s',
    init_state g p grad true s = Ok tt s' /\
    st_exp_avg (pst s' p) = Some ea /\ st_exp_avg_sq (pst s' p) = Some eas /\
    t_shape ea = cshape rank a b /\
    Z.of_nat (length (t_data ea)) = rank * Z.max a b /\
    rank * Z.max a b <= a * b /\
    (rank < Z.min a b -> rank * Z.max a b < a * b) /\
    t_shape eas = t_shape (p_data (heap s p)) /\
    length (t_data eas) = torch.numel (t_shape (p_data (heap s p))).
Proof.
  intros Hr Hsh Hc.
  destruct (policy_dims g a b rank Hr Hc) as (Hr0 & Ha0 & Hb0).
  apply should_compress_iff in Hc as (r0 & a' & b' & Hr' & _ & [= <- <-] & Hmin & _).
  assert (r0 = rank) as -> by congruence.
  do 3 eexists. rewrite (init_state_compressed g p grad s rank a b) by (done || lia).
  split; [done|]. rewrite pst_with_state. simpl.
  split; [done|]. split; [done|]. split; [done|].
  split; [|split; [nia|split; [nia|split; [done|]]]].
  - cbn [torch.to torch.zeros t_data]. rewrite repeat_length. unfold cshape, torch.numel.
    destruct (a <? b) eqn:Hab; simpl.
    + apply Z.ltb_lt in Hab. rewrite Z.max_r by lia. nia.
    + apply Z.ltb_ge in Hab. rewrite Z.max_l by lia. nia.
  - cbn [torch.zeros_like t_data]. by rewrite repeat_length.
Qed.

(** *** Seeds *)

Lemma last_map_seq {A} (f : nat -> A) (k : nat) : last (map f (seq 0 (S k))) = Some (f k).
Proof. rewrite seq_S, map_app. simpl. apply last_snoc. Qed.

(** X4. [next_seed] returns the last of [adv] draws of the generator
    seeded with [seed]; it raises [RuntimeError] when the generator
    refuses the seed and [IndexError] when [adv] is 0, the list of draws
    being empty; the store is never changed. *)
Theorem next_seed_outcomes (seed : Z) (adv : nat) (s : store) :
  next_seed seed adv s =
  match manual_seed cpu seed, adv with
  | None, _ => Raise RuntimeError s
  | Some _, O => Raise IndexError s
  | Some g, S k => Ok (randint_draw g 0 int64_max adv k) s
  end.
Proof.
  unfold next_seed, bind. destruct (manual_seed cpu seed) as [g|]; [|done].
  destruct adv as [|k]; [done|].
  cbv beta iota delta [lift torch_randint ret]. by rewrite last_map_seq.
Qed.

(** X5. Rotation can go on for ever: from a seed the generator
    accepts, [next_seed] applied any number of times completes, and
    every seed it produces lies in [0, 2^63 - 1) and is accepted in
    turn. *)
Theorem rotation_seeds_stay_valid (n : nat) (seed : Z) :
  torch_laws -> seed_ok seed ->
  exists sd, rotations n seed sd /\ seed_ok sd /\ ((0 < n)%nat -> 0 <= sd < int64_max).
Proof.
  intros Hlaws. revert seed. induction n as [|n IH]; intros seed Hseed.
  - exists seed. split; [apply rotations_0|]. split; [done|lia].
  - destruct (manual_seed_accepts Hlaws cpu seed Hseed) as [g Hg].
    pose proof (randint_in_range Hlaws g 0 int64_max default_adv 14 ltac:(by vm_compute))
      as Hrange.
    assert (Hnext : forall s, next_seed seed default_adv s =
                              Ok (randint_draw g 0 int64_max default_adv 14) s).
    { intros s. unfold next_seed, bind. by rewrite Hg. }
    destruct (IH _ (drawn_seed_ok _ Hrange)) as (sd & Hrot & Hsd & Hpos).
    exists sd. split; [by econstructor|]. split; [done|]. intros _.
    destruct n as [|n]; [|apply Hpos; lia].
    apply rotations_0_inv in Hrot as ->. exact Hrange.
Qed.

(** X6. [split_seed] returns exactly two seeds, the first two draws of
    the generator seeded with [seed], or raises [RuntimeError] when the
    generator refuses the seed; unpacking its result into
    [(lseed, rseed)] therefore never fails, and [rseed] is what
    [next_seed] returns for [adv = 2]. *)
Theorem split_seed_outcomes (seed : Z) (s : store) :
  split_seed seed s =
  match manual_seed cpu seed with
  | None => Raise RuntimeError s
  | Some g => Ok [randint_draw g 0 int64_max 2 0; randint_draw g 0 int64_max 2 1] s
  end /\
  (forall l s', split_seed seed s = Ok l s' ->
     exists lseed rseed,
       l = [lseed; rseed] /\ unpack2 l s' = Ok (lseed, rseed) s' /\
       next_seed seed 2 s = Ok rseed s).
Proof.
  assert (Heq : split_seed seed s =
    match manual_seed cpu seed with
    | None => Raise RuntimeError s
    | Some g => Ok [randint_draw g 0 int64_max 2 0; randint_draw g 0 int64_max 2 1] s
    end).
  { unfold split_seed, bind. by destruct (manual_seed cpu seed). }
  split; [done|]. intros l s'. rewrite Heq.
  unfold next_seed, bind. destruct (manual_seed cpu seed) as [g|]; [|done].
  intros [= <- <-]. by do 2 eexists.
Qed.

(** *** The closure and the frame of a step *)

(** X7. [step] runs the closure first and once: a step with a closure
    is the closure followed by a step without one, and returns the loss
    of the closure; it raises what the closure raises, with no update
    made; without a closure it returns [None]. *)
Theorem step_runs_closure_first (c : M R) (s : store) :
  step (Some c) s =
    bind c (fun l => bind (step None) (fun _ => ret (Some l))) s /\
  (forall e s1, c s = Raise e s1 -> step (Some c) s = Raise e s1) /\
  (forall r s', step None s = Ok r s' -> r = None).
Proof.
  split; [|split].
  - unfold step, bind, get_param_groups. destruct (c s) as [l s1|e s1]; simpl; [|done].
    by destruct (for_each _ _ s1).
  - intros e s1 Hc. unfold step, bind. by rewrite Hc.
  - intros r s'. unfold step, bind, get_param_groups. simpl.
    destruct (for_each _ _ s); [|done]. by intros [= <- _].
Qed.

#[local] Instance untouched_refl : Reflexive untouched.
Proof. intros s. by split. Qed.

#[local] Instance untouched_trans : Transitive untouched.
Proof.
  intros s1 s2 s3 [A1 A2 A3 A4 A5 A6 A7] [B1 B2 B3 B4 B5 B6 B7].
  split; intros; congruence.
Qed.

Lemma untouched_with_state p st s : untouched s (with_state p st s).
Proof. by split. Qed.

Lemma keeps_untouched_self_state p : keeps untouched (self_state p).
Proof. intros s. rewrite self_state_eq. apply untouched_with_state. Qed.

Lemma keeps_untouched_state_set p upd : keeps untouched (state_set p upd).
Proof. intros s. rewrite state_set_eq. apply untouched_with_state. Qed.

Lemma keeps_untouched_state_get {A} p key (field : pstate -> option A) :
  keeps untouched (state_get p key field).
Proof.
  intros s. rewrite state_get_eq. destruct (field (pst s p)); apply untouched_with_state.
Qed.

Lemma addcdiv__meta x y z value r :
  torch.addcdiv_ x y z value = Some r ->
  t_shape r = t_shape x /\ t_device r = t_device x /\ t_dtype r = t_dtype x.
Proof.
  unfold torch.addcdiv_.
  destruct (torch.expand_to (t_shape x) y), (torch.expand_to (t_shape x) z); try done.
  by intros [= <-].
Qed.

Lemma keeps_untouched_param_addcdiv p a b c : keeps untouched (param_addcdiv p a b c).
Proof.
  intros s. unfold param_addcdiv, bind, get_param.
  destruct c as [lr|]; simpl; [|done].
  destruct (torch.addcdiv_ _ _ _ _) as [r|] eqn:Hr; simpl; [|done].
  apply addcdiv__meta in Hr as (Hs & Hd & Ht).
  split; simpl; try done; intros q;
    (destruct (decide (q = p)) as [->|Hq];
     [by rewrite fn_lookup_insert | by rewrite fn_lookup_insert_ne]).
Qed.

#[local] Hint Resolve keeps_untouched_self_state keeps_untouched_state_set
  keeps_untouched_state_get keeps_untouched_param_addcdiv : keeps.

Lemma keeps_untouched_step_param g p : keeps untouched (step_param g p).
Proof.
  unfold step_param, update_param, compressed_update, full_update, rotate, init_state,
    update_exp_avg, update_exp_avg_sq.
  keeps_tac.
Qed.

Lemma keeps_untouched_update_loop gs : keeps untouched (update_loop gs).
Proof.
  unfold update_loop. apply keeps_for_each; try typeclasses eauto.
  intros g. apply keeps_for_each; try typeclasses eauto.
  intros p. apply keeps_untouched_step_param.
Qed.

Lemma inner_loop_unlisted g ps p s :
  p ∉ ps ->
  let s' := final (for_each ps (step_param g) s) in
  opt_state s' !! p = opt_state s !! p /\ heap s' p = heap s p.
Proof.
  revert s. induction ps as [|q ps IH]; intros s Hp; simpl; [done|].
  apply not_elem_of_cons in Hp as [Hq Hp].
  pose proof (keeps_frame_step_param g q s) as Hf.
  pose proof (frame_state _ _ _ Hf p Hq) as Hst.
  pose proof (frame_heap _ _ _ Hf p Hq) as Hhp.
  unfold bind. destruct (step_param g q s) as [a s1|e s1]; simpl in *; [|done].
  destruct (IH s1 Hp) as [-> ->]. done.
Qed.

Lemma update_loop_unlisted gs p s :
  p ∉ all_params gs ->
  let s' := final (update_loop gs s) in
  opt_state s' !! p = opt_state s !! p /\ heap s' p = heap s p.
Proof.
  unfold update_loop, all_params.
  revert s. induction gs as [|g gs IH]; intros s Hp; simpl; [done|].
  simpl in Hp. apply not_elem_of_app in Hp as [Hg Hp].
  pose proof (inner_loop_unlisted g (g_params g) p s Hg) as Hin. simpl in Hin.
  unfold bind. destruct (for_each (g_params g) _ s) as [a s1|e s1]; simpl in *; [|done].
  destruct (IH s1 Hp) as [-> ->]. done.
Qed.

Lemma step_None_final s : final (step None s) = final (update_loop (param_groups s) s).
Proof. rewrite step_eq. simpl. by destruct (update_loop _ s). Qed.

(** X8. Whatever its outcome, a step without closure leaves alone the
    default generator of torch, the parameter groups, every gradient
    and [requires_grad] flag, and the shape, device and dtype of every
    parameter; a parameter that no group lists keeps its data and gets
    no state. *)
Theorem step_frame (s : store) :
  let s' := final (step None s) in
  ambient_rng s' = ambient_rng s /\
  param_groups s' = param_groups s /\
  (forall q,
     p_grad (heap s' q) = p_grad (heap s q) /\
     p_requires_grad (heap s' q) = p_requires_grad (heap s q) /\
     t_shape (p_data (heap s' q)) = t_shape (p_data (heap s q)) /\
     t_device (p_data (heap s' q)) = t_device (p_data (heap s q)) /\
     t_dtype (p_data (heap s' q)) = t_dtype (p_data (heap s q))) /\
  (forall q, q ∉ all_params (param_groups s) ->
     heap s' q = heap s q /\ opt_state s' !! q = opt_state s !! q).
Proof.
  intros s'. subst s'. rewrite step_None_final.
  destruct (keeps_untouched_update_loop (param_groups s) s) as [H1 H2 H3 H4 H5 H6 H7].
  split; [done|]. split; [done|]. split; [by intros q|].
  intros q Hq. by destruct (update_loop_unlisted (param_groups s) q s Hq).
Qed.

(** *** Options at the edge of their range *)

Lemma never_returns_raise {A} e : never_returns (raise e : M A).
Proof. by intros s a s'. Qed.

Lemma never_returns_bind_l {A B} (c : M A) (k : A -> M B) :
  never_returns c -> never_returns (bind c k).
Proof.
  intros Hc s b s'. unfold bind. specialize (Hc s).
  destruct (c s) as [a s1|e s1]; [by destruct (Hc a s1)|done].
Qed.

Lemma never_returns_bind_r {A B} (c : M A) (k : A -> M B) :
  (forall a, never_returns (k a)) -> never_returns (bind c k).
Proof.
  intros Hk s b s'. unfold bind. destruct (c s) as [a s1|e s1]; [apply Hk|done].
Qed.

Lemma never_returns_param_addcdiv p num denom : never_returns (param_addcdiv p num denom None).
Proof. unfold param_addcdiv. apply never_returns_bind_l. simpl. apply never_returns_raise. Qed.

Ltac never_tac :=
  repeat lazymatch goal with
  | |- never_returns (bind (param_addcdiv _ _ _ None) _) => apply never_returns_bind_l
  | |- never_returns (bind _ _) => apply never_returns_bind_r; intros
  | |- never_returns (param_addcdiv _ _ _ None) => apply never_returns_param_addcdiv
  end.

Lemma never_returns_update_param m g p grad :
  g_lr g = None -> never_returns (update_param m g p grad).
Proof.
  intros Hlr. unfold update_param. never_tac.
  destruct m; [unfold compressed_update|unfold full_update]; rewrite Hlr; never_tac.
Qed.

#[local] Instance same_heap_refl : Reflexive same_heap.
Proof. by intros s. Qed.

#[local] Instance same_heap_trans : Transitive same_heap.
Proof. unfold same_heap. intros s1 s2 s3 ? ?. congruence. Qed.

Lemma keeps_heap_self_state p : keeps same_heap (self_state p).
Proof. intros s. by rewrite self_state_eq. Qed.

Lemma keeps_heap_state_set p upd : keeps same_heap (state_set p upd).
Proof. intros s. by rewrite state_set_eq. Qed.

Lemma keeps_heap_state_get {A} p key (field : pstate -> option A) :
  keeps same_heap (state_get p key field).
Proof. intros s. rewrite state_get_eq. by destruct (field (pst s p)). Qed.

Lemma keeps_heap_param_addcdiv p num denom : keeps same_heap (param_addcdiv p num denom None).
Proof. by intros s. Qed.

#[local] Hint Resolve keeps_heap_self_state keeps_heap_state_set keeps_heap_state_get
  keeps_heap_param_addcdiv : keeps.

Lemma keeps_heap_update_param m g p grad :
  g_lr g = None -> keeps same_heap (update_param m g p grad).
Proof.
  intros Hlr.
  unfold update_param, compressed_update, full_update, rotate, init_state,
    update_exp_avg, update_exp_avg_sq.
  rewrite Hlr. keeps_tac.
Qed.

Lemma exp_avg_data beta1 (m g : list R) :
  zip_with (fun a b => a + (1 - beta1) * b)%R (map (fun a => a * beta1)%R m) g =
  zip_with (adam_exp_avg beta1) m g.
Proof.
  rewrite zip_with_map_l. apply zip_with_pointwise.
  intros a b. unfold adam_exp_avg. ring.
Qed.

Lemma exp_avg_sq_data beta2 (v g : list R) :
  zip_with (fun a b => a + (1 - beta2) * b)%R (map (fun a => a * beta2)%R v)
    (zip_with Rmult g g) =
  zip_with (adam_exp_avg_sq beta2) v g.
Proof.
  rewrite zip_with_map_l, zip_with_same_r. apply zip_with_pointwise.
  intros a b. unfold adam_exp_avg_sq. ring.
Qed.

Lemma addcmul__eq x y value :
  t_shape y = t_shape x ->
  torch.addcmul_ x y y value =
  Some (torch.with_data x
          (zip_with (fun a b => a + value * b)%R (t_data x)
             (zip_with Rmult (t_data y) (t_data y)))).
Proof. intros Hy. unfold torch.addcmul_. by rewrite !expand_to_same. Qed.

Lemma addcdiv__eq x y z value :
  t_shape y = t_shape x -> t_shape z = t_shape x ->
  torch.addcdiv_ x y z value =
  Some (torch.with_data x
          (zip_with (fun a b => a + value * b)%R (t_data x)
             (zip_with Rdiv (t_data y) (t_data z)))).
Proof. intros Hy Hz. unfold torch.addcdiv_. by rewrite !expand_to_same. Qed.

(** The full path up to the point where [-lr] is evaluated. *)
Lemma full_update_no_lr g p grad ea eas t s sd stp :
  g_lr g = None ->
  pst s p = mkPState stp sd (Some ea) (Some eas) ->
  t_shape ea = t_shape grad -> t_shape eas = t_shape grad ->
  full_update g p grad ea eas t s =
  Raise TypeError
    (with_state p
       (mkPState stp sd
          (Some (torch.with_data ea
                   (zip_with (adam_exp_avg (fst (g_betas g))) (t_data ea) (t_data grad))))
          (Some (torch.with_data eas
                   (zip_with (adam_exp_avg_sq (snd (g_betas g))) (t_data eas) (t_data grad)))))
       s).
Proof.
  intros Hlr Hst Hea Heas.
  unfold full_update, update_exp_avg, update_exp_avg_sq, param_addcdiv, bind.
  rewrite !state_set_eq.
  rewrite add__ok by (simpl; congruence).
  cbv beta iota delta [lift ret]. rewrite !state_set_eq.
  rewrite addcmul__eq by (simpl; congruence).
  cbv beta iota delta [lift ret]. rewrite !state_set_eq.
  rewrite Hlr. cbv beta iota delta [lift raise option_map].
  rewrite !pst_with_state, !with_state_twice, Hst.
  cbn [torch.mul_scalar torch.with_data t_data t_shape t_device t_dtype].
  rewrite exp_avg_sq_data, exp_avg_data. reflexivity.
Qed.

(** X9. With [lr] unset, which is the default of the constructor, no
    update of a parameter with a gradient completes and no parameter
    is changed; on the full path the update raises [TypeError] when it
    negates [lr], after the step counter was incremented and both
    moments were given their Adam values. *)
Theorem lr_unset_never_completes (g : group) (p : handle) (grad : Tensor) (s : store) :
  g_lr g = None -> p_grad (heap s p) = Some grad ->
  (forall a s', step_param g p s <> Ok a s') /\
  heap (final (step_param g p s)) = heap s /\
  (forall n m v,
     _should_compress g (t_shape grad) = false -> moments s p = Some (n, m, v) ->
     t_shape m = t_shape grad -> t_shape v = t_shape grad ->
     step_param g p s =
     Raise TypeError
       (with_state p
          (mkPState (Some (n + 1)) (st_seed (pst s p))
             (Some (torch.with_data m
                      (zip_with (adam_exp_avg (fst (g_betas g))) (t_data m) (t_data grad))))
             (Some (torch.with_data v
                      (zip_with (adam_exp_avg_sq (snd (g_betas g))) (t_data v)
                         (t_data grad)))))
          s)).
Proof.
  intros Hlr Hg.
  assert (Hstep : step_param g p s =
                  update_param (_should_compress g (t_shape grad)) g p grad s).
  { unfold step_param, bind, get_param. by rewrite Hg. }
  rewrite Hstep. split; [|split].
  - intros a s'. by apply never_returns_update_param.
  - by apply keeps_heap_update_param.
  - intros n m v Hc Hmom Hm Hv. rewrite Hc. unfold moments in Hmom.
    destruct (st_step (pst s p)) as [n0|] eqn:Hn.
    + destruct (st_exp_avg (pst s p)) as [m0|] eqn:Hm0; [|done].
      destruct (st_exp_avg_sq (pst s p)) as [v0|] eqn:Hv0; [|done].
      injection Hmom as -> -> ->.
      rewrite (update_param_initialised false g p grad s n m v) by done.
      unfold branch.
      rewrite (full_update_no_lr g p grad m v (n + 1) _ (st_seed (pst s p)) (Some (n + 1)));
        try done; [|by rewrite pst_with_state].
      by rewrite with_state_twice.
    + injection Hmom as <- <- <-.
      rewrite (update_param_fresh false g p grad s (st_seed (pst s p))
                 (torch.zeros_like (p_data (heap s p)))
                 (torch.zeros_like (p_data (heap s p))));
        [|done|].
      2: { rewrite init_state_full. by rewrite pst_with_state, with_state_twice. }
      unfold branch.
      rewrite (full_update_no_lr g p grad _ _ 1 _ (st_seed (pst s p)) (Some 1));
        try done; [|by rewrite pst_with_state].
      by rewrite with_state_twice.
Qed.

Lemma mod_opp_zero (t k : Z) : (t mod - k =? 0) = (t mod k =? 0).
Proof.
  destruct (Z.eq_dec k 0) as [->|Hk]; [done|].
  destruct (t mod k =? 0) eqn:E.
  - apply Z.eqb_eq in E. apply Z.eqb_eq. by apply Z.mod_opp_r_z.
  - apply Z.eqb_neq in E. apply Z.eqb_neq. intros E'. apply E.
    rewrite <- (Z.opp_involutive k). apply Z.mod_opp_r_z; [lia|done].
Qed.

Lemma rotate_opp_kappa ps lr betas eps rank kappa :
  rotate (mkGroup ps lr betas eps rank (- kappa)) = rotate (mkGroup ps lr betas eps rank kappa).
Proof.
  do 5 (apply FunctionalExtensionality.functional_extensionality; intros ?).
  unfold rotate, bind. cbn [g_kappa].
  destruct (state_get _ _ _ _) as [step s1|]; [|done].
  rewrite mod_opp_zero.
  replace (- kappa =? 0) with (kappa =? 0); [done|].
  destruct (Z.eqb_spec kappa 0), (Z.eqb_spec (- kappa) 0); lia || done.
Qed.

(** X10. The sign of [kappa] does not matter: an update with [-kappa]
    is, outcome and store, the update with [kappa], since
    [step % kappa == 0] asks whether [kappa] divides the step
    counter. *)
Theorem negative_kappa_as_positive (g : group) (p : handle) (s : store) :
  step_param (with_kappa (- g_kappa g) g) p s = step_param g p s.
Proof.
  destruct g as [ps lr betas eps rank kappa]. unfold with_kappa. cbn [g_params g_lr g_betas
    g_eps g_rank g_kappa].
  unfold step_param, update_param, compressed_update.
  cbn [g_params g_lr g_betas g_eps g_rank g_kappa].
  by rewrite rotate_opp_kappa.
Qed.

(** X11. The full path reads neither [rank] nor [kappa]: two groups
    with the same [lr], betas and [eps] whose policies both answer
    false update a parameter identically; in particular a rank that is
    zero or negative behaves as no rank at all. *)
Theorem full_path_ignores_rank_and_kappa (g g' : group) (p : handle) (s : store) :
  g_lr g = g_lr g' -> g_betas g = g_betas g' -> g_eps g = g_eps g' ->
  ((forall grad, p_grad (heap s p) = Some grad ->
      _should_compress g (t_shape grad) = false /\
      _should_compress g' (t_shape grad) = false) ->
   step_param g p s = step_param g' p s) /\
  (forall r, g_rank g = Some r -> r <= 0 -> g_rank g' = None ->
     step_param g p s = step_param g' p s).
Proof.
  intros Hlr Hbetas Heps.
  assert (Hfull : (forall grad, p_grad (heap s p) = Some grad ->
      _should_compress g (t_shape grad) = false /\
      _should_compress g' (t_shape grad) = false) ->
    step_param g p s = step_param g' p s).
  { intros Hpol. unfold step_param, bind, get_param.
    destruct (p_grad (heap s p)) as [grad|]; [|done].
    destruct (Hpol grad eq_refl) as [-> ->].
    unfold update_param, init_state, full_update. cbv beta iota zeta.
    by rewrite Hlr, Hbetas, Heps. }
  split; [done|].
  intros r Hr Hle Hr'. apply Hfull. intros grad _. unfold _should_compress.
  rewrite Hr, Hr'. split; [|done].
  by rewrite (proj2 (Z.ltb_ge 0 r) Hle).
Qed.

(** *** The compressed path *)

Lemma update_exp_avg_eq p ea g beta1 s :
  t_shape g = t_shape ea ->
  let ea1 := torch.with_data ea (zip_with (adam_exp_avg beta1) (t_data ea) (t_data g)) in
  update_exp_avg p ea g beta1 s = Ok ea1 (with_state p (set_exp_avg ea1 (pst s p)) s).
Proof.
  intros Hg ea1. unfold update_exp_avg, bind. rewrite state_set_eq.
  rewrite add__ok by (simpl; congruence).
  cbv beta iota delta [lift ret]. rewrite state_set_eq.
  rewrite pst_with_state, with_state_twice.
  cbn [torch.mul_scalar torch.with_data t_data t_shape t_device t_dtype].
  rewrite exp_avg_data. by destruct (pst s p).
Qed.

Lemma update_exp_avg_sq_eq p eas g beta2 s :
  t_shape g = t_shape eas ->
  let eas1 := torch.with_data eas (zip_with (adam_exp_avg_sq beta2) (t_data eas) (t_data g)) in
  update_exp_avg_sq p eas g beta2 s = Ok eas1 (with_state p (set_exp_avg_sq eas1 (pst s p)) s).
Proof.
  intros Hg eas1. unfold update_exp_avg_sq, bind. rewrite state_set_eq.
  rewrite addcmul__eq by (simpl; congruence).
  cbv beta iota delta [lift ret]. rewrite state_set_eq.
  rewrite pst_with_state, with_state_twice.
  cbn [torch.mul_scalar torch.with_data t_data t_shape t_device t_dtype].
  rewrite exp_avg_sq_data. by destruct (pst s p).
Qed.

Lemma param_addcdiv_eq p num denom lr s :
  t_shape num = t_shape (p_data (heap s p)) -> t_shape denom = t_shape (p_data (heap s p)) ->
  param_addcdiv p num denom (Some lr) s =
  Ok tt (with_param_data p
           (torch.with_data (p_data (heap s p))
              (zip_with (fun a b => a + - lr * b)%R (t_data (p_data (heap s p)))
                 (zip_with Rdiv (t_data num) (t_data denom)))) s).
Proof.
  intros Hn Hd. unfold param_addcdiv, bind, get_param.
  cbv beta iota delta [lift ret option_map].
  by rewrite addcdiv__eq.
Qed.

Lemma flora_data lr beta2 eps t (x u v : list R) :
  zip_with (fun a b => a + - lr * b)%R x
    (zip_with Rdiv u
       (map (fun a => a + eps)%R
          (map R_sqrt.sqrt (map (fun a => a / (1 - powerRZ beta2 t))%R v)))) =
  zip_with (fun x uv => flora_param lr beta2 eps t x (fst uv) (snd uv)) x (zip u v).
Proof.
  rewrite !map_map. rewrite <- (map_id u) at 1. rewrite zip_with_zip_maps.
  apply zip_with_pointwise. intros a [b c]. unfold flora_param. simpl. unfold Rdiv. ring.
Qed.

Lemma with_state_id p st s : opt_state s !! p = Some st -> with_state p st s = s.
Proof.
  intros Hp. apply store_eq; try done. simpl. by apply insert_id.
Qed.

(** The compressed path up to the rotation. *)
Lemma compressed_update_eq g p a b rank grad ea eas n sd lr cgrad update s :
  g_rank g = Some rank -> g_lr g = Some lr ->
  t_shape grad = [a; b] -> t_shape (p_data (heap s p)) = [a; b] ->
  pst s p = mkPState (Some (n + 1)) (Some sd) (Some ea) (Some eas) ->
  t_shape ea = cshape rank a b -> t_shape eas = [a; b] ->
  (forall s0, _down_proj sd rank grad s0 = Ok cgrad s0) -> t_shape cgrad = cshape rank a b ->
  (forall s0,
     _up_proj sd rank [a; b]
       (torch.div_scalar
          (torch.with_data ea
             (zip_with (adam_exp_avg (fst (g_betas g))) (t_data ea) (t_data cgrad)))
          (1 - powerRZ (fst (g_betas g)) (n + 1))) s0 = Ok update s0) ->
  t_shape update = [a; b] ->
  compressed_update g p grad ea eas (n + 1) s =
  rotate g p [a; b] rank sd (compressed_result g p grad ea eas cgrad update lr n sd s).
Proof.
  intros Hrank Hlr Hgrad Hdata Hpst Hea Heas Hdown Hcg Hup Hupd.
  unfold compressed_update. rewrite Hgrad.
  unfold bind at 1. rewrite state_get_eq, Hpst. cbn [st_seed].
  unfold bind at 1. rewrite Hrank. cbv beta iota delta [lift ret].
  unfold bind at 1. rewrite Hdown.
  unfold bind at 1. rewrite update_exp_avg_eq by congruence.
  unfold bind at 1. rewrite update_exp_avg_sq_eq by congruence.
  unfold bind at 1. rewrite Hup.
  unfold bind at 1. rewrite Hlr.
  rewrite param_addcdiv_eq; rewrite ?heap_with_state; [|congruence|simpl; congruence].
  f_equal. unfold compressed_result, ema_exp_avg, ema_exp_avg_sq.
  rewrite !pst_with_state, !with_state_twice.
  cbn [torch.add_scalar torch.sqrt torch.div_scalar torch.with_data t_data t_shape
       t_device t_dtype set_exp_avg set_exp_avg_sq st_step st_seed st_exp_avg st_exp_avg_sq].
  rewrite flora_data. unfold with_param_data. rewrite !heap_with_state. reflexivity.
Qed.

Lemma rotate_skip g p sh rank sd n s :
  st_step (pst s p) = Some n -> g_kappa g <> 0 -> n mod g_kappa g <> 0 ->
  is_Some (opt_state s !! p) ->
  rotate g p sh rank sd s = Ok tt s.
Proof.
  intros Hn Hk Hmod [st Hst]. unfold rotate, bind. rewrite state_get_eq, Hn.
  rewrite (proj2 (Z.eqb_neq _ _) Hk), (proj2 (Z.eqb_neq _ _) Hmod).
  unfold ret. f_equal. apply with_state_id. unfold pst. by rewrite Hst.
Qed.

Lemma rotate_zero_kappa g p sh rank sd n s :
  st_step (pst s p) = Some n -> g_kappa g = 0 -> is_Some (opt_state s !! p) ->
  rotate g p sh rank sd s = Raise ZeroDivisionError s.
Proof.
  intros Hn Hk [st Hst]. unfold rotate, bind. rewrite state_get_eq, Hn, Hk.
  cbn [Z.eqb]. unfold raise. f_equal. apply with_state_id. unfold pst. by rewrite Hst.
Qed.

Lemma compressed_result_state g p grad ea eas cgrad update lr n sd s :
  st_step (pst (compressed_result g p grad ea eas cgrad update lr n sd s) p) = Some (n + 1) /\
  is_Some (opt_state (compressed_result g p grad ea eas cgrad update lr n sd s) !! p).
Proof.
  unfold compressed_result. rewrite pst_with_param_data, pst_with_state.
  split; [done|]. simpl. rewrite lookup_insert_eq. by eexists.
Qed.

(** An update on the compressed path, up to the rotation. *)
Lemma step_param_compressed_eq g p a b rank grad n sd ea eas lr cgrad update s :
  g_rank g = Some rank -> _should_compress g [a; b] = true -> g_lr g = Some lr ->
  p_grad (heap s p) = Some grad -> t_shape grad = [a; b] ->
  t_shape (p_data (heap s p)) = [a; b] ->
  st_seed (pst s p) = Some sd ->
  compressed_moments s p rank a b grad = Some (n, ea, eas) ->
  t_shape ea = cshape rank a b -> t_shape eas = [a; b] ->
  (forall s0, _down_proj sd rank grad s0 = Ok cgrad s0) -> t_shape cgrad = cshape rank a b ->
  (forall s0,
     _up_proj sd rank [a; b]
       (torch.div_scalar
          (torch.with_data ea
             (zip_with (adam_exp_avg (fst (g_betas g))) (t_data ea) (t_data cgrad)))
          (1 - powerRZ (fst (g_betas g)) (n + 1))) s0 = Ok update s0) ->
  t_shape update = [a; b] ->
  step_param g p s =
  rotate g p [a; b] rank sd (compressed_result g p grad ea eas cgrad update lr n sd s).
Proof.
  intros Hrank Hpol Hlr Hg Hgrad Hdata Hseed Hmom Hea Heas Hdown Hcg Hup Hupd.
  destruct (policy_dims g a b rank Hrank Hpol) as (Hr0 & Ha0 & Hb0).
  assert (Hstep : step_param g p s = update_param true g p grad s).
  { unfold step_param, bind, get_param. by rewrite Hg, Hgrad, Hpol. }
  rewrite Hstep. unfold compressed_moments in Hmom.
  destruct (st_step (pst s p)) as [n0|] eqn:Hn.
  - destruct (st_exp_avg (pst s p)) as [m0|] eqn:Hm0; [|done].
    destruct (st_exp_avg_sq (pst s p)) as [v0|] eqn:Hv0; [|done].
    injection Hmom as -> -> ->.
    rewrite (update_param_initialised true g p grad s n ea eas) by done.
    unfold branch.
    rewrite (compressed_update_eq g p a b rank grad ea eas n sd lr cgrad update);
      try done; [|by rewrite pst_with_state, Hseed].
    f_equal. unfold compressed_result. rewrite heap_with_state.
    by rewrite with_state_twice.
  - injection Hmom as <- <- <-.
    erewrite update_param_fresh; [|done|].
    2: { rewrite (init_state_compressed g p grad _ rank a b); try done; try lia.
         by rewrite pst_with_state, with_state_twice. }
    unfold branch. rewrite heap_with_state. change 1 with (0 + 1).
    rewrite (compressed_update_eq g p a b rank grad _ _ 0 sd lr cgrad update);
      try done; [|by rewrite pst_with_state, Hseed].
    f_equal. unfold compressed_result. rewrite heap_with_state.
    by rewrite with_state_twice.
Qed.

Lemma rotate_rotates g p a b rank sd t ea eas nxt full down s :
  pst s p = mkPState (Some t) (Some sd) (Some ea) (Some eas) ->
  g_kappa g <> 0 -> t mod g_kappa g = 0 ->
  (forall s0, next_seed sd default_adv s0 = Ok nxt s0) ->
  (forall s0, _up_proj sd rank [a; b] ea s0 = Ok full s0) ->
  (forall s0, _down_proj nxt rank full s0 = Ok down s0) ->
  t_shape down = t_shape ea ->
  rotate g p [a; b] rank sd s =
  Ok tt (with_state p
           (mkPState (Some t) (Some nxt) (Some (torch.with_data ea (t_data down))) (Some eas))
           s).
Proof.
  intros Hpst Hk Hmod Hnext Hup Hdown Hsh. unfold rotate.
  unfold bind at 1. rewrite state_get_eq, Hpst. cbn [st_step].
  rewrite (proj2 (Z.eqb_neq _ _) Hk), (proj2 (Z.eqb_eq _ _) Hmod).
  unfold bind at 1. rewrite state_get_eq, pst_with_state. cbn [st_seed].
  unfold bind at 1. rewrite Hnext.
  unfold bind at 1. rewrite state_get_eq, pst_with_state. cbn [st_exp_avg].
  unfold bind at 1. rewrite state_get_eq, pst_with_state. cbn [st_exp_avg].
  unfold bind at 1. rewrite Hup.
  unfold bind at 1. rewrite Hdown.
  unfold bind at 1. unfold torch.copy_. rewrite expand_to_same by done.
  cbv beta iota delta [lift ret].
  unfold bind. rewrite !state_set_eq, !pst_with_state, !with_state_twice. reflexivity.
Qed.

(** Everything a compressed update of a well-shaped, seeded parameter
    can do. *)
Lemma compressed_step_cases g p grad s a b rank lr n sd ea eas :
  torch_laws ->
  g_rank g = Some rank -> _should_compress g [a; b] = true -> g_lr g = Some lr ->
  p_grad (heap s p) = Some grad -> t_shape grad = [a; b] ->
  t_shape (p_data (heap s p)) = [a; b] ->
  st_seed (pst s p) = Some sd -> seed_ok sd ->
  compressed_moments s p rank a b grad = Some (n, ea, eas) ->
  t_shape ea = cshape rank a b -> t_shape eas = [a; b] ->
  exists cgrad update,
    (forall s0, _down_proj sd rank grad s0 = Ok cgrad s0) /\
    t_shape cgrad = cshape rank a b /\
    (forall s0,
       _up_proj sd rank [a; b]
         (torch.div_scalar (ema_exp_avg (fst (g_betas g)) ea cgrad)
            (1 - powerRZ (fst (g_betas g)) (n + 1))) s0 = Ok update s0) /\
    t_shape update = [a; b] /\
    step_param g p s =
    rotate g p [a; b] rank sd (compressed_result g p grad ea eas cgrad update lr n sd s).
Proof.
  intros Hlaws Hrank Hpol Hlr Hg Hgrad Hdata Hseed Hsd Hmom Hea Heas.
  destruct (policy_dims g a b rank Hrank Hpol) as (Hr0 & Ha0 & Hb0).
  destruct (down_proj_ok sd rank a b grad) as (cgrad & Hdown & Hcg); try done; try lia.
  destruct (up_proj_ok sd rank a b
              (torch.div_scalar (ema_exp_avg (fst (g_betas g)) ea cgrad)
                 (1 - powerRZ (fst (g_betas g)) (n + 1))))
    as (update & Hup & Hupd); try done; try lia.
  exists cgrad, update. do 4 (split; [done|]).
  by apply (step_param_compressed_eq g p a b rank grad n sd ea eas lr cgrad update).
Qed.

(** X12. A compressed update that does not rotate completes, and the
    store it leaves is this: the first moment is the moving average of
    itself and the down-projected gradient, the second moment that of
    itself and the squared gradient as in Adam, and each entry of the
    parameter moves by [lr] times the up-projected bias-corrected
    first moment over the root of the bias-corrected second moment
    plus [eps]; the step counter is incremented and the seed kept. *)
Theorem compressed_path_update (g : group) (p : handle) (grad : Tensor) (s : store)
    (a b rank : Z) (lr : R) (n sd : Z) (ea eas : Tensor) :
  torch_laws ->
  g_rank g = Some rank -> _should_compress g [a; b] = true -> g_lr g = Some lr ->
  p_grad (heap s p) = Some grad -> t_shape grad = [a; b] ->
  t_shape (p_data (heap s p)) = [a; b] ->
  st_seed (pst s p) = Some sd -> seed_ok sd ->
  compressed_moments s p rank a b grad = Some (n, ea, eas) ->
  t_shape ea = cshape rank a b -> t_shape eas = [a; b] ->
  g_kappa g <> 0 -> (n + 1) mod g_kappa g <> 0 ->
  exists cgrad update,
    _down_proj sd rank grad s = Ok cgrad s /\
    _up_proj sd rank [a; b]
      (torch.div_scalar (ema_exp_avg (fst (g_betas g)) ea cgrad)
         (1 - powerRZ (fst (g_betas g)) (n + 1))) s = Ok update s /\
    step_param g p s = Ok tt (compressed_result g p grad ea eas cgrad update lr n sd s).
Proof.
  intros Hlaws Hrank Hpol Hlr Hg Hgrad Hdata Hseed Hsd Hmom Hea Heas Hk Hmod.
  destruct (compressed_step_cases g p grad s a b rank lr n sd ea eas)
    as (cgrad & update & Hdown & Hcg & Hup & Hupd & Hstep); try done.
  exists cgrad, update. split; [done|]. split; [done|]. rewrite Hstep.
  destruct (compressed_result_state g p grad ea eas cgrad update lr n sd s) as [Hst Hin].
  by apply (rotate_skip g p [a; b] rank sd (n + 1)).
Qed.

(** X13. With [kappa = 0] a compressed update raises
    [ZeroDivisionError] when it tests [step % kappa], and it does so
    after the update itself: the store it leaves is the one a completed
    update without rotation leaves, parameter moved, moments averaged
    and step counter incremented. *)
Theorem kappa_zero_raises_after_update (g : group) (p : handle) (grad : Tensor)
    (s : store) (a b rank : Z) (lr : R) (n sd : Z) (ea eas : Tensor) :
  torch_laws ->
  g_rank g = Some rank -> _should_compress g [a; b] = true -> g_lr g = Some lr ->
  p_grad (heap s p) = Some grad -> t_shape grad = [a; b] ->
  t_shape (p_data (heap s p)) = [a; b] ->
  st_seed (pst s p) = Some sd -> seed_ok sd ->
  compressed_moments s p rank a b grad = Some (n, ea, eas) ->
  t_shape ea = cshape rank a b -> t_shape eas = [a; b] ->
  g_kappa g = 0 -> 0 <= n ->
  exists s',
    step_param g p s = Raise ZeroDivisionError s' /\
    step_param (with_kappa (n + 2) g) p s = Ok tt s' /\
    step_count s' p = n + 1 /\
    st_seed (pst s' p) = Some sd.
Proof.
  intros Hlaws Hrank Hpol Hlr Hg Hgrad Hdata Hseed Hsd Hmom Hea Heas Hk Hn.
  destruct (compressed_step_cases g p grad s a b rank lr n sd ea eas)
    as (cgrad & update & Hdown & Hcg & Hup & Hupd & Hstep); try done.
  set (s1 := compressed_result g p grad ea eas cgrad update lr n sd s).
  destruct (compressed_result_state g p grad ea eas cgrad update lr n sd s) as [Hst Hin].
  exists s1. split; [|split; [|split]].
  - rewrite Hstep. by apply (rotate_zero_kappa g p [a; b] rank sd (n + 1)).
  - rewrite (step_param_compressed_eq (with_kappa (n + 2) g) p a b rank grad n sd ea eas lr
               cgrad update); try done.
    apply (rotate_skip _ p [a; b] rank sd (n + 1)); cbn [with_kappa g_kappa];
      [done|lia|rewrite Z.mod_small; lia|done].
  - unfold step_count, s1. by rewrite Hst.
  - unfold s1, compressed_result. by rewrite pst_with_param_data, pst_with_state.
Qed.

(** X14. A compressed update whose incremented step counter is a
    multiple of [kappa] completes with a rotation: after the update,
    the first moment is up-projected with the current seed and
    down-projected again with [next_seed] of it, the result is copied
    into the first moment, and the seed is replaced; the second moment
    and the parameter are those of the update. *)
Theorem rotation_reprojects_moment (g : group) (p : handle) (grad : Tensor) (s : store)
    (a b rank : Z) (lr : R) (n sd : Z) (ea eas : Tensor) :
  torch_laws ->
  g_rank g = Some rank -> _should_compress g [a; b] = true -> g_lr g = Some lr ->
  p_grad (heap s p) = Some grad -> t_shape grad = [a; b] ->
  t_shape (p_data (heap s p)) = [a; b] ->
  st_seed (pst s p) = Some sd -> seed_ok sd ->
  compressed_moments s p rank a b grad = Some (n, ea, eas) ->
  t_shape ea = cshape rank a b -> t_shape eas = [a; b] ->
  g_kappa g <> 0 -> (n + 1) mod g_kappa g = 0 ->
  exists cgrad update nxt full down,
    _down_proj sd rank grad s = Ok cgrad s /\
    _up_proj sd rank [a; b]
      (torch.div_scalar (ema_exp_avg (fst (g_betas g)) ea cgrad)
         (1 - powerRZ (fst (g_betas g)) (n + 1))) s = Ok update s /\
    next_seed sd default_adv s = Ok nxt s /\
    _up_proj sd rank [a; b] (ema_exp_avg (fst (g_betas g)) ea cgrad) s = Ok full s /\
    _down_proj nxt rank full s = Ok down s /\
    step_param g p s =
    Ok tt (with_state p
             (mkPState (Some (n + 1)) (Some nxt)
                (Some (torch.with_data (ema_exp_avg (fst (g_betas g)) ea cgrad) (t_data down)))
                (Some (ema_exp_avg_sq (snd (g_betas g)) eas grad)))
             (compressed_result g p grad ea eas cgrad update lr n sd s)).
Proof.
  intros Hlaws Hrank Hpol Hlr Hg Hgrad Hdata Hseed Hsd Hmom Hea Heas Hk Hmod.
  destruct (policy_dims g a b rank Hrank Hpol) as (Hr0 & Ha0 & Hb0).
  destruct (compressed_step_cases g p grad s a b rank lr n sd ea eas)
    as (cgrad & update & Hdown & Hcg & Hup & Hupd & Hstep); try done.
  destruct (next_seed_ok sd Hlaws Hsd) as (nxt & Hnext & Hnxt).
  destruct (up_proj_ok sd rank a b (ema_exp_avg (fst (g_betas g)) ea cgrad))
    as (full & Hfull & Hfsh); try done; try lia.
  destruct (down_proj_ok nxt rank a b full) as (down & Hd & Hdsh); try done; try lia.
  exists cgrad, update, nxt, full, down. repeat (split; [done|]).
  rewrite Hstep.
  apply (rotate_rotates g p a b rank sd (n + 1) _ _ nxt full down); try done.
  - unfold compressed_result. by rewrite pst_with_param_data, pst_with_state.
  - simpl. congruence.
Qed.

(** *** State initialisation *)

Lemma update_param_fresh_full g p grad s :
  st_step (pst s p) = None ->
  let z := torch.zeros_like (p_data (heap s p)) in
  update_param false g p grad s =
  branch false g p grad z z 1
    (with_state p (mkPState (Some 1) (st_seed (pst s p)) (Some z) (Some z)) s).
Proof.
  intros Hn z. apply update_param_fresh; [done|].
  rewrite init_state_full. by rewrite pst_with_state, with_state_twice.
Qed.

Lemma update_param_fresh_compressed g p grad s rank a b :
  st_step (pst s p) = None ->
  g_rank g = Some rank -> t_shape grad = [a; b] -> 0 <= rank -> 0 <= a -> 0 <= b ->
  let ea := torch.to (torch.zeros (cshape rank a b)) grad in
  let eas := torch.zeros_like (p_data (heap s p)) in
  update_param true g p grad s =
  branch true g p grad ea eas 1
    (with_state p (mkPState (Some 1) (st_seed (pst s p)) (Some ea) (Some eas)) s).
Proof.
  intros Hn Hr Hsh Hr0 Ha Hb ea eas. apply update_param_fresh; [done|].
  rewrite (init_state_compressed g p grad _ rank a b) by done.
  by rewrite pst_with_state, with_state_twice.
Qed.

Lemma pst_entry p s : st_step (pst s p) <> None -> opt_state s !! p = Some (pst s p).
Proof. unfold pst. by destruct (opt_state s !! p). Qed.

(** X15. State initialisation is decided by the key ['step'] alone.
    When it is missing, both moments are created anew, whatever
    moments the dict held, and the seed is kept: the update is the one
    of a dict holding the seed only. When it is present nothing is
    created, and a missing moment raises [KeyError] for its key before
    anything is changed. *)
Theorem state_initialisation_trigger (g : group) (p : handle) (grad : Tensor) (s : store) :
  p_grad (heap s p) = Some grad ->
  (st_step (pst s p) = None ->
   step_param g p s =
   step_param g p (with_state p (mkPState None (st_seed (pst s p)) None None) s)) /\
  (is_Some (st_step (pst s p)) -> st_exp_avg (pst s p) = None ->
   step_param g p s = Raise (KeyError "exp_avg") s) /\
  (is_Some (st_step (pst s p)) -> is_Some (st_exp_avg (pst s p)) ->
   st_exp_avg_sq (pst s p) = None ->
   step_param g p s = Raise (KeyError "exp_avg_sq") s).
Proof.
  intros Hg.
  assert (Hstep : forall s0, heap s0 = heap s ->
    step_param g p s0 = update_param (_should_compress g (t_shape grad)) g p grad s0).
  { intros s0 Hh. unfold step_param, bind, get_param. by rewrite Hh, Hg. }
  assert (Htest : is_Some (st_step (pst s p)) ->
    (dict_nonempty (pst s p) && negb (bool_decide (is_Some (st_step (pst s p)))))
      || negb (dict_nonempty (pst s p)) = false).
  { intros [n Hn]. apply not_true_iff_false. rewrite init_test. congruence. }
  assert (Hid : is_Some (st_step (pst s p)) -> with_state p (pst s p) s = s).
  { intros [n Hn]. apply with_state_id, pst_entry. congruence. }
  split; [|split].
  - intros Hn. set (s2 := with_state p _ s).
    assert (Hn2 : st_step (pst s2 p) = None) by (unfold s2; by rewrite pst_with_state).
    assert (Hsd : st_seed (pst s2 p) = st_seed (pst s p))
      by (unfold s2; by rewrite pst_with_state).
    rewrite (Hstep s), (Hstep s2) by done.
    destruct (_should_compress g (t_shape grad)) eqn:Hc.
    + pose proof Hc as Hiff.
      apply should_compress_iff in Hiff as (rank & a & b & Hr & Hr0 & Hsh & Hmin & _).
      rewrite Hsh in Hc. destruct (policy_dims g a b rank Hr Hc) as (_ & Ha0 & Hb0).
      rewrite (update_param_fresh_compressed g p grad s rank a b),
        (update_param_fresh_compressed g p grad s2 rank a b) by (done || lia).
      rewrite Hsd. unfold s2. by rewrite heap_with_state, with_state_twice.
    + rewrite (update_param_fresh_full g p grad s), (update_param_fresh_full g p grad s2)
        by done.
      rewrite Hsd. unfold s2. by rewrite heap_with_state, with_state_twice.
  - intros Hsome Hea. rewrite Hstep by done.
    unfold update_param, bind at 1. rewrite self_state_eq.
    unfold bind at 1. rewrite (Htest Hsome). unfold ret.
    unfold bind. rewrite state_get_eq, pst_with_state, Hea, with_state_twice.
    by rewrite (Hid Hsome).
  - intros Hsome [ea Hea] Heas. rewrite Hstep by done.
    unfold update_param, bind at 1. rewrite self_state_eq.
    unfold bind at 1. rewrite (Htest Hsome). unfold ret.
    unfold bind at 1. rewrite state_get_eq, pst_with_state, Hea, with_state_twice.
    unfold bind. rewrite state_get_eq, pst_with_state, Heas, with_state_twice.
    by rewrite (Hid Hsome).
Qed.

(** *** Construction *)

Lemma only_seeds_mono lo hi hi' m : hi <= hi' -> only_seeds lo hi m -> only_seeds lo hi' m.
Proof.
  intros Hle Hm p st Hp. destruct (Hm p st Hp) as (k & -> & Hk). exists k. split; [done|lia].
Qed.

Lemma only_seeds_set lo hi k p s :
  lo < k <= hi -> only_seeds lo hi (opt_state s) ->
  only_seeds lo hi (opt_state (with_state p (set_seed k (pst s p)) s)).
Proof.
  intros Hk Hm q st. simpl. destruct (decide (q = p)) as [->|Hq].
  - rewrite lookup_insert_eq. intros [= <-]. exists k. split; [|done].
    unfold pst. destruct (opt_state s !! p) as [st0|] eqn:Hp; [|done].
    by destruct (Hm p st0 Hp) as (k0 & -> & _).
  - rewrite lookup_insert_ne by done. apply Hm.
Qed.

Lemma seed_params_only_seeds ps : forall lo idx s r s',
  lo <= idx -> only_seeds lo idx (opt_state s) ->
  seed_params ps idx s = Ok r s' ->
  r = idx + Z.of_nat (length ps) /\ only_seeds lo r (opt_state s').
Proof.
  induction ps as [|p0 ps IH]; intros lo idx s r s' Hlo Hm Hrun.
  - injection Hrun as <- <-. split; [simpl; lia|done].
  - simpl in Hrun. unfold bind at 1, get_param at 1 in Hrun. unfold bind at 1 in Hrun.
    destruct (p_requires_grad (heap s p0)).
    + rewrite state_set_eq in Hrun.
      apply (IH lo) in Hrun as [-> Hm']; [|lia|].
      * split; [simpl length; lia|done].
      * apply only_seeds_set; [lia|]. by apply (only_seeds_mono lo idx); [lia|].
    + unfold ret in Hrun.
      apply (IH lo) in Hrun as [-> Hm']; [|lia|].
      * split; [simpl length; lia|done].
      * by apply (only_seeds_mono lo idx); [lia|].
Qed.

Lemma seed_groups_only_seeds gs : forall lo idx s r s',
  lo <= idx -> only_seeds lo idx (opt_state s) ->
  seed_groups gs idx s = Ok r s' ->
  r = idx + Z.of_nat (length (all_params gs)) /\ only_seeds lo r (opt_state s').
Proof.
  induction gs as [|g gs IH]; intros lo idx s r s' Hlo Hm Hrun.
  - injection Hrun as <- <-. split; [simpl; lia|done].
  - simpl in Hrun. unfold bind in Hrun.
    destruct (seed_params (g_params g) idx s) as [r1 s1|] eqn:Hp; [|done].
    apply (seed_params_only_seeds _ lo) in Hp as [-> Hm1]; [|done..].
    apply (IH lo) in Hrun as [-> Hm']; [|lia|done].
    split; [|done].
    change (all_params (g :: gs)) with (g_params g ++ all_params gs).
    rewrite length_app. lia.
Qed.

Lemma FloraAdam_init_only_seeds params lr betas eps rank kappa seed s s' :
  FloraAdam_init params lr betas eps rank kappa seed s = Ok tt s' ->
  heap s' = heap s /\ ambient_rng s' = ambient_rng s /\
  only_seeds seed (seed + Z.of_nat (length (all_params (param_groups s')))) (opt_state s').
Proof.
  intros Hrun. destruct (params_accepted params) eqn:Hacc.
  2: { destruct (FloraAdam_init_fail params lr betas eps rank kappa seed s Hacc) as [s2 Hf].
       congruence. }
  destruct (FloraAdam_init_ok params lr betas eps rank kappa seed s Hacc)
    as (s2 & Hrun2 & Hg & Hs).
  assert (s2 = s') as -> by congruence.
  split; [apply (seeded_heap _ _ _ _ Hs)|]. split; [apply (seeded_rng _ _ _ _ Hs)|].
  unfold FloraAdam_init, bind in Hrun. rewrite Optimizer_init_ok in Hrun by done.
  unfold get_param_groups in Hrun. cbv beta iota in Hrun.
  set (s1 := mkStore _ _ _ _) in Hrun.
  destruct (seed_groups (param_groups s1) seed s1) as [r s3|] eqn:Hsg; [|done].
  injection Hrun as <-.
  apply (seed_groups_only_seeds _ seed) in Hsg as [-> Hm]; [|lia|by intros p st].
  by rewrite Hg.
Qed.

(** X16. Construction starts afresh: it changes neither the
    parameters nor the default generator, discards whatever state the
    store held, and leaves state dicts that hold a seed, between
    [seed + 1] and [seed] plus the number of parameters listed, and
    nothing else; every parameter therefore has its moments created by
    its first update. *)
Theorem construction_starts_afresh (params : params_arg) (lr : option R) (betas : R * R)
    (eps : R) (rank : option Z) (kappa seed : Z) (s s' : store) :
  FloraAdam_init params lr betas eps rank kappa seed s = Ok tt s' ->
  heap s' = heap s /\ ambient_rng s' = ambient_rng s /\
  (forall p st, opt_state s' !! p = Some st ->
     exists k, st = mkPState None (Some k) None None /\
               seed < k <= seed + Z.of_nat (length (all_params (param_groups s')))) /\
  (forall p, st_step (pst s' p) = None /\ st_exp_avg (pst s' p) = None /\
             st_exp_avg_sq (pst s' p) = None).
Proof.
  intros Hrun.
  destruct (FloraAdam_init_only_seeds _ _ _ _ _ _ _ _ _ Hrun) as (Hh & Hr & Hm).
  split; [done|]. split; [done|]. split; [exact Hm|].
  intros p. unfold pst. destruct (opt_state s' !! p) as [st|] eqn:Hp; [|done].
  by destruct (Hm p st Hp) as (k & -> & _).
Qed.

(** X17. A trainable matrix that the policy of its group accepts is
    ready for the compressed path as soon as the optimizer is
    constructed, provided [lr] is set, [kappa] is not 0 and the seeds
    handed out stay within the range of the generator; its updates
    with gradients of its shape then all complete. *)
Theorem constructed_parameters_are_ready (params : params_arg) (lr : option R)
    (betas : R * R) (eps : R) (rank : option Z) (kappa seed : Z) (s s' : store)
    (g : group) (p : handle) (a b r : Z) :
  FloraAdam_init params lr betas eps rank kappa seed s = Ok tt s' ->
  g ∈ param_groups s' -> p ∈ g_params g -> p_requires_grad (heap s p) = true ->
  t_shape (p_data (heap s p)) = [a; b] ->
  g_rank g = Some r -> _should_compress g [a; b] = true ->
  is_Some (g_lr g) -> g_kappa g <> 0 ->
  - 2 ^ 63 <= seed -> seed + Z.of_nat (length (all_params (param_groups s'))) < 2 ^ 64 ->
  ready g p a b r s' /\
  (torch_laws -> forall grads, Forall (fun grad => t_shape grad = [a; b]) grads ->
     exists s'', run_updates g p grads s' = Ok tt s'').
Proof.
  intros Hrun Hg Hp Hrg Hdata Hrank Hpol Hlr Hkappa Hlo Hhi.
  destruct (FloraAdam_init_only_seeds _ _ _ _ _ _ _ _ _ Hrun) as (Hh & Hr & Hm).
  assert (Hin : p ∈ all_params (param_groups s')).
  { unfold all_params. apply list_elem_of_In, in_concat. exists (g_params g).
    split; [apply in_map|]; by apply list_elem_of_In. }
  assert (Hseed : is_Some (st_seed (pst s' p))).
  { destruct (params_accepted params) eqn:Hacc.
    - destruct (FloraAdam_init_ok params lr betas eps rank kappa seed s Hacc)
        as (s2 & Hrun2 & _ & Hs).
      assert (s2 = s') as -> by congruence.
      apply (seeded_iff _ _ _ _ p) in Hs; [|done]. apply Hs. by split.
    - destruct (FloraAdam_init_fail params lr betas eps rank kappa seed s Hacc) as [s2 Hf].
      congruence. }
  assert (Hready : ready g p a b r s').
  { unfold pst in Hseed. destruct (opt_state s' !! p) as [st|] eqn:Hst;
      [|by destruct Hseed].
    destruct (Hm p st Hst) as (k & -> & Hk).
    split; try done.
    - by rewrite Hh.
    - exists k. unfold pst. rewrite Hst. split; [done|]. unfold seed_ok. lia.
    - left. unfold pst. by rewrite Hst. }
  split; [done|]. intros Hlaws grads Hall.
  destruct (run_updates_ready g p a b r grads s' Hlaws Hready Hall) as (s'' & Hs'' & _).
  by exists s''.
Qed.

(** *** Steps that complete *)

Lemma step_param_full_ready g p grad s :
  p_grad (heap s p) = Some grad -> full_ready g p grad s ->
  exists s', step_param g p s = Ok tt s' /\ full_ready g p grad s'.
Proof.
  intros Hg [Hpol [lr Hlr] Hdata Hmom].
  assert (Hstep : step_param g p s = update_param false g p grad s).
  { unfold step_param, bind, get_param. by rewrite Hg, Hpol. }
  rewrite Hstep.
  assert (Hdone : forall n sd ea eas,
    t_shape ea = t_shape grad -> t_shape eas = t_shape grad ->
    exists s',
      full_update g p grad ea eas n
        (with_state p (mkPState (Some n) sd (Some ea) (Some eas)) s) = Ok tt s' /\
      full_ready g p grad s').
  { intros n sd ea eas Hea Heas.
    rewrite (full_update_adam g p grad ea eas n _ lr sd (Some n)); try done;
      [|by rewrite pst_with_state].
    destruct (adam_step _ _ _ _ _ _ _ _ _) as [[x' m'] v'].
    eexists. split; [done|]. split; [done|by eexists| |].
    - unfold with_param_data. cbn [heap]. by rewrite fn_lookup_insert.
    - right. exists n, (torch.with_data ea m'), (torch.with_data eas v').
      by rewrite pst_with_param_data, pst_with_state. }
  destruct Hmom as [Hfresh|(n & ea & eas & Hn & Hea & Hsea & Heas & Hseas)].
  - rewrite update_param_fresh_full by done. unfold branch. by apply Hdone.
  - rewrite (update_param_initialised false g p grad s n ea eas) by done.
    unfold branch. by apply Hdone.
Qed.

Lemma updatable_local g q s s' :
  heap s' q = heap s q -> opt_state s' !! q = opt_state s !! q ->
  updatable g q s -> updatable g q s'.
Proof.
  intros Hh Ho. assert (Hp : pst s' q = pst s q) by (unfold pst; by rewrite Ho).
  unfold updatable. rewrite Hh. destruct (p_grad (heap s q)) as [grad|]; [|done].
  intros [[H1 H2 H3 H4]|(a & b & rank & Hsh & [H1 H2 H3 H4 H5 H6 H7])].
  - left. split; try done; by rewrite ?Hh, ?Hp.
  - right. exists a, b, rank. split; [done|]. split; try done; by rewrite ?Hh, ?Hp.
Qed.

Lemma step_param_updatable g p s :
  torch_laws -> updatable g p s ->
  exists s', step_param g p s = Ok tt s' /\ updatable g p s' /\ frame p s s' /\
    (forall grad, p_grad (heap s p) = Some grad -> step_count s' p = step_count s p + 1).
Proof.
  intros Hlaws Hu.
  assert (Hall : exists s', step_param g p s = Ok tt s' /\ updatable g p s').
  { unfold updatable in Hu. destruct (p_grad (heap s p)) as [grad|] eqn:Hg.
    - destruct Hu as [Hfull|(a & b & rank & Hsh & Hready)].
      + destruct (step_param_full_ready g p grad s Hg Hfull) as (s' & Hs' & Hf).
        exists s'. split; [done|]. unfold updatable.
        pose proof (keeps_frame_step_param g p s) as Hfr. rewrite Hs' in Hfr. simpl in Hfr.
        rewrite (frame_grad _ _ _ Hfr), Hg. by left.
      + destruct (step_param_ready g p a b rank grad s Hlaws Hready Hg Hsh)
          as (s' & Hs' & Hr).
        exists s'. split; [done|]. unfold updatable.
        pose proof (keeps_frame_step_param g p s) as Hfr. rewrite Hs' in Hfr. simpl in Hfr.
        rewrite (frame_grad _ _ _ Hfr), Hg. right. by exists a, b, rank.
    - exists s. split; [|by unfold updatable; rewrite Hg].
      unfold step_param, bind, get_param. by rewrite Hg. }
  destruct Hall as (s' & Hs' & Hu'). exists s'. split; [done|]. split; [done|].
  split.
  - pose proof (keeps_frame_step_param g p s) as Hfr. by rewrite Hs' in Hfr.
  - intros grad Hg. by apply (step_param_count g p grad s tt).
Qed.

Lemma for_each_app_eq {A} (l1 l2 : list A) body s :
  for_each (l1 ++ l2) body s =
  match for_each l1 body s with
  | Ok _ s1 => for_each l2 body s1
  | Raise e s1 => Raise e s1
  end.
Proof.
  revert s. induction l1 as [|x l1 IH]; intros s; simpl; [done|].
  unfold bind. destruct (body x s) as [[] s1|]; [apply IH|done].
Qed.

Lemma for_each_map {A B} (f : A -> B) (l : list A) body s :
  for_each (map f l) body s = for_each l (fun x => body (f x)) s.
Proof.
  revert s. induction l as [|x l IH]; intros s; simpl; [done|].
  unfold bind. destruct (body (f x) s) as [[] s1|]; [apply IH|done].
Qed.

Lemma update_loop_visits gs s :
  update_loop gs s = for_each (visits gs) (fun gp => step_param gp.1 gp.2) s.
Proof.
  unfold update_loop. revert s. induction gs as [|g gs IH]; intros s; [done|].
  change (visits (g :: gs)) with (map (pair g) (g_params g) ++ visits gs).
  rewrite for_each_app_eq, for_each_map. simpl. unfold bind.
  destruct (for_each (g_params g) _ s) as [[] s1|]; [apply IH|done].
Qed.

Lemma visits_params gs : (visits gs).*2 = all_params gs.
Proof.
  unfold visits, all_params. induction gs as [|g gs IH]; [done|].
  simpl. rewrite fmap_app, IH. f_equal.
  induction (g_params g) as [|p ps IHp]; [done|]. simpl. by f_equal.
Qed.

Lemma visits_elem gs g p : (g, p) ∈ visits gs <-> g ∈ gs /\ p ∈ g_params g.
Proof.
  unfold visits. rewrite list_elem_of_In, in_flat_map. split.
  - intros (g' & Hg' & Hp). apply in_map_iff in Hp as (q & [= <- <-] & Hq).
    by rewrite !list_elem_of_In.
  - intros [Hg Hp]. exists g. rewrite <- list_elem_of_In. split; [done|].
    apply in_map. by apply list_elem_of_In.
Qed.

Lemma visits_complete vs : forall s,
  torch_laws -> NoDup (vs.*2) ->
  (forall g p, (g, p) ∈ vs -> updatable g p s) ->
  exists s',
    for_each vs (fun gp => step_param gp.1 gp.2) s = Ok tt s' /\
    (forall g p, (g, p) ∈ vs -> updatable g p s') /\
    (forall q, q ∉ vs.*2 -> heap s' q = heap s q /\ opt_state s' !! q = opt_state s !! q) /\
    (forall g p grad, (g, p) ∈ vs -> p_grad (heap s p) = Some grad ->
       step_count s' p = step_count s p + 1).
Proof.
  induction vs as [|[g p] vs IH]; intros s Hlaws Hnd Hu.
  - exists s. split; [done|]. split; [done|]. split; [done|].
    intros g p grad Hin. by apply elem_of_nil in Hin.
  - simpl in Hnd. apply NoDup_cons in Hnd as [Hp Hnd].
    destruct (step_param_updatable g p s Hlaws (Hu g p ltac:(left)))
      as (s1 & Hs1 & Hu1 & Hfr & Hcnt).
    assert (Hne : forall g' q, (g', q) ∈ vs -> q <> p).
    { intros g' q Hin ->. apply Hp. apply list_elem_of_fmap. by exists (g', p). }
    destruct (IH s1 Hlaws Hnd) as (s' & Hs' & Hu' & Hother & Hcount).
    { intros g' q Hin. apply (updatable_local g' q s).
      - apply (frame_heap _ _ _ Hfr). by eapply Hne.
      - apply (frame_state _ _ _ Hfr). by eapply Hne.
      - apply Hu. by right. }
    destruct (Hother p Hp) as [Hhp Hop].
    exists s'. split; [|split; [|split]].
    + simpl. unfold bind. by rewrite Hs1.
    + intros g' q Hin. apply elem_of_cons in Hin as [[= -> ->]|Hin]; [|by apply Hu'].
      by apply (updatable_local g p s1).
    + intros q Hq. simpl in Hq. apply not_elem_of_cons in Hq as [Hqp Hq].
      destruct (Hother q Hq) as [-> ->].
      split; [by apply (frame_heap _ _ _ Hfr)|by apply (frame_state _ _ _ Hfr)].
    + intros g' q grad Hin Hg. apply elem_of_cons in Hin as [[= -> ->]|Hin].
      * rewrite <- (Hcnt grad Hg). unfold step_count, pst. by rewrite Hop.
      * assert (Hqp : q <> p) by (by eapply Hne).
        rewrite (Hcount g' q grad Hin).
        -- unfold step_count, pst. by rewrite (frame_state _ _ _ Hfr q Hqp).
        -- by rewrite (frame_heap _ _ _ Hfr q Hqp).
Qed.

(** X18. A step completes when every parameter the groups list is
    listed once and is either without gradient or ready for the path
    its gradient takes; it returns [None], increments by one the step
    counter of every listed parameter that has a gradient, and leaves
    every listed parameter ready for the next step. *)
Theorem step_completes (s : store) :
  torch_laws -> NoDup (all_params (param_groups s)) ->
  (forall g p, g ∈ param_groups s -> p ∈ g_params g -> updatable g p s) ->
  exists s',
    step None s = Ok None s' /\
    (forall g p, g ∈ param_groups s -> p ∈ g_params g -> updatable g p s') /\
    (forall p grad, p ∈ all_params (param_groups s) -> p_grad (heap s p) = Some grad ->
       step_count s' p = step_count s p + 1).
Proof.
  intros Hlaws Hnd Hu.
  destruct (visits_complete (visits (param_groups s)) s Hlaws) as (s' & Hs' & Hu' & _ & Hcnt).
  { by rewrite visits_params. }
  { intros g p Hin. apply visits_elem in Hin as [Hg Hp]. by apply Hu. }
  exists s'. split; [|split].
  - rewrite step_eq. simpl. by rewrite update_loop_visits, Hs'.
  - intros g p Hg Hp. apply Hu'. by apply visits_elem.
  - intros p grad Hin Hg. rewrite <- visits_params in Hin.
    apply list_elem_of_fmap in Hin as ([g q] & -> & Hin). by apply (Hcnt g q grad).
Qed.

(** *** The exceptions an update can raise *)

Lemma raises_only_ret P {A} (a : A) : raises_only P (ret a).
Proof. by intros s e s'. Qed.

Lemma raises_only_raise (P : exn -> Prop) {A} e : P e -> raises_only P (raise e : M A).
Proof. intros He s e' s'. unfold raise. by intros [= <- _]. Qed.

Lemma raises_only_lift (P : exn -> Prop) {A} e (o : option A) :
  P e -> raises_only P (lift e o).
Proof. intros He. destruct o; [apply raises_only_ret | by apply raises_only_raise]. Qed.

Lemma raises_only_bind P {A B} (c : M A) (k : A -> M B) :
  raises_only P c -> (forall a, raises_only P (k a)) -> raises_only P (bind c k).
Proof.
  intros Hc Hk s e s'. unfold bind. destruct (c s) as [a s1|e1 s1] eqn:E.
  - apply Hk.
  - intros [= <- <-]. by eapply Hc.
Qed.

Lemma raises_only_mono (P P' : exn -> Prop) {A} (c : M A) :
  (forall e, P e -> P' e) -> raises_only P c -> raises_only P' c.
Proof. intros HP Hc s e s' Hrun. apply HP. by eapply Hc. Qed.

Lemma raises_only_self_state P p : raises_only P (self_state p).
Proof. intros s e s'. by rewrite self_state_eq. Qed.

Lemma raises_only_state_set P p upd : raises_only P (state_set p upd).
Proof. intros s e s'. by rewrite state_set_eq. Qed.

Lemma raises_only_state_get (P : exn -> Prop) {A} p key (field : pstate -> option A) :
  P (KeyError key) -> raises_only P (state_get p key field).
Proof.
  intros Hk s e s'. rewrite state_get_eq. destruct (field (pst s p)); [done|].
  by intros [= <- _].
Qed.

Lemma raises_only_get_param P p : raises_only P (get_param p).
Proof. by intros s e s'. Qed.

Lemma raises_only_set_data P p v : raises_only P (set_data p v).
Proof. by intros s e s'. Qed.

Ltac raises_only_tac :=
  repeat first
    [ apply raises_only_ret
    | apply raises_only_self_state
    | apply raises_only_state_set
    | apply raises_only_get_param
    | apply raises_only_set_data
    | apply raises_only_raise; solve [simpl; auto]
    | apply raises_only_lift; solve [simpl; auto]
    | apply raises_only_state_get; solve [simpl; auto]
    | match goal with
      | |- raises_only _ (if ?b then _ else _) => destruct b
      | |- raises_only _ (match ?x with _ => _ end) => destruct x
      end
    | apply raises_only_bind; [|intros] ].

Lemma raises_only_py_index l i : raises_only (eq IndexError) (py_index l i).
Proof. unfold py_index. raises_only_tac. Qed.

Lemma raises_only_torch_zeros size : raises_only (eq RuntimeError) (torch_zeros size).
Proof. unfold torch_zeros. raises_only_tac. Qed.

Lemma raises_only_stable_randn shape seed dev dt :
  raises_only (eq RuntimeError) (stable_randn shape seed dev dt).
Proof. unfold stable_randn, torch_randn. raises_only_tac. Qed.

Lemma raises_only_next_seed seed : raises_only (eq RuntimeError) (next_seed seed default_adv).
Proof.
  intros s e s'. unfold next_seed, bind.
  destruct (manual_seed cpu seed) as [g|]; simpl; [done|]. by intros [= <- _].
Qed.

Lemma raises_only_split_unpack seed :
  raises_only (eq RuntimeError) (bind (split_seed seed) (fun l => unpack2 l)).
Proof.
  intros s e s'. unfold split_seed, bind.
  destruct (manual_seed cpu seed) as [g|]; simpl; [done|]. by intros [= <- _].
Qed.

Lemma stable_randn_dims shape seed dev dt s rn s' x :
  stable_randn shape seed dev dt s = Ok rn s' -> In x shape -> 0 <= x.
Proof.
  unfold stable_randn, bind, torch_randn.
  destruct (manual_seed _ seed); simpl; [|done].
  destruct (forallb (Z.leb 0) shape) eqn:Hpos; [|done].
  intros _ Hin. rewrite forallb_forall in Hpos. by apply Z.leb_le, Hpos.
Qed.

(** [math.sqrt(rank)] runs after the draw, which refuses a negative
    rank. *)
Lemma raises_only_randn_sqrt (P : exn -> Prop) {A} shape rank seed dev dt
    (k : Tensor -> R -> M A) :
  In rank shape -> P RuntimeError -> (forall rn sq, raises_only P (k rn sq)) ->
  raises_only P
    (bind (stable_randn shape seed dev dt)
       (fun rn => bind (math_sqrt rank) (fun sq => k rn sq))).
Proof.
  intros Hin HP Hk s e s'. unfold bind at 1.
  destruct (stable_randn shape seed dev dt s) as [rn s1|e1 s1] eqn:Hrn.
  - pose proof (stable_randn_dims _ _ _ _ _ _ _ _ Hrn Hin) as Hr.
    unfold bind. rewrite math_sqrt_eq by done. apply Hk.
  - intros [= <- <-]. by rewrite <- (raises_only_stable_randn _ _ _ _ _ _ _ Hrn).
Qed.

Lemma raises_only_down_proj seed rank x : raises_only torch_error (_down_proj seed rank x).
Proof.
  unfold _down_proj.
  apply raises_only_bind.
  { eapply raises_only_mono; [|apply raises_only_split_unpack]. intros e <-. by left. }
  intros [lseed rseed].
  apply raises_only_bind.
  { eapply raises_only_mono; [|apply raises_only_py_index]. intros e <-. by right. }
  intros s0. apply raises_only_bind.
  { eapply raises_only_mono; [|apply raises_only_py_index]. intros e <-. by right. }
  intros sl. destruct (s0 <? sl).
  - apply raises_only_randn_sqrt; [by left|by left|].
    intros rn sq. apply raises_only_lift. by left.
  - apply raises_only_randn_sqrt; [right; by left|by left|].
    intros rn sq. apply raises_only_lift. by left.
Qed.

Lemma raises_only_up_proj seed rank shape x :
  raises_only torch_error (_up_proj seed rank shape x).
Proof.
  unfold _up_proj.
  apply raises_only_bind.
  { eapply raises_only_mono; [|apply raises_only_split_unpack]. intros e <-. by left. }
  intros [lseed rseed].
  apply raises_only_bind.
  { eapply raises_only_mono; [|apply raises_only_py_index]. intros e <-. by right. }
  intros s0. apply raises_only_bind.
  { eapply raises_only_mono; [|apply raises_only_py_index]. intros e <-. by right. }
  intros sl. destruct (s0 <? sl).
  - apply raises_only_randn_sqrt; [by left|by left|].
    intros rn sq. apply raises_only_bind; [|intros]; apply raises_only_lift; by left.
  - apply raises_only_randn_sqrt; [right; by left|by left|].
    intros rn sq. apply raises_only_bind; [|intros]; apply raises_only_lift; by left.
Qed.

Lemma torch_error_update g e : torch_error e -> update_error true g e.
Proof. by intros [->| ->]. Qed.

Lemma raises_only_update_exp_avg m g p a b c :
  raises_only (update_error m g) (update_exp_avg p a b c).
Proof. unfold update_exp_avg. raises_only_tac. Qed.

Lemma raises_only_update_exp_avg_sq m g p a b c :
  raises_only (update_error m g) (update_exp_avg_sq p a b c).
Proof. unfold update_exp_avg_sq. raises_only_tac. Qed.

Lemma raises_only_param_addcdiv m g p num denom :
  raises_only (update_error m g) (param_addcdiv p num denom (g_lr g)).
Proof.
  unfold param_addcdiv. destruct (g_lr g) as [lr|] eqn:Hlr; simpl option_map;
    raises_only_tac.
Qed.

Lemma raises_only_full_update g p grad ea eas t :
  raises_only (update_error false g) (full_update g p grad ea eas t).
Proof.
  unfold full_update. cbv zeta.
  apply raises_only_bind; [apply raises_only_update_exp_avg|intros ea1].
  apply raises_only_bind; [apply raises_only_update_exp_avg_sq|intros eas1].
  apply raises_only_param_addcdiv.
Qed.

Lemma raises_only_init_state m g p grad :
  (m = true -> is_Some (g_rank g)) ->
  raises_only (update_error m g) (init_state g p grad m).
Proof.
  intros Hm. unfold init_state.
  apply raises_only_bind; [apply raises_only_state_set|intros _].
  apply raises_only_bind; [apply raises_only_get_param|intros prm].
  destruct m; [|raises_only_tac].
  destruct (Hm eq_refl) as [rank ->].
  apply raises_only_bind.
  { eapply raises_only_mono; [|apply raises_only_py_index]. by intros e <-. }
  intros s0. apply raises_only_bind.
  { eapply raises_only_mono; [|apply raises_only_py_index]. by intros e <-. }
  intros sl. apply raises_only_bind; [apply raises_only_ret|intros r].
  apply raises_only_bind.
  { eapply raises_only_mono; [|apply raises_only_torch_zeros]. by intros e <-. }
  intros z. raises_only_tac.
Qed.

Lemma wp_raises_only (P : exn -> Prop) {A} (c : M A) s :
  raises_only P c -> wp c (fun _ _ => True) (fun e _ => P e) s.
Proof. intros Hc. unfold wp. destruct (c s) eqn:E; [done|by eapply Hc]. Qed.

Lemma wp_keeps_raises R (P : exn -> Prop) {A} (c : M A) (Q : A -> store -> Prop)
    (E : exn -> store -> Prop) s :
  keeps R c -> raises_only P c ->
  (forall a s', R s s' -> Q a s') -> (forall e s', P e -> E e s') ->
  wp c Q E s.
Proof.
  intros Hk Hr HQ HE. specialize (Hk s). specialize (Hr s). unfold wp.
  destruct (c s) as [a s'|e s']; simpl in *; [auto|].
  apply HE. by eapply Hr.
Qed.

Lemma rotate_errors g p sh r sd s :
  is_Some (st_step (pst s p)) ->
  wp (rotate g p sh r sd) (fun _ _ => True) (fun e _ => update_error true g e) s.
Proof.
  intros [t Ht]. unfold rotate. wp_step. wp_step. rewrite Ht.
  destruct (g_kappa g =? 0) eqn:Hk.
  { apply wp_raise. simpl. split; [by apply Z.eqb_eq|done]. }
  destruct (t mod g_kappa g =? 0); [|by apply wp_ret].
  apply wp_raises_only.
  apply raises_only_bind; [apply raises_only_state_get; simpl; auto|intros seed].
  apply raises_only_bind.
  { eapply raises_only_mono; [|apply raises_only_next_seed]. by intros e <-. }
  intros nxt.
  apply raises_only_bind; [apply raises_only_state_get; simpl; auto|intros target].
  apply raises_only_bind; [apply raises_only_state_get; simpl; auto|intros ctensor].
  apply raises_only_bind.
  { eapply raises_only_mono; [apply torch_error_update|apply raises_only_up_proj]. }
  intros full. apply raises_only_bind.
  { eapply raises_only_mono; [apply torch_error_update|apply raises_only_down_proj]. }
  intros down. raises_only_tac.
Qed.

Lemma compressed_update_errors g p grad ea eas t s :
  is_Some (g_rank g) -> is_Some (st_step (pst s p)) ->
  wp (compressed_update g p grad ea eas t) (fun _ _ => True)
    (fun e _ => update_error true g e) s.
Proof.
  intros [rank Hrank] Hstep. unfold compressed_update. wp_step. wp_step.
  destruct (st_seed (pst s p)) as [cur|]; [|simpl; auto].
  wp_step. wp_step. rewrite Hrank. wp_step.
  apply wp_stateless; [apply stateless_down_proj| |].
  2: { intros e He. apply torch_error_update. by eapply raises_only_down_proj. }
  intros cgrad _. wp_step.
  set (s0 := with_state p (pst s p) s).
  assert (H0 : on_state same_step p s s0).
  { unfold on_state, s0. by rewrite pst_with_state. }
  eapply (wp_keeps_raises (on_state same_step p));
    [apply keeps_step_update_exp_avg | apply (raises_only_update_exp_avg true g) | |done].
  intros ea1 s1 H1. wp_step. pose proof (transitivity H0 H1) as H01.
  eapply (wp_keeps_raises (on_state same_step p));
    [apply keeps_step_update_exp_avg_sq | apply (raises_only_update_exp_avg_sq true g) | |
     done].
  intros eas1 s2 H2. wp_step. pose proof (transitivity H01 H2) as H02.
  apply wp_stateless; [apply stateless_up_proj| |].
  2: { intros e He. apply torch_error_update. by eapply raises_only_up_proj. }
  intros update _. wp_step.
  eapply (wp_keeps_raises (on_state same_step p));
    [apply keeps_step_param_addcdiv | apply (raises_only_param_addcdiv true g) | |done].
  intros [] s3 H3. pose proof (transitivity H02 H3) as H03.
  apply rotate_errors. unfold on_state, same_step in H03. by rewrite H03.
Qed.

Lemma update_param_errors m g p grad s :
  (m = true -> is_Some (g_rank g)) ->
  wp (update_param m g p grad) (fun _ _ => True) (fun e _ => update_error m g e) s.
Proof.
  intros Hm. unfold update_param. wp_step. wp_step. wp_step.
  apply wp_mono with
    (Q := fun _ s1 => is_Some (st_step (pst s1 p))) (E := fun e _ => update_error m g e).
  { destruct (_ || _) eqn:Htest.
    - pose proof (init_state_step g p grad m (with_state p (pst s p) s)) as Hinit.
      pose proof (raises_only_init_state m g p grad Hm (with_state p (pst s p) s)) as Hr.
      unfold wp in *. destruct (init_state _ _ _ _ _) as [a s1|e s1]; [|by eapply Hr].
      by rewrite Hinit.
    - wp_step. apply not_true_iff_false in Htest. rewrite init_test in Htest.
      by destruct (st_step (pst s p)). }
  2: done.
  intros _ s1 Hs1. wp_step. wp_step.
  destruct (st_exp_avg (pst s1 p)); [|simpl; auto]. wp_step. wp_step.
  destruct (st_exp_avg_sq (pst s1 p)); [|simpl; auto]. wp_step. wp_step.
  destruct Hs1 as [n Hn]. rewrite Hn. wp_step. wp_step. wp_step. wp_step. simpl.
  destruct m.
  - apply compressed_update_errors; [by apply Hm|]. by rewrite pst_with_state.
  - apply wp_raises_only, raises_only_full_update.
Qed.


(** *** Projections are linear *)

Lemma nth_zip_with_0 (f : R -> R -> R) (l k : list R) (i : nat) :
  length l = length k -> f 0%R 0%R = 0%R ->
  nth i (zip_with f l k) 0%R = f (nth i l 0%R) (nth i k 0%R).
Proof.
  intros Hlen H0. revert k i Hlen.
  induction l as [|x l IH]; intros [|y k] i Hlen; try done.
  - by destruct i.
  - destruct i as [|i]; simpl; [done|]. apply IH. by injection Hlen.
Qed.

Lemma dot_ext k (f g f' g' : nat -> R) :
  (forall l, f l = f' l) -> (forall l, g l = g' l) -> torch.dot k f g = torch.dot k f' g'.
Proof.
  intros Hf Hg. unfold torch.dot. f_equal. apply map_ext. intros l. by rewrite Hf, Hg.
Qed.

Lemma dot_linear_r k (f g1 g2 : nat -> R) (c : R) :
  torch.dot k f (fun l => adam_exp_avg c (g1 l) (g2 l)) =
  adam_exp_avg c (torch.dot k f g1) (torch.dot k f g2).
Proof.
  unfold torch.dot, adam_exp_avg. induction (seq 0 k) as [|l ls IH]; simpl.
  - ring.
  - rewrite IH. ring.
Qed.

Lemma dot_linear_l k (f1 f2 g : nat -> R) (c : R) :
  torch.dot k (fun l => adam_exp_avg c (f1 l) (f2 l)) g =
  adam_exp_avg c (torch.dot k f1 g) (torch.dot k f2 g).
Proof.
  unfold torch.dot, adam_exp_avg. induction (seq 0 k) as [|l ls IH]; simpl.
  - ring.
  - rewrite IH. ring.
Qed.

Lemma dot_zero_r k (f : nat -> R) : torch.dot k f (fun _ => 0%R) = 0%R.
Proof.
  unfold torch.dot. induction (seq 0 k) as [|l ls IH]; simpl; [done|]. rewrite IH. ring.
Qed.

Lemma dot_zero_l k (g : nat -> R) : torch.dot k (fun _ => 0%R) g = 0%R.
Proof.
  unfold torch.dot. induction (seq 0 k) as [|l ls IH]; simpl; [done|]. rewrite IH. ring.
Qed.

Lemma zip_with_map2 {A B C D} (h : B -> C -> D) (f : A -> B) (g : A -> C) (l : list A) :
  zip_with h (map f l) (map g l) = map (fun x => h (f x) (g x)) l.
Proof. induction l as [|x l IH]; simpl; [done|]. by rewrite IH. Qed.

Lemma mat_build_zip_with (h : R -> R -> R) rows cols (f g : nat -> nat -> R) :
  zip_with h (torch.mat_build rows cols f) (torch.mat_build rows cols g) =
  torch.mat_build rows cols (fun i j => h (f i j) (g i j)).
Proof.
  unfold torch.mat_build. induction (seq 0 rows) as [|i rest IH]; simpl; [done|].
  rewrite zip_with_app by (by rewrite !length_map). by rewrite IH, zip_with_map2.
Qed.

Lemma mat_build_ext rows cols (f g : nat -> nat -> R) :
  (forall i j, f i j = g i j) -> torch.mat_build rows cols f = torch.mat_build rows cols g.
Proof.
  intros Hfg. unfold torch.mat_build. apply flat_map_ext. intros i. apply map_ext.
  intros j. apply Hfg.
Qed.

Lemma mat_build_zero rows cols :
  torch.mat_build rows cols (fun _ _ => 0%R) = repeat 0%R (rows * cols).
Proof.
  unfold torch.mat_build.
  assert (Hrow : forall l : list nat, map (fun _ => 0%R) l = repeat 0%R (length l)).
  { induction l as [|x l IH]; simpl; [done|]. by rewrite IH. }
  assert (Hall : forall l : list nat,
    flat_map (fun _ => map (fun _ => 0%R) (seq 0 cols)) l = repeat 0%R (length l * cols)).
  { induction l as [|i rest IH]; simpl; [done|].
    by rewrite IH, Hrow, length_seq, repeat_app. }
  by rewrite Hall, length_seq.
Qed.

Lemma mat_get_ema c n (x y : list R) i j :
  length x = length y ->
  torch.mat_get n (zip_with (adam_exp_avg c) x y) i j =
  adam_exp_avg c (torch.mat_get n x i j) (torch.mat_get n y i j).
Proof.
  intros Hlen. unfold torch.mat_get. apply nth_zip_with_0; [done|].
  unfold adam_exp_avg. ring.
Qed.

(** [P @ (c X + (1 - c) Y) = c (P @ X) + (1 - c) (P @ Y)], and the
    same on the other side. *)
Lemma matmul_ema_r P X Y c m k n PX PY :
  t_shape P = [m; k] -> t_shape X = [k; n] -> t_shape Y = [k; n] ->
  length (t_data X) = length (t_data Y) ->
  torch.matmul P X = Some PX -> torch.matmul P Y = Some PY ->
  torch.matmul P (ema_exp_avg c X Y) = Some (ema_exp_avg c PX PY).
Proof.
  intros HP HX HY Hlen. unfold torch.matmul, ema_exp_avg.
  cbn [torch.with_data t_shape t_data t_device t_dtype].
  rewrite HP, HX, HY. destruct (decide (k = k)); [|done]. intros [= <-] [= <-].
  unfold torch.with_data. cbn [t_shape t_data t_device t_dtype]. do 2 f_equal.
  rewrite mat_build_zip_with. apply mat_build_ext. intros i j.
  rewrite <- dot_linear_r. apply dot_ext; [done|]. intros l. by apply mat_get_ema.
Qed.

Lemma matmul_ema_l P X Y c m k n XP YP :
  t_shape P = [k; n] -> t_shape X = [m; k] -> t_shape Y = [m; k] ->
  length (t_data X) = length (t_data Y) ->
  t_device Y = t_device X -> t_dtype Y = t_dtype X ->
  torch.matmul X P = Some XP -> torch.matmul Y P = Some YP ->
  torch.matmul (ema_exp_avg c X Y) P = Some (ema_exp_avg c XP YP).
Proof.
  intros HP HX HY Hlen Hdev Hdt. unfold torch.matmul, ema_exp_avg.
  cbn [torch.with_data t_shape t_data t_device t_dtype].
  rewrite HP, HX, HY. destruct (decide (k = k)); [|done]. intros [= <-] [= <-].
  unfold torch.with_data. cbn [t_shape t_data t_device t_dtype]. do 2 f_equal.
  rewrite mat_build_zip_with. apply mat_build_ext. intros i j.
  rewrite <- dot_linear_l. apply dot_ext; [|done]. intros l. by apply mat_get_ema.
Qed.

Lemma mat_get_zeros cols n i j : torch.mat_get cols (repeat 0%R n) i j = 0%R.
Proof. unfold torch.mat_get. apply nth_repeat. Qed.

Lemma numel_matrix m n : 0 <= m -> 0 <= n -> torch.numel [m; n] = (Z.to_nat m * Z.to_nat n)%nat.
Proof. intros Hm Hn. unfold torch.numel. simpl. rewrite Z.mul_1_r. apply Z2Nat.inj_mul; lia. Qed.

Lemma matmul_zeros_r P g m k n :
  0 <= m -> 0 <= n -> t_shape P = [m; k] -> t_shape g = [k; n] ->
  t_device P = t_device g -> t_dtype P = t_dtype g ->
  torch.matmul P (torch.zeros_like g) = Some (torch.to (torch.zeros [m; n]) g).
Proof.
  intros Hm Hn HP Hg Hdev Hdt. unfold torch.matmul, torch.zeros_like, torch.to, torch.zeros.
  cbn [t_shape t_data t_device t_dtype]. rewrite HP, Hg, decide_True by done.
  rewrite Hdev, Hdt. do 2 f_equal. rewrite (numel_matrix m n) by done.
  rewrite <- mat_build_zero. apply mat_build_ext. intros i j.
  etrans; [|apply (dot_zero_r (Z.to_nat k)
                     (fun l => torch.mat_get (Z.to_nat k) (t_data P) i l))].
  apply dot_ext; [done|]. intros l. apply mat_get_zeros.
Qed.

Lemma matmul_zeros_l P g m k n :
  0 <= m -> 0 <= n -> t_shape P = [k; n] -> t_shape g = [m; k] ->
  torch.matmul (torch.zeros_like g) P = Some (torch.to (torch.zeros [m; n]) g).
Proof.
  intros Hm Hn HP Hg. unfold torch.matmul, torch.zeros_like, torch.to, torch.zeros.
  cbn [t_shape t_data t_device t_dtype]. rewrite HP, Hg, decide_True by done.
  do 2 f_equal. rewrite (numel_matrix m n) by done.
  rewrite <- mat_build_zero. apply mat_build_ext. intros i j.
  etrans; [|apply (dot_zero_l (Z.to_nat k)
                     (fun l => torch.mat_get (Z.to_nat n) (t_data P) l j))].
  apply dot_ext; [|done]. intros l. apply mat_get_zeros.
Qed.

Lemma down_proj_inv seed rank x a b y s s' :
  t_shape x = [a; b] -> _down_proj seed rank x s = Ok y s' ->
  exists lseed rseed, split_seed seed s = Ok [lseed; rseed] s /\ 0 <= rank /\ 0 <= a /\ 0 <= b.
Proof.
  intros Hx Hrun.
  destruct (manual_seed cpu seed) as [g0|] eqn:Hg0.
  2: { unfold _down_proj, split_seed, bind in Hrun. by rewrite Hg0 in Hrun. }
  do 2 eexists. split; [by apply split_seed_eq|].
  unfold _down_proj, bind in Hrun. rewrite (split_seed_eq _ _ _ Hg0) in Hrun.
  cbv beta iota delta [unpack2 ret] in Hrun.
  rewrite Hx, py_index_first, py_index_last in Hrun. cbv beta iota delta [ret] in Hrun.
  destruct (a <? b) eqn:Hab.
  - apply Z.ltb_lt in Hab.
    destruct (stable_randn [rank; a] _ _ _ s) as [rn s1|] eqn:Hrn; [|done].
    pose proof (stable_randn_dims _ _ _ _ _ _ _ rank Hrn ltac:(by left)).
    pose proof (stable_randn_dims _ _ _ _ _ _ _ a Hrn ltac:(right; by left)). lia.
  - apply Z.ltb_ge in Hab.
    destruct (stable_randn [b; rank] _ _ _ s) as [rn s1|] eqn:Hrn; [|done].
    pose proof (stable_randn_dims _ _ _ _ _ _ _ b Hrn ltac:(by left)).
    pose proof (stable_randn_dims _ _ _ _ _ _ _ rank Hrn ltac:(right; by left)). lia.
Qed.

Lemma down_proj_ema_zeros (seed rank a b : Z) (m g cm cg : Tensor) (c : R) (s : store) :
  t_shape m = [a; b] -> t_shape g = [a; b] ->
  length (t_data m) = length (t_data g) ->
  t_device g = t_device m -> t_dtype g = t_dtype m ->
  _down_proj seed rank m s = Ok cm s -> _down_proj seed rank g s = Ok cg s ->
  _down_proj seed rank (ema_exp_avg c m g) s = Ok (ema_exp_avg c cm cg) s /\
  _down_proj seed rank (torch.zeros_like g) s =
    Ok (torch.to (torch.zeros (cshape rank a b)) g) s.
Proof.
  intros Hm Hg Hlen Hdev Hdt Hcm Hcg.
  destruct (down_proj_inv seed rank m a b cm s s Hm Hcm)
    as (lseed & rseed & Hsplit & Hr & Ha & Hb).
  rewrite (down_proj_eq seed rank lseed rseed a b) in Hcm by done.
  rewrite (down_proj_eq seed rank lseed rseed a b) in Hcg by done.
  rewrite !(down_proj_eq seed rank lseed rseed a b) by done.
  cbn [ema_exp_avg torch.zeros_like torch.with_data t_device t_dtype].
  rewrite ?Hdev, ?Hdt. rewrite Hdev, Hdt in Hcg. unfold cshape.
  destruct (a <? b).
  - destruct (manual_seed (t_device m) lseed) as [g0|]; [|done].
    destruct (torch.matmul _ m) as [y1|] eqn:H1; [|done].
    destruct (torch.matmul _ g) as [y2|] eqn:H2; [|done].
    injection Hcm as ->. injection Hcg as ->. split.
    + by rewrite (matmul_ema_r _ m g c rank a b cm cg).
    + by rewrite (matmul_zeros_r _ g rank a b).
  - destruct (manual_seed (t_device m) rseed) as [g0|]; [|done].
    destruct (torch.matmul m _) as [y1|] eqn:H1; [|done].
    destruct (torch.matmul g _) as [y2|] eqn:H2; [|done].
    injection Hcm as ->. injection Hcg as ->. split.
    + by rewrite (matmul_ema_l _ m g c a b rank cm cg).
    + by rewrite (matmul_zeros_l _ g a b rank).
Qed.

(** X20. Down-projection commutes with the moving average of the first
    moment: for two matrices of one shape, device and dtype, the
    projection of [c * m + (1 - c) * g] is [c] times the projection of
    [m] plus [1 - c] times that of [g]; and the projection of zero is
    the zero first moment that state initialisation creates. *)
Theorem down_proj_is_linear (seed rank a b : Z) (m g cm cg : Tensor) (c : R) (s : store) :
  t_shape m = [a; b] -> t_shape g = [a; b] ->
  length (t_data m) = length (t_data g) ->
  t_device g = t_device m -> t_dtype g = t_dtype m ->
  _down_proj seed rank m s = Ok cm s -> _down_proj seed rank g s = Ok cg s ->
  _down_proj seed rank (ema_exp_avg c m g) s = Ok (ema_exp_avg c cm cg) s /\
  _down_proj seed rank (torch.zeros_like g) s =
    Ok (torch.to (torch.zeros (cshape rank a b)) g) s.
Proof. apply down_proj_ema_zeros. Qed.

(** *** The compressed first moment between rotations *)

Lemma matrix_like_ema a b d dt c m g :
  matrix_like a b d dt m -> matrix_like a b d dt g ->
  matrix_like a b d dt (ema_exp_avg c m g).
Proof.
  intros (Hs & Hd & Ht & Hl) (Hs' & Hd' & Ht' & Hl'). repeat split; try done.
  unfold ema_exp_avg. cbn [torch.with_data t_data]. rewrite length_zip_with. lia.
Qed.

Lemma matrix_like_zeros a b d dt g :
  matrix_like a b d dt g -> matrix_like a b d dt (torch.zeros_like g).
Proof.
  intros (Hs & Hd & Ht & Hl). repeat split; try done.
  unfold torch.zeros_like. cbn [t_data]. by rewrite repeat_length, Hs.
Qed.

(** One update that does not rotate keeps the first moment the
    projection of the full-space moment. *)
Lemma compressed_step_projected g p a b rank lr sd d dt grad M n ea eas s :
  torch_laws ->
  g_rank g = Some rank -> _should_compress g [a; b] = true -> g_lr g = Some lr ->
  p_grad (heap s p) = Some grad ->
  matrix_like a b d dt grad -> matrix_like a b d dt M ->
  t_shape (p_data (heap s p)) = [a; b] ->
  st_seed (pst s p) = Some sd -> seed_ok sd ->
  compressed_moments s p rank a b grad = Some (n, ea, eas) ->
  t_shape ea = cshape rank a b -> t_shape eas = [a; b] ->
  0 <= n -> n + 1 < g_kappa g ->
  (forall s0, _down_proj sd rank M s0 = Ok ea s0) ->
  exists s' ea' eas',
    step_param g p s = Ok tt s' /\
    pst s' p = mkPState (Some (n + 1)) (Some sd) (Some ea') (Some eas') /\
    t_shape ea' = cshape rank a b /\ t_shape eas' = [a; b] /\
    t_shape (p_data (heap s' p)) = [a; b] /\
    (forall s0, _down_proj sd rank (ema_exp_avg (fst (g_betas g)) M grad) s0 = Ok ea' s0).
Proof.
  intros Hlaws Hrank Hpol Hlr Hg (Hgs & Hgd & Hgt & Hgl) (HMs & HMd & HMt & HMl)
    Hdata Hseed Hsd Hmom Hea Heas Hn Hk HM.
  destruct (compressed_step_cases g p grad s a b rank lr n sd ea eas)
    as (cgrad & update & Hdown & Hcg & Hup & Hupd & Hstep); try done.
  destruct (compressed_result_state g p grad ea eas cgrad update lr n sd s) as [Hst Hin].
  do 3 eexists. split; [|split; [|split; [|split; [|split]]]].
  - rewrite Hstep. apply (rotate_skip g p [a; b] rank sd (n + 1)); try done; [lia|].
    rewrite Z.mod_small; lia.
  - unfold compressed_result. by rewrite pst_with_param_data, pst_with_state.
  - done.
  - done.
  - unfold compressed_result, with_param_data. cbn [heap]. by rewrite fn_lookup_insert.
  - intros s0.
    apply (down_proj_ema_zeros sd rank a b M grad ea cgrad (fst (g_betas g)) s0);
      try done; congruence.
Qed.

Lemma run_projected g p a b rank lr sd d dt :
  torch_laws ->
  g_rank g = Some rank -> _should_compress g [a; b] = true -> g_lr g = Some lr ->
  seed_ok sd ->
  forall grads s M n ea eas,
    Forall (matrix_like a b d dt) grads -> matrix_like a b d dt M ->
    t_shape (p_data (heap s p)) = [a; b] ->
    pst s p = mkPState (Some n) (Some sd) (Some ea) (Some eas) ->
    t_shape ea = cshape rank a b -> t_shape eas = [a; b] ->
    0 <= n -> n + Z.of_nat (length grads) < g_kappa g ->
    (forall s0, _down_proj sd rank M s0 = Ok ea s0) ->
    exists s' ea',
      run_updates g p grads s = Ok tt s' /\
      st_step (pst s' p) = Some (n + Z.of_nat (length grads)) /\
      st_seed (pst s' p) = Some sd /\
      st_exp_avg (pst s' p) = Some ea' /\
      (forall s0,
         _down_proj sd rank (first_moment (fst (g_betas g)) M grads) s0 = Ok ea' s0).
Proof.
  intros Hlaws Hrank Hpol Hlr Hsd.
  induction grads as [|grad rest IH]; intros s M n ea eas Hall HM Hdata Hpst Hea Heas Hn Hk Hproj.
  - exists s, ea. split; [done|]. rewrite Hpst. simpl. rewrite Z.add_0_r. done.
  - apply Forall_cons in Hall as [Hgrad Hall].
    simpl length in Hk. simpl. unfold bind. simpl.
    set (s0 := mkStore _ _ _ _).
    assert (Hp0 : pst s0 p = pst s p) by reflexivity.
    destruct (compressed_step_projected g p a b rank lr sd d dt grad M n ea eas s0)
      as (s1 & ea1 & eas1 & Hs1 & Hpst1 & Hea1 & Heas1 & Hdata1 & Hproj1); try done.
    { unfold s0. cbn [heap]. by rewrite fn_lookup_insert. }
    { unfold s0. cbn [heap]. by rewrite fn_lookup_insert. }
    { by rewrite Hp0, Hpst. }
    { unfold compressed_moments. by rewrite Hp0, Hpst. }
    { lia. }
    rewrite Hs1.
    destruct (IH s1 (ema_exp_avg (fst (g_betas g)) M grad) (n + 1) ea1 eas1)
      as (s' & ea' & Hrun & Hst & Hseed & Hexp & Hfin); try done; try lia.
    { by apply matrix_like_ema. }
    exists s', ea'. split; [done|]. split; [|done].
    rewrite Hst. f_equal. lia.
Qed.

(** X21. Until the first rotation the compressed first moment is the
    down-projection, under the seed of the parameter, of the first
    moment Adam would hold: after fewer than [kappa] updates of a
    parameter that is ready and not yet initialised, with gradients of
    one shape, device and dtype, [exp_avg] is [_down_proj] of the
    [beta1] moving average of the gradients started at zero, and the
    seed is still the initial one. *)
Theorem compressed_moment_is_projected_adam (g : group) (p : handle) (a b rank sd : Z)
    (d : device) (dt : dtype) (grad : Tensor) (rest : list Tensor) (s : store) :
  torch_laws -> ready g p a b rank s ->
  st_step (pst s p) = None -> st_seed (pst s p) = Some sd ->
  Forall (matrix_like a b d dt) (grad :: rest) ->
  Z.of_nat (length (grad :: rest)) < g_kappa g ->
  exists s' ea,
    run_updates g p (grad :: rest) s = Ok tt s' /\
    step_count s' p = Z.of_nat (length (grad :: rest)) /\
    st_seed (pst s' p) = Some sd /\
    st_exp_avg (pst s' p) = Some ea /\
    _down_proj sd rank
      (first_moment (fst (g_betas g)) (torch.zeros_like grad) (grad :: rest)) s' = Ok ea s'.
Proof.
  intros Hlaws [Hrank Hpol [lr Hlr] Hkappa Hdata (sd' & Hseed' & Hsd) Hmom] Hfresh Hseed
    Hall Hk.
  assert (sd' = sd) as -> by congruence.
  destruct (policy_dims g a b rank Hrank Hpol) as (Hr0 & Ha0 & Hb0).
  apply Forall_cons in Hall as [Hgrad Hall].
  pose proof Hgrad as (Hgs & Hgd & Hgt & Hgl).
  simpl length in Hk. simpl. unfold bind. simpl.
  set (s0 := mkStore _ _ _ _).
  assert (Hp0 : pst s0 p = pst s p) by reflexivity.
  destruct (down_proj_ok sd rank a b grad) as (cgrad & Hdown & Hcg); try done; try lia.
  destruct (compressed_step_projected g p a b rank lr sd d dt grad (torch.zeros_like grad) 0
              (torch.to (torch.zeros (cshape rank a b)) grad)
              (torch.zeros_like (p_data (heap s0 p))) s0)
    as (s1 & ea1 & eas1 & Hs1 & Hpst1 & Hea1 & Heas1 & Hdata1 & Hproj1); try done.
  { unfold s0. cbn [heap]. by rewrite fn_lookup_insert. }
  { by apply matrix_like_zeros. }
  { unfold s0. cbn [heap]. by rewrite fn_lookup_insert. }
  { unfold compressed_moments. by rewrite Hp0, Hfresh. }
  { unfold s0. cbn [heap torch.zeros_like t_shape]. by rewrite fn_lookup_insert. }
  { lia. }
  { intros s2.
    apply (down_proj_ema_zeros sd rank a b grad grad cgrad cgrad 0%R s2); try done. }
  rewrite Hs1.
  destruct (run_projected g p a b rank lr sd d dt Hlaws Hrank Hpol Hlr Hsd rest s1
              (ema_exp_avg (fst (g_betas g)) (torch.zeros_like grad) grad) (0 + 1) ea1 eas1)
    as (s' & ea' & Hrun & Hst & Hsd' & Hexp & Hfin); try done; try lia.
  { apply matrix_like_ema; [by apply matrix_like_zeros|done]. }
  exists s', ea'. split; [done|]. split; [|done].
  unfold step_count. rewrite Hst. simpl. lia.
Qed.

(** *** The compressed step as a step of Adam *)

Lemma dot_scale_r k (f g : nat -> R) (c : R) :
  torch.dot k f (fun l => g l / c)%R = (torch.dot k f g / c)%R.
Proof.
  unfold torch.dot, Rdiv. induction (seq 0 k) as [|l ls IH]; simpl.
  - ring.
  - rewrite IH. ring.
Qed.

Lemma dot_scale_l k (f g : nat -> R) (c : R) :
  torch.dot k (fun l => f l / c)%R g = (torch.dot k f g / c)%R.
Proof.
  unfold torch.dot, Rdiv. induction (seq 0 k) as [|l ls IH]; simpl.
  - ring.
  - rewrite IH. ring.
Qed.

Lemma mat_get_div n (x : list R) (c : R) i j :
  torch.mat_get n (map (fun v => v / c)%R x) i j = (torch.mat_get n x i j / c)%R.
Proof.
  unfold torch.mat_get.
  rewrite <- (map_nth (fun v => v / c)%R x 0%R). f_equal. unfold Rdiv. ring.
Qed.

Lemma mat_build_map (h : R -> R) rows cols (f : nat -> nat -> R) :
  map h (torch.mat_build rows cols f) = torch.mat_build rows cols (fun i j => h (f i j)).
Proof.
  unfold torch.mat_build. induction (seq 0 rows) as [|i rest IH]; simpl; [done|].
  by rewrite map_app, IH, map_map.
Qed.

Lemma matmul_div_r P c k m q n PC :
  t_shape P = [m; q] -> t_shape c = [q; n] ->
  torch.matmul P c = Some PC ->
  torch.matmul P (torch.div_scalar c k) = Some (torch.div_scalar PC k).
Proof.
  intros HP Hc. unfold torch.matmul, torch.div_scalar.
  cbn [torch.with_data t_shape t_data t_device t_dtype].
  rewrite HP, Hc. destruct (decide (q = q)); [|done]. intros [= <-].
  unfold torch.with_data. cbn [t_shape t_data t_device t_dtype]. do 2 f_equal.
  rewrite mat_build_map. apply mat_build_ext. intros i j.
  rewrite <- dot_scale_r. apply dot_ext; [done|]. intros l. apply mat_get_div.
Qed.

Lemma matmul_div_l P c k m q n CP :
  t_shape P = [q; n] -> t_shape c = [m; q] ->
  torch.matmul c P = Some CP ->
  torch.matmul (torch.div_scalar c k) P = Some (torch.div_scalar CP k).
Proof.
  intros HP Hc. unfold torch.matmul, torch.div_scalar.
  cbn [torch.with_data t_shape t_data t_device t_dtype].
  rewrite HP, Hc. destruct (decide (q = q)); [|done]. intros [= <-].
  unfold torch.with_data. cbn [t_shape t_data t_device t_dtype]. do 2 f_equal.
  rewrite mat_build_map. apply mat_build_ext. intros i j.
  rewrite <- dot_scale_l. apply dot_ext; [|done]. intros l. apply mat_get_div.
Qed.

Lemma up_proj_inv seed rank a b c y s s' :
  _up_proj seed rank [a; b] c s = Ok y s' ->
  exists lseed rseed, split_seed seed s = Ok [lseed; rseed] s /\ 0 <= rank /\ 0 <= a /\ 0 <= b.
Proof.
  intros Hrun.
  destruct (manual_seed cpu seed) as [g0|] eqn:Hg0.
  2: { unfold _up_proj, split_seed, bind in Hrun. by rewrite Hg0 in Hrun. }
  do 2 eexists. split; [by apply split_seed_eq|].
  unfold _up_proj, bind in Hrun. rewrite (split_seed_eq _ _ _ Hg0) in Hrun.
  cbv beta iota delta [unpack2 ret] in Hrun.
  rewrite py_index_first, py_index_last in Hrun. cbv beta iota delta [ret] in Hrun.
  destruct (a <? b) eqn:Hab.
  - apply Z.ltb_lt in Hab.
    destruct (stable_randn [rank; a] _ _ _ s) as [rn s1|] eqn:Hrn; [|done].
    pose proof (stable_randn_dims _ _ _ _ _ _ _ rank Hrn ltac:(by left)).
    pose proof (stable_randn_dims _ _ _ _ _ _ _ a Hrn ltac:(right; by left)). lia.
  - apply Z.ltb_ge in Hab.
    destruct (stable_randn [b; rank] _ _ _ s) as [rn s1|] eqn:Hrn; [|done].
    pose proof (stable_randn_dims _ _ _ _ _ _ _ b Hrn ltac:(by left)).
    pose proof (stable_randn_dims _ _ _ _ _ _ _ rank Hrn ltac:(right; by left)). lia.
Qed.

(** Up-projection commutes with the division by a bias correction. *)
Lemma up_proj_div_scalar seed rank a b c k u s :
  t_shape c = cshape rank a b -> _up_proj seed rank [a; b] c s = Ok u s ->
  _up_proj seed rank [a; b] (torch.div_scalar c k) s = Ok (torch.div_scalar u k) s.
Proof.
  intros Hc Hu.
  destruct (up_proj_inv seed rank a b c u s s Hu) as (lseed & rseed & Hsplit & Hr & Ha & Hb).
  rewrite (up_proj_eq seed rank lseed rseed a b) in Hu by done.
  rewrite (up_proj_eq seed rank lseed rseed a b) by done.
  cbn [torch.div_scalar torch.with_data t_device t_dtype].
  unfold cshape in Hc. destruct (a <? b).
  - destruct (manual_seed (t_device c) lseed) as [g0|]; [|done].
    destruct (t_shape_matrix (projection_matrix g0 rank a rank (t_device c) (t_dtype c))
                rank a eq_refl) as (Lt & HLt & Hsh & _).
    rewrite HLt in *. destruct (torch.matmul Lt c) as [y|] eqn:Hy; [|done].
    injection Hu as ->.
    by rewrite (matmul_div_r Lt c k a rank b u).
  - destruct (manual_seed (t_device c) rseed) as [g0|]; [|done].
    destruct (t_shape_matrix (projection_matrix g0 b rank rank (t_device c) (t_dtype c))
                b rank eq_refl) as (Rt & HRt & Hsh & _).
    rewrite HRt in *. destruct (torch.matmul c Rt) as [y|] eqn:Hy; [|done].
    injection Hu as ->.
    by rewrite (matmul_div_l Rt c k a rank b u).
Qed.

Lemma flora_adam_data lr beta1 beta2 eps t (x us vs : list R) :
  zip_with (fun x uv => flora_param lr beta2 eps t x (fst uv) (snd uv)) x
    (zip (map (fun u => u / (1 - powerRZ beta1 t))%R us) vs) =
  zip_with (fun x mv => adam_param lr beta1 beta2 eps t x (fst mv) (snd mv)) x (zip us vs).
Proof.
  revert us vs. induction x as [|x0 x IH]; intros [|u us] [|v vs]; simpl; try done.
  by rewrite IH.
Qed.

(** X22. A compressed update that does not rotate moves the parameter
    exactly as standard Adam does, with the up-projection of the
    compressed first moment in the place of Adam's first moment: each
    entry becomes [adam_param] of itself, the reconstructed first
    moment and the second moment, at the incremented step. *)
Theorem compressed_step_is_adam_on_reconstruction (g : group) (p : handle) (grad : Tensor)
    (s : store) (a b rank : Z) (lr : R) (n sd : Z) (ea eas : Tensor) :
  torch_laws ->
  g_rank g = Some rank -> _should_compress g [a; b] = true -> g_lr g = Some lr ->
  p_grad (heap s p) = Some grad -> t_shape grad = [a; b] ->
  t_shape (p_data (heap s p)) = [a; b] ->
  st_seed (pst s p) = Some sd -> seed_ok sd ->
  compressed_moments s p rank a b grad = Some (n, ea, eas) ->
  t_shape ea = cshape rank a b -> t_shape eas = [a; b] ->
  g_kappa g <> 0 -> (n + 1) mod g_kappa g <> 0 ->
  exists cgrad full s',
    _down_proj sd rank grad s = Ok cgrad s /\
    _up_proj sd rank [a; b] (ema_exp_avg (fst (g_betas g)) ea cgrad) s = Ok full s /\
    step_param g p s = Ok tt s' /\
    st_exp_avg (pst s' p) = Some (ema_exp_avg (fst (g_betas g)) ea cgrad) /\
    st_exp_avg_sq (pst s' p) = Some (ema_exp_avg_sq (snd (g_betas g)) eas grad) /\
    t_data (p_data (heap s' p)) =
    zip_with
      (fun x mv =>
         adam_param lr (fst (g_betas g)) (snd (g_betas g)) (g_eps g) (n + 1) x
           (fst mv) (snd mv))
      (t_data (p_data (heap s p)))
      (zip (t_data full) (t_data (ema_exp_avg_sq (snd (g_betas g)) eas grad))).
Proof.
  intros Hlaws Hrank Hpol Hlr Hg Hgrad Hdata Hseed Hsd Hmom Hea Heas Hk Hmod.
  destruct (policy_dims g a b rank Hrank Hpol) as (Hr0 & Ha0 & Hb0).
  destruct (compressed_step_cases g p grad s a b rank lr n sd ea eas)
    as (cgrad & update & Hdown & Hcg & Hup & Hupd & Hstep); try done.
  destruct (up_proj_ok sd rank a b (ema_exp_avg (fst (g_betas g)) ea cgrad))
    as (full & Hfull & Hfsh); try done; try lia.
  assert (Hupdate : update =
    torch.div_scalar full (1 - powerRZ (fst (g_betas g)) (n + 1))).
  { pose proof (up_proj_div_scalar sd rank a b (ema_exp_avg (fst (g_betas g)) ea cgrad)
                  (1 - powerRZ (fst (g_betas g)) (n + 1)) full s Hea (Hfull s)) as Hdiv.
    rewrite Hup in Hdiv. by injection Hdiv. }
  destruct (compressed_result_state g p grad ea eas cgrad update lr n sd s) as [Hst Hin].
  exists cgrad, full, (compressed_result g p grad ea eas cgrad update lr n sd s).
  split; [done|]. split; [done|]. split.
  { rewrite Hstep. by apply (rotate_skip g p [a; b] rank sd (n + 1)). }
  unfold compressed_result. rewrite pst_with_param_data, pst_with_state.
  split; [done|]. split; [done|].
  unfold with_param_data. cbn [heap]. rewrite fn_lookup_insert.
  cbn [p_data torch.with_data t_data]. rewrite ?heap_with_state, Hupdate.
  cbn [torch.div_scalar torch.with_data t_data]. apply flora_adam_data.
Qed.

End Properties.

(** * Examples on the small backend *)

Lemma ok_final {A} (o : outcome A) : is_ok o = true -> exists a, o = Ok a (final o).
Proof. destruct o; [by eexists|done]. Qed.

Lemma ok_final_unit (o : outcome unit) : is_ok o = true -> o = Ok tt (final o).
Proof. by destruct o as [[]|]. Qed.

(** C7, on the example: one call of [step] leaves parameter 2, which
    has no gradient, and its state as they were, and moves the step
    counter of parameter 1 from 0 to 1. *)
Lemma null_gradient_skipped_witness :
  heap (final (step None ex_store)) 2%positive = heap ex_store 2%positive /\
  opt_state (final (step None ex_store)) !! 2%positive = opt_state ex_store !! 2%positive /\
  step_count (final (step None ex_store)) 1%positive = step_count ex_store 1%positive + 1.
Proof.
  destruct (null_gradient_skipped None ex_store ex_store None eq_refl) as (Hnull & _ & Hstep).
  split; [by apply Hnull|]. split; [by apply Hnull|].
  destruct (ok_final (step None ex_store)) as [r Hr]; [vm_compute; reflexivity|].
  apply (Hstep 1%positive (ex_ones [4; 2]) r); [reflexivity| | |exact Hr].
  - apply (bool_decide_unpack _). vm_compute. exact I.
  - apply (bool_decide_unpack _). vm_compute. exact I.
Defined.

(** C2, on the example: the policy answers true for parameter 1, so its
    update is the compressed one. *)
Lemma policy_evaluated_at_every_update_witness :
  step_param (ex_group (Some 2) 4) 1%positive ex_store =
  update_param true (ex_group (Some 2) 4) 1%positive (ex_ones [4; 2]) ex_store.
Proof.
  destruct (policy_evaluated_at_every_update (ex_group (Some 2) 4) 1%positive
              (ex_ones [4; 2]) ex_store eq_refl) as (Hstep & _ & _).
  exact Hstep.
Defined.

(** C2 as stated fails. The state of parameter 1 is initialised by an
    update of a group without rank, so on the full path, with a first
    moment of the full shape (4, 2). The rank of the group is then set
    to 2: the next update evaluates the policy again, runs the
    compressed path, completes, and rotates the seed, which an update
    on the full path leaves alone. *)
Lemma mode_reevaluated_counterexample :
  let g1 := ex_group None 2 in
  let g2 := ex_group (Some 2) 2 in
  let s1 := final (step_param g1 1%positive ex_store) in
  let s2 := final (step_param g2 1%positive s1) in
  _should_compress g1 [4; 2] = false /\
  is_ok (step_param g1 1%positive ex_store) = true /\
  t_shape <$> st_exp_avg (pst s1 1%positive) = Some [4; 2] /\
  _should_compress g2 [4; 2] = true /\
  step_param g2 1%positive s1 = update_param true g2 1%positive (ex_ones [4; 2]) s1 /\
  is_ok (step_param g2 1%positive s1) = true /\
  st_seed (pst s1 1%positive) = Some 7 /\
  st_seed (pst s2 1%positive) = Some 4184551844443458792 /\
  st_seed (pst (final (update_param false g2 1%positive (ex_ones [4; 2]) s1)) 1%positive)
    = Some 7.
Proof.
  intros g1 g2 s1 s2.
  assert (Hg : p_grad (heap s1 1%positive) = Some (ex_ones [4; 2])).
  { unfold s1. by rewrite (frame_grad _ _ _ (keeps_frame_step_param g1 1%positive ex_store)). }
  split; [reflexivity|]. split; [vm_compute; reflexivity|].
  split; [vm_compute; reflexivity|]. split; [reflexivity|].
  split.
  { unfold step_param, bind, get_param. by rewrite Hg. }
  repeat split; vm_compute; reflexivity.
Qed.

Lemma toy_torch_laws : @torch_laws toy_torch.
Proof.
  split.
  - intros dev seed [Hlo Hhi]. simpl.
    rewrite (proj2 (Z.leb_le _ _) Hlo), (proj2 (Z.ltb_lt _ _) Hhi). by eexists.
  - intros g low high n k Hlt. simpl.
    pose proof (Z.mod_pos_bound (lcg_at g k) (high - low) ltac:(lia)). lia.
Qed.

Lemma ex_store_ready : ready (ex_group (Some 2) 4) 1%positive 4 2 2 ex_store.
Proof.
  split.
  - reflexivity.
  - reflexivity.
  - by eexists.
  - done.
  - reflexivity.
  - exists 7. split; [reflexivity|]. unfold seed_ok. lia.
  - by left.
Qed.

(** C3, on the example: ten updates of parameter 1 with kappa = 4. *)
Lemma seed_rotation_cadence_witness :
  exists seed1 seed2,
    next_seed 7 default_adv ex_store = Ok seed1 ex_store /\
    next_seed seed1 default_adv ex_store = Ok seed2 ex_store /\
    forall k, (k <= 10)%nat ->
      exists sk,
        run_updates (ex_group (Some 2) 4) 1%positive
          (take k (replicate 10 (ex_ones [4; 2]))) ex_store = Ok tt sk /\
        st_seed (pst sk 1%positive) =
        Some (if (k <? 4)%nat then 7 else if (k <? 8)%nat then seed1 else seed2).
Proof.
  destruct (seed_rotation_cadence (ex_group (Some 2) 4) 1%positive)
    as (_ & _ & Hrun & Hcomplete).
  destruct (Hcomplete 4 2 2 ex_store (replicate 10 (ex_ones [4; 2]))
              toy_torch_laws ex_store_ready) as (s' & Hs' & _).
  { repeat constructor. }
  apply (Hrun ex_store s' (replicate 10 (ex_ones [4; 2])) 7).
  - reflexivity.
  - reflexivity.
  - repeat constructor.
  - reflexivity.
  - reflexivity.
  - exact Hs'.
Defined.

(** C4 as stated fails: a configuration that breaks every one of the
    listed conditions (no [lr], betas 2 and -1, rank -1, kappa 0) is
    accepted. *)
Lemma invalid_configuration_accepted :
  invalid_config None (2%R, (-1)%R) (Some (-1)) 0 /\
  (exists r, Some (-1) = Some r /\ r <= 0) /\ 0 <= 0 /\ ~ (0 <= 2 < 1)%R /\
  ~ (0 <= -1 < 1)%R /\
  is_ok (FloraAdam_init (Tensors [1%positive; 2%positive]) None (2%R, (-1)%R) 1%R
           (Some (-1)) 0 0 ex_store) = true.
Proof.
  split; [right; by left|]. split; [by exists (-1)|]. split; [done|].
  split; [lra|]. split; [lra|]. vm_compute. reflexivity.
Qed.

(** C4 as amended, on the example: the same configuration is stored in
    the group as given. *)
Lemma construction_checks_no_option_witness :
  param_groups
    (final (FloraAdam_init (Tensors [1%positive; 2%positive]) None (2%R, (-1)%R) 1%R
              (Some (-1)) 0 0 ex_store)) =
  [mkGroup [1%positive; 2%positive] None (2%R, (-1)%R) 1%R (Some (-1)) 0].
Proof.
  destruct (construction_checks_no_option (Tensors [1%positive; 2%positive]) None
              (2%R, (-1)%R) 1%R (Some (-1)) 0 0 ex_store) as [_ Hgroups].
  assert (Hok : is_ok (FloraAdam_init (Tensors [1%positive; 2%positive]) None
                         (2%R, (-1)%R) 1%R (Some (-1)) 0 0 ex_store) = true)
    by (vm_compute; reflexivity).
  rewrite (Hgroups _ (ok_final_unit _ Hok)). reflexivity.
Defined.

(** C5, on the example: the first update of parameter 1 in a group
    without rank. *)
Lemma full_path_is_adam_witness :
  let '(x', m', v') :=
    adam_step 1 (1 / 2) (1 / 2) 1 1 (t_data (ex_ones [4; 2]))
      (t_data (torch.zeros_like (ex_ones [4; 2])))
      (t_data (torch.zeros_like (ex_ones [4; 2]))) (t_data (ex_ones [4; 2])) in
  step_param (ex_group None 4) 1%positive ex_store =
  Ok tt (with_param_data 1%positive (torch.with_data (ex_ones [4; 2]) x')
           (with_state 1%positive
              (mkPState (Some 1) (Some 7)
                 (Some (torch.with_data (torch.zeros_like (ex_ones [4; 2])) m'))
                 (Some (torch.with_data (torch.zeros_like (ex_ones [4; 2])) v')))
              ex_store)).
Proof.
  apply (full_path_is_adam (ex_group None 4) 1%positive (ex_ones [4; 2]) ex_store 1%R 0
           (torch.zeros_like (ex_ones [4; 2])) (torch.zeros_like (ex_ones [4; 2])));
    try reflexivity.
  by left.
Defined.

(** The first update of parameter 1 by a group without rank, and the
    store it leaves: a state initialised on the full path. *)
Lemma ex_full_mode_store :
  let z := torch.zeros_like (ex_ones [4; 2]) in
  step_param (ex_group None 4) 1%positive ex_store =
  let '(x', m', v') :=
    adam_step 1 (1 / 2) (1 / 2) 1 1 (t_data (ex_ones [4; 2])) (t_data z) (t_data z)
      (t_data (ex_ones [4; 2])) in
  Ok tt (with_param_data 1%positive (torch.with_data (ex_ones [4; 2]) x')
           (with_state 1%positive
              (mkPState (Some 1) (Some 7) (Some (torch.with_data z m'))
                 (Some (torch.with_data z v'))) ex_store)).
Proof.
  intros z.
  assert (Hstep : step_param (ex_group None 4) 1%positive ex_store =
                  update_param false (ex_group None 4) 1%positive (ex_ones [4; 2]) ex_store)
    by reflexivity.
  rewrite Hstep.
  rewrite (update_param_fresh_full (ex_group None 4) 1%positive (ex_ones [4; 2]) ex_store
             eq_refl).
  cbv zeta. unfold branch.
  by rewrite (full_update_adam (ex_group None 4) 1%positive (ex_ones [4; 2]) z z 1 _ 1%R
                (Some 7) (Some 1)).
Qed.

(** The projection of the matrix of ones under seed 7 and rank 2: the
    second column of the projection matrix holds [-1 / sqrt 2] and
    [1 / sqrt 2], so entry (0, 1) is 0. *)
Lemma ex_down_proj_ones :
  exists cgrad,
    (forall s, _down_proj 7 2 (ex_ones [4; 2]) s = Ok cgrad s) /\
    length (t_data cgrad) = 8%nat /\
    nth 1 (t_data cgrad) 0%R = 0%R.
Proof.
  eexists. split; [|split].
  - intros s.
    rewrite (down_proj_eq 7 2 9098160460397411210 8405434889706942098 4 2);
      [|by apply (split_seed_eq 7 (7 : @rng_state toy_torch))|lia|lia|lia|reflexivity].
    change (4 <? 2) with false. cbv iota.
    change (manual_seed (t_device (ex_ones [4; 2])) 8405434889706942098)
      with (Some (8405434889706942098 : @rng_state toy_torch)).
    cbv iota. unfold torch.matmul. cbn [t_shape ex_ones projection_matrix].
    destruct (decide (2 = 2)); [|done]. cbn [lift ret]. reflexivity.
  - reflexivity.
  - cbn [t_data].
    change (Z.to_nat 4) with 4%nat. change (Z.to_nat 2) with 2%nat.
    unfold projection_matrix, ex_ones.
    change (torch.numel [4; 2]) with 8%nat. change (torch.numel [2; 2]) with 4%nat.
    cbv [torch.mat_build flat_map seq map app nth torch.dot fold_right torch.mat_get
           t_data repeat Nat.mul Nat.add randn_draw toy_torch].
    replace (lcg_at 8405434889706942098 1 mod 7 - 3) with (-1) by (vm_compute; reflexivity).
    replace (lcg_at 8405434889706942098 3 mod 7 - 3) with 1 by (vm_compute; reflexivity).
    lra.
Qed.

(** C5 as stated fails. The state of parameter 1 is initialised by an
    update of a group without rank, so it is in full mode: both moments
    have the shape (4, 2) of the parameter. The rank of the group is
    then set to 2, for which the policy accepts the shape. The next
    update, from that state, completes and is not the update of Adam:
    entry (0, 1) of the first moment becomes
    [1/2 * 1/2 + 1/2 * 0 = 1/4], the moving average with the projected
    gradient, where Adam's moving average with the gradient itself
    gives [1/2 * 1/2 + 1/2 * 1 = 3/4]. *)
Lemma full_mode_state_projected_counterexample :
  let g1 := ex_group None 4 in
  let g2 := ex_group (Some 2) 4 in
  let grad := ex_ones [4; 2] in
  let s1 := final (step_param g1 1%positive ex_store) in
  let s2 := final (step_param g2 1%positive s1) in
  _should_compress g1 [4; 2] = false /\
  is_ok (step_param g1 1%positive ex_store) = true /\
  p_grad (heap s1 1%positive) = Some grad /\
  g_lr g2 = Some 1%R /\ g_betas g2 = ((1 / 2)%R, (1 / 2)%R) /\
  _should_compress g2 [4; 2] = true /\
  exists m v ea,
    moments s1 1%positive = Some (1, m, v) /\
    t_shape m = [4; 2] /\ t_shape v = [4; 2] /\
    t_shape (p_data (heap s1 1%positive)) = [4; 2] /\
    is_ok (step_param g2 1%positive s1) = true /\
    st_exp_avg (pst s2 1%positive) = Some ea /\
    nth 1 (t_data ea) 0%R = (1 / 4)%R /\
    nth 1 (zip_with (adam_exp_avg (1 / 2)) (t_data m) (t_data grad)) 0%R = (3 / 4)%R /\
    t_data ea <> zip_with (adam_exp_avg (1 / 2)) (t_data m) (t_data grad).
Proof.
  intros g1 g2 grad s1 s2.
  pose proof ex_full_mode_store as Hs1. cbv zeta in Hs1.
  unfold adam_step in Hs1.
  set (z := torch.zeros_like (ex_ones [4; 2])) in Hs1.
  set (m := torch.with_data z (zip_with (adam_exp_avg (1 / 2)) (t_data z)
                                 (t_data (ex_ones [4; 2])))) in Hs1.
  set (v := torch.with_data z (zip_with (adam_exp_avg_sq (1 / 2)) (t_data z)
                                 (t_data (ex_ones [4; 2])))) in Hs1.
  match type of Hs1 with _ = Ok tt ?s => set (s1' := s) in Hs1 end.
  assert (Es1 : s1 = s1') by (unfold s1, g1; by rewrite Hs1).
  split; [reflexivity|]. split; [unfold g1; by rewrite Hs1|].
  split; [rewrite Es1; reflexivity|]. split; [reflexivity|]. split; [reflexivity|].
  split; [reflexivity|].
  destruct (compressed_step_cases g2 1%positive grad s1' 4 2 2 1%R 1 7 m v toy_torch_laws)
    as (cgrad & update & Hdown & Hcg & Hup & Hupd & Hstep); try reflexivity.
  { unfold seed_ok. lia. }
  destruct (compressed_result_state g2 1%positive grad m v cgrad update 1%R 1 7 s1')
    as [Hst Hin].
  rewrite (rotate_skip g2 1%positive [4; 2] 2 7 (1 + 1)) in Hstep; [|done|done|done|done].
  destruct ex_down_proj_ones as (cgrad' & Hdown' & Hlen & Hentry).
  assert (cgrad' = cgrad) as ->.
  { pose proof (Hdown ex_store) as H1. unfold grad in H1.
    rewrite (Hdown' ex_store) in H1. by injection H1. }
  exists m, v, (ema_exp_avg (1 / 2) m cgrad).
  split; [rewrite Es1; reflexivity|]. split; [reflexivity|]. split; [reflexivity|].
  split; [rewrite Es1; reflexivity|].
  unfold s2. rewrite Es1, Hstep. split; [reflexivity|].
  split; [reflexivity|].
  assert (Hm : nth 1 (t_data m) 0%R = (1 / 2)%R).
  { change (nth 1 (t_data m) 0%R) with (adam_exp_avg (1 / 2) 0 1).
    unfold adam_exp_avg. lra. }
  assert (Hflora : nth 1 (t_data (ema_exp_avg (1 / 2) m cgrad)) 0%R = (1 / 4)%R).
  { unfold ema_exp_avg. cbn [torch.with_data t_data].
    rewrite nth_zip_with_0; [|by rewrite Hlen|unfold adam_exp_avg; lra].
    rewrite Hm, Hentry. unfold adam_exp_avg. lra. }
  assert (Hadam : nth 1 (zip_with (adam_exp_avg (1 / 2)) (t_data m) (t_data grad)) 0%R =
                  (3 / 4)%R).
  { rewrite nth_zip_with_0; [|reflexivity|unfold adam_exp_avg; lra].
    rewrite Hm. change (nth 1 (t_data grad) 0%R) with 1%R. unfold adam_exp_avg. lra. }
  split; [exact Hflora|]. split; [exact Hadam|].
  intros Heq. rewrite Heq, Hadam in Hflora. lra.
Qed.

(** C6, on the example: seed 7, rank 2, a tensor of shape (4, 2), which
    is projected from the right. *)
Lemma projection_operators_witness :
  let R0 := projection_matrix (8405434889706942098 : @rng_state toy_torch) 2 2 2 cpu float32 in
  t_shape R0 = [2; 2] /\
  exists y, torch.matmul (ex_ones [4; 2]) R0 = Some y /\ t_shape y = [4; 2] /\
            _down_proj 7 2 (ex_ones [4; 2]) ex_store = Ok y ex_store.
Proof.
  assert (Hsplit : split_seed 7 ex_store =
                   Ok [9098160460397411210; 8405434889706942098] ex_store)
    by (by rewrite (split_seed_eq 7 (7 : @rng_state toy_torch))).
  destruct (projection_operators 7 2 9098160460397411210 8405434889706942098 4 2
              (ex_ones [4; 2]) (ex_ones [4; 2]) ex_store Hsplit
              ltac:(lia) ltac:(lia) ltac:(lia) eq_refl) as [_ Htall].
  destruct (Htall ltac:(lia)) as [Hdown _].
  apply (Hdown 8405434889706942098). vm_compute. reflexivity.
Defined.

(** C8, on the example: the draw for seed 7 on the default device. *)
Lemma stable_randn_private_stream_witness :
  stable_randn [2; 2] 7 None float32 ex_store =
  Ok (mkTensor [2; 2] (map (randn_draw (7 : @rng_state toy_torch) float32 4) (seq 0 4))
        cpu float32) ex_store.
Proof.
  destruct (stable_randn_private_stream [2; 2] 7 None float32) as (_ & _ & Hdraw & _).
  apply (Hdraw ex_store (7 : @rng_state toy_torch)); reflexivity.
Defined.

(** C9, on the example: base seed 100 and the parameters 1, 2, in this
    order and in the reverse one. *)
Lemma initial_seeds_witness :
  let s12 := final (FloraAdam_init (Tensors [1%positive; 2%positive]) (Some 1%R)
                      ((1 / 2)%R, (1 / 2)%R) 1%R (Some 2) 4 100 ex_store) in
  let s21 := final (FloraAdam_init (Tensors [2%positive; 1%positive]) (Some 1%R)
                      ((1 / 2)%R, (1 / 2)%R) 1%R (Some 2) 4 100 ex_store) in
  st_seed (pst s12 1%positive) = Some 101 /\ st_seed (pst s12 2%positive) = Some 102 /\
  st_seed (pst s21 1%positive) = Some 102 /\ st_seed (pst s21 2%positive) = Some 101.
Proof.
  intros s12 s21.
  assert (H12 : FloraAdam_init (Tensors [1%positive; 2%positive]) (Some 1%R)
                  ((1 / 2)%R, (1 / 2)%R) 1%R (Some 2) 4 100 ex_store = Ok tt s12)
    by (apply ok_final_unit; vm_compute; reflexivity).
  assert (H21 : FloraAdam_init (Tensors [2%positive; 1%positive]) (Some 1%R)
                  ((1 / 2)%R, (1 / 2)%R) 1%R (Some 2) 4 100 ex_store = Ok tt s21)
    by (apply ok_final_unit; vm_compute; reflexivity).
  destruct (initial_seeds _ _ _ _ _ _ _ _ _ H12) as (_ & Ha & _).
  destruct (initial_seeds _ _ _ _ _ _ _ _ _ H21) as (_ & Hb & _).
  assert (Hnil : forall p : handle, p ∉ @nil handle) by (intros p; apply not_elem_of_nil).
  assert (Hne : forall p q : handle, p <> q -> p ∉ [q])
    by (intros p q Hpq; by apply not_elem_of_cons).
  split; [|split; [|split]].
  - apply (Ha 0%nat 1%positive); [reflexivity|by apply Hne|reflexivity].
  - apply (Ha 1%nat 2%positive); [reflexivity|apply Hnil|reflexivity].
  - apply (Hb 1%nat 1%positive); [reflexivity|apply Hnil|reflexivity].
  - apply (Hb 0%nat 2%positive); [reflexivity|by apply Hne|reflexivity].
Defined.

(** C10, on the example: before any seed was handed out, the update of
    parameter 1 on the compressed path raises [KeyError('seed')], with
    the step counter already at 1. *)
Lemma seed_required_by_compressed_path_witness :
  exists s', step_param (ex_group (Some 2) 4) 1%positive ex_store_unseeded =
             Raise (KeyError "seed") s' /\
             step_count s' 1%positive = step_count ex_store_unseeded 1%positive + 1.
Proof.
  destruct seed_required_by_compressed_path as (_ & Hmissing & _).
  destruct (Hmissing (ex_group (Some 2) 4) 1%positive (ex_ones [4; 2]) ex_store_unseeded
              eq_refl eq_refl eq_refl) as [_ Hraise].
  apply Hraise. by left.
Defined.

(** ** Further examples *)

Lemma raise_final {A} (o : outcome A) : is_ok o = false -> exists e, o = Raise e (final o).
Proof. destruct o; [done|by eexists]. Qed.

Lemma ex_seed_ok : seed_ok 7.
Proof. unfold seed_ok. lia. Qed.


(** X2, on the example: the shape (4, 2), accepted at rank 2, is
    accepted at rank 1. *)
Lemma should_compress_invariances_witness :
  _should_compress (ex_group (Some 1) 4) [4; 2] = true.
Proof.
  apply (proj2 (should_compress_invariances (ex_group (Some 2) 4) (ex_group (Some 1) 4)
                  [4; 2]) 2 1); [reflexivity|reflexivity|lia|reflexivity].
Defined.

(** X3, on the example: rank 2 and a gradient of shape (4, 2). *)
Lemma compressed_moment_size_witness :
  exists ea eas s',
    init_state (ex_group (Some 2) 4) 1%positive (ex_ones [4; 2]) true ex_store = Ok tt s' /\
    st_exp_avg (pst s' 1%positive) = Some ea /\
    st_exp_avg_sq (pst s' 1%positive) = Some eas /\
    t_shape ea = cshape 2 4 2 /\
    Z.of_nat (length (t_data ea)) = 2 * Z.max 4 2 /\
    2 * Z.max 4 2 <= 4 * 2 /\
    (2 < Z.min 4 2 -> 2 * Z.max 4 2 < 4 * 2) /\
    t_shape eas = t_shape (p_data (heap ex_store 1%positive)) /\
    length (t_data eas) = torch.numel (t_shape (p_data (heap ex_store 1%positive))).
Proof.
  apply (compressed_moment_size (ex_group (Some 2) 4) 1%positive (ex_ones [4; 2]) ex_store
           2 4 2); reflexivity.
Defined.

(** X5, on the example: two rotations from seed 7. *)
Lemma rotation_seeds_stay_valid_witness :
  exists sd, rotations 2 7 sd /\ seed_ok sd /\ ((0 < 2)%nat -> 0 <= sd < int64_max).
Proof. apply (rotation_seeds_stay_valid 2 7 toy_torch_laws ex_seed_ok). Defined.

(** X6, on the example: the two seeds split from seed 7. *)
Lemma split_seed_outcomes_witness :
  exists lseed rseed,
    split_seed 7 ex_store = Ok [lseed; rseed] ex_store /\
    unpack2 [lseed; rseed] ex_store = Ok (lseed, rseed) ex_store /\
    next_seed 7 2 ex_store = Ok rseed ex_store.
Proof.
  pose proof (split_seed_eq 7 (7 : @rng_state toy_torch) ex_store eq_refl) as Hsplit.
  destruct (proj2 (split_seed_outcomes 7 ex_store) _ _ Hsplit)
    as (lseed & rseed & Hl & Hu & Hn).
  exists lseed, rseed. rewrite <- Hl. split; [exact Hsplit|]. split; [|exact Hn].
  rewrite Hl. reflexivity.
Defined.

(** X7, on the example: a closure that returns 1. *)
Lemma step_runs_closure_first_witness :
  step (Some (ret 1%R)) ex_store =
  bind (ret 1%R) (fun l => bind (step None) (fun _ => ret (Some l))) ex_store.
Proof. exact (proj1 (step_runs_closure_first (ret 1%R) ex_store)). Defined.

(** X8, on the example: parameter 3, which the group does not list. *)
Lemma step_frame_witness :
  ambient_rng (final (step None ex_store)) = ambient_rng ex_store /\
  heap (final (step None ex_store)) 3%positive = heap ex_store 3%positive /\
  opt_state (final (step None ex_store)) !! 3%positive = opt_state ex_store !! 3%positive.
Proof.
  destruct (step_frame ex_store) as (Hrng & _ & _ & Hother).
  split; [exact Hrng|]. apply Hother.
  apply (bool_decide_unpack _). vm_compute. exact I.
Defined.

(** X9, on the example: the group without [lr]. *)
Lemma lr_unset_never_completes_witness :
  (forall a s', step_param ex_group_no_lr 1%positive ex_store <> Ok a s') /\
  heap (final (step_param ex_group_no_lr 1%positive ex_store)) = heap ex_store.
Proof.
  destruct (lr_unset_never_completes ex_group_no_lr 1%positive (ex_ones [4; 2]) ex_store
              eq_refl eq_refl) as (Hnever & Hheap & _).
  split; [exact Hnever|exact Hheap].
Defined.

(** X11, on the example: rank 0 and kappa 4 against no rank and
    kappa 9. *)
Lemma full_path_ignores_rank_and_kappa_witness :
  step_param (ex_group (Some 0) 4) 1%positive ex_store =
  step_param (ex_group None 9) 1%positive ex_store.
Proof.
  destruct (full_path_ignores_rank_and_kappa (ex_group (Some 0) 4) (ex_group None 9)
              1%positive ex_store eq_refl eq_refl eq_refl) as [_ Hrank].
  apply (Hrank 0); [reflexivity|lia|reflexivity].
Defined.

(** X12, on the example: the first update of parameter 1 with rank 2
    and kappa 4. *)
Lemma compressed_path_update_witness :
  let g := ex_group (Some 2) 4 in
  let ea := torch.to (torch.zeros (cshape 2 4 2)) (ex_ones [4; 2]) in
  let eas := torch.zeros_like (ex_ones [4; 2]) in
  exists cgrad update,
    _down_proj 7 2 (ex_ones [4; 2]) ex_store = Ok cgrad ex_store /\
    _up_proj 7 2 [4; 2]
      (torch.div_scalar (ema_exp_avg (fst (g_betas g)) ea cgrad)
         (1 - powerRZ (fst (g_betas g)) (0 + 1))) ex_store = Ok update ex_store /\
    step_param g 1%positive ex_store =
    Ok tt (compressed_result g 1%positive (ex_ones [4; 2]) ea eas cgrad update 1 0 7 ex_store).
Proof.
  intros g ea eas.
  apply (compressed_path_update g 1%positive (ex_ones [4; 2]) ex_store 4 2 2 1%R 0 7 ea eas
           toy_torch_laws); try reflexivity; try exact ex_seed_ok; by vm_compute.
Defined.

(** X13, on the example: the same update with kappa 0. *)
Lemma kappa_zero_raises_after_update_witness :
  exists s',
    step_param (ex_group (Some 2) 0) 1%positive ex_store = Raise ZeroDivisionError s' /\
    step_param (with_kappa (0 + 2) (ex_group (Some 2) 0)) 1%positive ex_store = Ok tt s' /\
    step_count s' 1%positive = 0 + 1 /\
    st_seed (pst s' 1%positive) = Some 7.
Proof.
  apply (kappa_zero_raises_after_update (ex_group (Some 2) 0) 1%positive (ex_ones [4; 2])
           ex_store 4 2 2 1%R 0 7 (torch.to (torch.zeros (cshape 2 4 2)) (ex_ones [4; 2]))
           (torch.zeros_like (ex_ones [4; 2])) toy_torch_laws);
    try reflexivity; try exact ex_seed_ok; lia.
Defined.

(** X14, on the example: the same update with kappa 1, which rotates
    at every step. *)
Lemma rotation_reprojects_moment_witness :
  let g := ex_group (Some 2) 1 in
  let ea := torch.to (torch.zeros (cshape 2 4 2)) (ex_ones [4; 2]) in
  let eas := torch.zeros_like (ex_ones [4; 2]) in
  exists cgrad update nxt full down,
    _down_proj 7 2 (ex_ones [4; 2]) ex_store = Ok cgrad ex_store /\
    _up_proj 7 2 [4; 2]
      (torch.div_scalar (ema_exp_avg (fst (g_betas g)) ea cgrad)
         (1 - powerRZ (fst (g_betas g)) (0 + 1))) ex_store = Ok update ex_store /\
    next_seed 7 default_adv ex_store = Ok nxt ex_store /\
    _up_proj 7 2 [4; 2] (ema_exp_avg (fst (g_betas g)) ea cgrad) ex_store = Ok full ex_store /\
    _down_proj nxt 2 full ex_store = Ok down ex_store /\
    step_param g 1%positive ex_store =
    Ok tt (with_state 1%positive
             (mkPState (Some (0 + 1)) (Some nxt)
                (Some (torch.with_data (ema_exp_avg (fst (g_betas g)) ea cgrad) (t_data down)))
                (Some (ema_exp_avg_sq (snd (g_betas g)) eas (ex_ones [4; 2]))))
             (compressed_result g 1%positive (ex_ones [4; 2]) ea eas cgrad update 1 0 7
                ex_store)).
Proof.
  intros g ea eas.
  apply (rotation_reprojects_moment g 1%positive (ex_ones [4; 2]) ex_store 4 2 2 1%R 0 7 ea
           eas toy_torch_laws); try reflexivity; try exact ex_seed_ok; by vm_compute.
Defined.

(** X15, on the example: the state of parameter 1 holds a seed and no
    step. *)
Lemma state_initialisation_trigger_witness :
  step_param (ex_group (Some 2) 4) 1%positive ex_store =
  step_param (ex_group (Some 2) 4) 1%positive
    (with_state 1%positive
       (mkPState None (st_seed (pst ex_store 1%positive)) None None) ex_store).
Proof.
  destruct (state_initialisation_trigger (ex_group (Some 2) 4) 1%positive (ex_ones [4; 2])
              ex_store eq_refl) as (Hfresh & _ & _).
  exact (Hfresh eq_refl).
Defined.

Lemma ex_constructed_ok :
  FloraAdam_init (Tensors [1%positive; 2%positive]) (Some 1%R) ((1 / 2)%R, (1 / 2)%R) 1%R
    (Some 2) 4 100 ex_store = Ok tt ex_constructed.
Proof. apply ok_final_unit. vm_compute. reflexivity. Qed.

Lemma ex_constructed_groups : param_groups ex_constructed = [ex_group (Some 2) 4].
Proof.
  destruct (FloraAdam_init_ok (Tensors [1%positive; 2%positive]) (Some 1%R)
              ((1 / 2)%R, (1 / 2)%R) 1%R (Some 2) 4 100 ex_store eq_refl)
    as (s2 & Hrun & Hg & _).
  rewrite ex_constructed_ok in Hrun. injection Hrun as <-. exact Hg.
Qed.

(** X16, on the example: construction with base seed 100. *)
Lemma construction_starts_afresh_witness :
  heap ex_constructed = heap ex_store /\
  ambient_rng ex_constructed = ambient_rng ex_store /\
  (forall p, st_step (pst ex_constructed p) = None /\
             st_exp_avg (pst ex_constructed p) = None /\
             st_exp_avg_sq (pst ex_constructed p) = None).
Proof.
  destruct (construction_starts_afresh _ _ _ _ _ _ _ _ _ ex_constructed_ok)
    as (Hheap & Hrng & _ & Hstate).
  split; [exact Hheap|]. split; [exact Hrng|exact Hstate].
Defined.

(** X17, on the example: parameter 1 after construction. *)
Lemma constructed_parameters_are_ready_witness :
  ready (ex_group (Some 2) 4) 1%positive 4 2 2 ex_constructed.
Proof.
  apply (constructed_parameters_are_ready _ _ _ _ _ _ _ _ _ (ex_group (Some 2) 4) 1%positive
           4 2 2 ex_constructed_ok).
  - rewrite ex_constructed_groups. by left.
  - by left.
  - reflexivity.
  - reflexivity.
  - reflexivity.
  - reflexivity.
  - by eexists.
  - done.
  - lia.
  - rewrite ex_constructed_groups. vm_compute. reflexivity.
Defined.

(** X18, on the example: one step on the two parameters. *)
Lemma step_completes_witness :
  exists s',
    step None ex_store = Ok None s' /\
    step_count s' 1%positive = step_count ex_store 1%positive + 1.
Proof.
  destruct (step_completes ex_store toy_torch_laws) as (s' & Hstep & _ & Hcount).
  - apply (bool_decide_unpack _). vm_compute. exact I.
  - intros g p Hg Hp. apply list_elem_of_singleton in Hg as ->.
    apply elem_of_cons in Hp as [->|Hp].
    + right. exists 4, 2, 2. split; [reflexivity|exact ex_store_ready].
    + apply list_elem_of_singleton in Hp as ->. exact I.
  - exists s'. split; [exact Hstep|].
    apply (Hcount 1%positive (ex_ones [4; 2])); [|reflexivity].
    apply (bool_decide_unpack _). vm_compute. exact I.
Defined.


(** X20, on the example: the average of the matrix of ones with
    itself. *)
Lemma down_proj_is_linear_witness :
  exists cm,
    _down_proj 7 2 (ex_ones [4; 2]) ex_store = Ok cm ex_store /\
    _down_proj 7 2 (ema_exp_avg (1 / 2) (ex_ones [4; 2]) (ex_ones [4; 2])) ex_store =
      Ok (ema_exp_avg (1 / 2) cm cm) ex_store /\
    _down_proj 7 2 (torch.zeros_like (ex_ones [4; 2])) ex_store =
      Ok (torch.to (torch.zeros (cshape 2 4 2)) (ex_ones [4; 2])) ex_store.
Proof.
  destruct (down_proj_ok 7 2 4 2 (ex_ones [4; 2]) toy_torch_laws ex_seed_ok)
    as (cm & Hcm & _); [lia|lia|lia|reflexivity|].
  exists cm. split; [apply Hcm|].
  apply (down_proj_is_linear 7 2 4 2 (ex_ones [4; 2]) (ex_ones [4; 2]) cm cm (1 / 2)%R
           ex_store); try reflexivity; apply Hcm.
Defined.

(** X21, on the example: three updates of parameter 1 with kappa 4. *)
Lemma compressed_moment_is_projected_adam_witness :
  let g := ex_group (Some 2) 4 in
  let grads := [ex_ones [4; 2]; ex_ones [4; 2]; ex_ones [4; 2]] in
  exists s' ea,
    run_updates g 1%positive grads ex_store = Ok tt s' /\
    step_count s' 1%positive = Z.of_nat (length grads) /\
    st_seed (pst s' 1%positive) = Some 7 /\
    st_exp_avg (pst s' 1%positive) = Some ea /\
    _down_proj 7 2
      (first_moment (fst (g_betas g)) (torch.zeros_like (ex_ones [4; 2])) grads) s' = Ok ea s'.
Proof.
  intros g grads.
  apply (compressed_moment_is_projected_adam g 1%positive 4 2 2 7 cpu float32
           (ex_ones [4; 2]) [ex_ones [4; 2]; ex_ones [4; 2]] ex_store toy_torch_laws
           ex_store_ready); try reflexivity.
  repeat constructor.
Defined.

(** X22, on the example: the first update of parameter 1 with rank 2
    and kappa 4. *)
Lemma compressed_step_is_adam_on_reconstruction_witness :
  let g := ex_group (Some 2) 4 in
  let ea := torch.to (torch.zeros (cshape 2 4 2)) (ex_ones [4; 2]) in
  let eas := torch.zeros_like (ex_ones [4; 2]) in
  exists cgrad full s',
    _down_proj 7 2 (ex_ones [4; 2]) ex_store = Ok cgrad ex_store /\
    _up_proj 7 2 [4; 2] (ema_exp_avg (fst (g_betas g)) ea cgrad) ex_store = Ok full ex_store /\
    step_param g 1%positive ex_store = Ok tt s' /\
    st_exp_avg (pst s' 1%positive) = Some (ema_exp_avg (fst (g_betas g)) ea cgrad) /\
    st_exp_avg_sq (pst s' 1%positive) =
      Some (ema_exp_avg_sq (snd (g_betas g)) eas (ex_ones [4; 2])) /\
    t_data (p_data (heap s' 1%positive)) =
    zip_with
      (fun x mv =>
         adam_param 1 (fst (g_betas g)) (snd (g_betas g)) (g_eps g) (0 + 1) x
           (fst mv) (snd mv))
      (t_data (p_data (heap ex_store 1%positive)))
      (zip (t_data full) (t_data (ema_exp_avg_sq (snd (g_betas g)) eas (ex_ones [4; 2])))).
Proof.
  intros g ea eas.
  apply (compressed_step_is_adam_on_reconstruction g 1%positive (ex_ones [4; 2]) ex_store
           4 2 2 1%R 0 7 ea eas toy_torch_laws);
    try reflexivity; try exact ex_seed_ok; by vm_compute.
Defined.
